(** * Propositional-logic verifier: expression model, lexer, parser and
      enumeration-based decision procedures of [verificateur.py]. *)

From Stdlib Require Import ZArith String Ascii List Bool Lia Sorted.
From stdpp Require Import base option list gmap strings.

#[local] Set Warnings "-clear-no-such-hyp".

Local Open Scope string_scope.
Local Open Scope list_scope.

(** ** Exceptions and results *)

(** The two exceptions the module can raise: [KeyError] from a dictionary
    lookup in [Var.eval], and the module's own [ParserError(msg)]. *)
Inductive Exception : Type :=
  | KeyError (key : string)
  | ParserError (msg : string).

Inductive result (A : Type) : Type :=
  | Ok (x : A)
  | Raise (e : Exception).
Arguments Ok {A} x.
Arguments Raise {A} e.

Definition bind {A B : Type} (m : result A) (f : A -> result B) : result B :=
  match m with
  | Ok x => f x
  | Raise e => Raise e
  end.

Definition lift {A B : Type} (f : A -> B) (m : result A) : result B :=
  bind m (fun x => Ok (f x)).

Notation "x <- m ;; k" := (bind m (fun x => k))
  (at level 100, m at next level, right associativity).

(** ** Expression model *)

Inductive Expr : Type :=
  | Var (name : string)
  | Not (child : Expr)
  | And (left right : Expr)
  | Or (left right : Expr)
  | Implies (left right : Expr)
  | Iff (left right : Expr).

(** A valuation is a Python [Dict[str, bool]]. *)
Abbreviation Valuation := (gmap string bool).

(** [valuation[name]] raises [KeyError(name)] on a missing key. *)
Definition getitem (valuation : Valuation) (name : string) : result bool :=
  match valuation !! name with
  | Some b => Ok b
  | None => Raise (KeyError name)
  end.

(** [eval]: Python's [and] / [or] evaluate their right operand only when the
    left one does not already decide the result; [==] evaluates both. *)
Fixpoint eval (e : Expr) (valuation : Valuation) : result bool :=
  match e with
  | Var name => getitem valuation name
  | Not child => lift negb (eval child valuation)
  | And l r =>
      b <- eval l valuation;;
      if b then eval r valuation else Ok false
  | Or l r =>
      b <- eval l valuation;;
      if b then Ok true else eval r valuation
  | Implies l r =>
      b <- eval l valuation;;
      if negb b then Ok true else eval r valuation
  | Iff l r =>
      b1 <- eval l valuation;;
      b2 <- eval r valuation;;
      Ok (Bool.eqb b1 b2)
  end.

Fixpoint vars (e : Expr) : gset string :=
  match e with
  | Var name => {[ name ]}
  | Not child => vars child
  | And l r => vars l ∪ vars r
  | Or l r => vars l ∪ vars r
  | Implies l r => vars l ∪ vars r
  | Iff l r => vars l ∪ vars r
  end.

(** ** Valuation helpers *)

(** [itertools.product(pool, repeat=n)]: all [n]-tuples over [pool], in
    lexicographic order of positions in [pool], last component fastest. *)
Fixpoint product {A : Type} (pool : list A) (repeat : nat) : list (list A) :=
  match repeat with
  | O => [[]]
  | S k => x ← pool; (cons x) <$> product pool k
  end.

(** [dict(pairs)]: pairs are inserted left to right, a later key wins. *)
Definition dict (pairs : list (string * bool)) : Valuation :=
  foldl (fun d kv => <[kv.1 := kv.2]> d) ∅ pairs.

Definition all_valuations (vars_list : list string) : list Valuation :=
  (fun bits => dict (zip vars_list bits))
    <$> product [false; true] (length vars_list).

(** [sorted(vars_set)]: the elements of the set in increasing order of
    Python's string comparison (code point by code point). *)
Fixpoint insort (x : string) (l : list string) : list string :=
  match l with
  | [] => [x]
  | y :: l' => if String.leb x y then x :: l else y :: insort x l'
  end.

Definition sorted (vars_set : gset string) : list string :=
  foldr insort [] (elements vars_set).

(** [vars_set = set(); for a in exprs: vars_set |= a.vars()] *)
Definition vars_union (exprs : list Expr) : gset string :=
  foldl (fun vars_set a => vars_set ∪ vars a) ∅ exprs.

(** [all(a.eval(v) for a in axioms)]: stops at the first false axiom. *)
Fixpoint all_eval (axioms : list Expr) (v : Valuation) : result bool :=
  match axioms with
  | [] => Ok true
  | a :: rest =>
      b <- eval a v;;
      if b then all_eval rest v else Ok false
  end.

(** ** Core verifier functions *)

(** The [for v in ...] loop of [is_satisfiable]; [models] is the list built
    so far, and [break] returns it without looking at the remaining
    valuations. *)
Fixpoint collect_models (axioms : list Expr) (max_models : Z)
    (valuations : list Valuation) (models : list Valuation)
    : result (list Valuation) :=
  match valuations with
  | [] => Ok models
  | v :: rest =>
      ok <- all_eval axioms v;;
      if ok then
        let models' := models ++ [v] in
        if (Z.of_nat (length models') >=? max_models)%Z then Ok models'
        else collect_models axioms max_models rest models'
      else collect_models axioms max_models rest models
  end.

Definition is_satisfiable (axioms : list Expr) (max_models : Z)
    : result (bool * list Valuation) :=
  let vars_list := sorted (vars_union axioms) in
  models <- collect_models axioms max_models (all_valuations vars_list) [];;
  Ok (Nat.ltb 0 (length models), models).

(** [all(a.eval(v) for a in axioms) and not proposition.eval(v)] *)
Definition refutes (axioms : list Expr) (proposition : Expr) (v : Valuation)
    : result bool :=
  ok <- all_eval axioms v;;
  if ok then lift negb (eval proposition v) else Ok false.

(** The second loop of [entails]. *)
Fixpoint entails_loop (axioms : list Expr) (proposition : Expr)
    (valuations : list Valuation) : result bool :=
  match valuations with
  | [] => Ok true
  | v :: rest =>
      c <- refutes axioms proposition v;;
      if c then Ok false else entails_loop axioms proposition rest
  end.

Definition entails (axioms : list Expr) (proposition : Expr) : result bool :=
  sm <- is_satisfiable axioms 1000000;;
  if negb sm.1 then Ok true
  else
    let vars_list := sorted (vars_union (axioms ++ [proposition])) in
    entails_loop axioms proposition (all_valuations vars_list).

Fixpoint contradiction_loop (expr : Expr) (valuations : list Valuation)
    : result bool :=
  match valuations with
  | [] => Ok true
  | v :: rest =>
      b <- eval expr v;;
      if b then Ok false else contradiction_loop expr rest
  end.

Definition is_contradiction (expr : Expr) : result bool :=
  contradiction_loop expr (all_valuations (sorted (vars expr))).

Fixpoint tautology_loop (expr : Expr) (valuations : list Valuation)
    : result bool :=
  match valuations with
  | [] => Ok true
  | v :: rest =>
      b <- eval expr v;;
      if negb b then Ok false else tautology_loop expr rest
  end.

Definition is_tautology (expr : Expr) : result bool :=
  tautology_loop expr (all_valuations (sorted (vars expr))).

Fixpoint counterexample_loop (axioms : list Expr) (proposition : Expr)
    (valuations : list Valuation) : result (option Valuation) :=
  match valuations with
  | [] => Ok None
  | v :: rest =>
      c <- refutes axioms proposition v;;
      if c then Ok (Some v) else counterexample_loop axioms proposition rest
  end.

Definition find_counterexample (axioms : list Expr) (proposition : Expr)
    : result (option Valuation) :=
  let vars_list := sorted (vars_union (axioms ++ [proposition])) in
  counterexample_loop axioms proposition (all_valuations vars_list).

(** ** Lexer *)

(** Source text is a Rocq [string], one [ascii] per code point (code points
    0 to 255).  [\s] in a Python 3 [str] pattern is Unicode white space; in
    this range that is 9-13, 28-32, 133 and 160. *)
Definition is_space (c : ascii) : bool :=
  let n := N_of_ascii c in
  ((9 <=? n) && (n <=? 13) || (28 <=? n) && (n <=? 32)
   || (n =? 133) || (n =? 160))%N.

(** [[A-Za-z_]] *)
Definition is_ident_start (c : ascii) : bool :=
  let n := N_of_ascii c in
  ((65 <=? n) && (n <=? 90) || (97 <=? n) && (n <=? 122) || (n =? 95))%N.

(** [[A-Za-z0-9_]] *)
Definition is_ident_char (c : ascii) : bool :=
  let n := N_of_ascii c in
  (is_ident_start c || (48 <=? n) && (n <=? 57))%N.

(** [[()~&|]] *)
Definition is_punct (c : ascii) : bool :=
  (Ascii.eqb c "(" || Ascii.eqb c ")" || Ascii.eqb c "~"
   || Ascii.eqb c "&" || Ascii.eqb c "|")%char.

(** The greedy [\s*]. *)
Fixpoint skip_space (s : string) : string :=
  match s with
  | String c r => if is_space c then skip_space r else s
  | EmptyString => EmptyString
  end.

(** The greedy [[A-Za-z0-9_]*]: the longest run and what follows it. *)
Fixpoint ident_run (s : string) : string * string :=
  match s with
  | String c r =>
      if is_ident_char c then
        let '(run, rest) := ident_run r in (String c run, rest)
      else (EmptyString, s)
  | EmptyString => (EmptyString, EmptyString)
  end.

Fixpoint string_drop (n : nat) (s : string) : string :=
  match n, s with
  | S k, String _ r => string_drop k r
  | _, _ => s
  end.

(** The literal [p] matches at the start of [s]. *)
Fixpoint starts_with (p s : string) : bool :=
  match p, s with
  | EmptyString, _ => true
  | String a p', String b s' => Ascii.eqb a b && starts_with p' s'
  | String _ _, EmptyString => false
  end.

(** The group [(<->|->|[()~&|]|[A-Za-z_][A-Za-z0-9_]*|\S)] matched at the
    start of [s]: alternatives are tried in order; the result is the token
    and the text after it. *)
Definition match_token (s : string) : option (string * string) :=
  if starts_with "<->" s then Some ("<->", string_drop 3 s)
  else if starts_with "->" s then Some ("->", string_drop 2 s)
  else
    match s with
    | String c r =>
        if is_punct c then Some (String c EmptyString, r)
        else if is_ident_start c then
          let '(run, rest) := ident_run r in Some (String c run, rest)
        else if negb (is_space c) then Some (String c EmptyString, r)
        else None
    | EmptyString => None
    end.

(** [_TOKEN_RE.findall(s)]: successive matches of [\s*(...)]; once only
    white space is left no later position matches either. *)
Fixpoint findall (fuel : nat) (s : string) : list string :=
  match fuel with
  | O => []
  | S n =>
      match match_token (skip_space s) with
      | Some (t, rest) => t :: findall n rest
      | None => []
      end
  end.

Definition tokenize (s : string) : list string :=
  let tokens := findall (S (String.length s)) s in
  match tokens with
  | [] => []
  | _ => tokens
  end.

(** ** Parser *)

Record Parser : Type := mkParser { tokens : list string; pos : nat }.

(** What a parsing method produces: a value, a raised exception, or
    [Exhausted] when the recursion bound of the model is used up. *)
Inductive outcome (A : Type) : Type :=
  | Done (x : A)
  | Fail (e : Exception)
  | Exhausted.
Arguments Done {A} x.
Arguments Fail {A} e.
Arguments Exhausted {A}.

(** Methods of [Parser] read and update [self]. *)
Definition M (A : Type) : Type := Parser -> outcome (A * Parser).

Definition ret {A : Type} (x : A) : M A := fun self => Done (x, self).

Definition raise {A : Type} (e : Exception) : M A := fun _ => Fail e.

Definition exhausted {A : Type} : M A := fun _ => Exhausted.

Definition and_then {A B : Type} (m : M A) (f : A -> M B) : M B := fun self =>
  match m self with
  | Done (x, self') => f x self'
  | Fail e => Fail e
  | Exhausted => Exhausted
  end.

Notation "x <~ m ;; k" := (and_then m (fun x => k))
  (at level 100, m at next level, right associativity).

Definition peek : M (option string) := fun self =>
  Done (tokens self !! pos self, self).

Definition pop : M (option string) := fun self =>
  match tokens self !! pos self with
  | Some t => Done (Some t, mkParser (tokens self) (pos self + 1))
  | None => Done (None, self)
  end.

(** [self.peek() == tok] *)
Definition is_tok (t : option string) (tok : string) : bool :=
  match t with
  | Some x => String.eqb x tok
  | None => false
  end.

(** [re.match(r'[A-Za-z_][A-Za-z0-9_]*', t)] succeeds when [t] starts with
    an identifier character. *)
Definition ident_match (t : string) : bool :=
  match t with
  | String c _ => is_ident_start c
  | EmptyString => false
  end.

Fixpoint parse_iff (fuel : nat) : M Expr :=
  match fuel with
  | O => exhausted
  | S n => left <~ parse_imp n;; iff_loop n left
  end
with iff_loop (fuel : nat) (left : Expr) : M Expr :=
  match fuel with
  | O => exhausted
  | S n =>
      t <~ peek;;
      if is_tok t "<->" then
        _ <~ pop;;
        right <~ parse_imp n;;
        iff_loop n (Iff left right)
      else ret left
  end
with parse_imp (fuel : nat) : M Expr :=
  match fuel with
  | O => exhausted
  | S n =>
      left <~ parse_or n;;
      t <~ peek;;
      if is_tok t "->" then
        _ <~ pop;;
        right <~ parse_imp n;;
        ret (Implies left right)
      else ret left
  end
with parse_or (fuel : nat) : M Expr :=
  match fuel with
  | O => exhausted
  | S n => left <~ parse_and n;; or_loop n left
  end
with or_loop (fuel : nat) (left : Expr) : M Expr :=
  match fuel with
  | O => exhausted
  | S n =>
      t <~ peek;;
      if is_tok t "|" then
        _ <~ pop;;
        right <~ parse_and n;;
        or_loop n (Or left right)
      else ret left
  end
with parse_and (fuel : nat) : M Expr :=
  match fuel with
  | O => exhausted
  | S n => left <~ parse_not n;; and_loop n left
  end
with and_loop (fuel : nat) (left : Expr) : M Expr :=
  match fuel with
  | O => exhausted
  | S n =>
      t <~ peek;;
      if is_tok t "&" then
        _ <~ pop;;
        right <~ parse_not n;;
        and_loop n (And left right)
      else ret left
  end
with parse_not (fuel : nat) : M Expr :=
  match fuel with
  | O => exhausted
  | S n =>
      t <~ peek;;
      if is_tok t "~" then
        _ <~ pop;;
        child <~ parse_not n;;
        ret (Not child)
      else parse_atom n
  end
with parse_atom (fuel : nat) : M Expr :=
  match fuel with
  | O => exhausted
  | S n =>
      t <~ peek;;
      match t with
      | None => raise (ParserError "Unexpected end of input")
      | Some t =>
          if String.eqb t "(" then
            _ <~ pop;;
            e <~ parse_iff n;;
            t' <~ pop;;
            if negb (is_tok t' ")") then raise (ParserError "Expected ')'")
            else ret e
          else if ident_match t then
            _ <~ pop;;
            ret (Var t)
          else raise (ParserError ("Unexpected token " +:+ t))
      end
  end.

(** [Parser.parse]; the recursion bound grows with the number of tokens
    and is never reached (see [Parser_parse_not_exhausted]). *)
Definition Parser_parse : M Expr :=
  fun self =>
    (expr <~ parse_iff (8 * length (tokens self) + 7);;
     t <~ peek;;
     match t with
     | Some t => raise (ParserError ("Unexpected token " +:+ t))
     | None => ret expr
     end) self.

Definition parse (s : string) : outcome Expr :=
  let tokens := tokenize s in
  match tokens with
  | [] => Fail (ParserError "Expression vide")
  | _ =>
      match Parser_parse (mkParser tokens 0) with
      | Done (e, _) => Done e
      | Fail e => Fail e
      | Exhausted => Exhausted
      end
  end.

(** [parse_all]: the list comprehension parses the strings in order and
    stops at the first one that raises. *)
Fixpoint parse_all (strs : list string) : outcome (list Expr) :=
  match strs with
  | [] => Done []
  | s :: rest =>
      match parse s with
      | Done e =>
          match parse_all rest with
          | Done es => Done (e :: es)
          | Fail x => Fail x
          | Exhausted => Exhausted
          end
      | Fail x => Fail x
      | Exhausted => Exhausted
      end
  end.

(** ** Rendering *)

(** [__repr__]: the fully parenthesised infix form. *)
Fixpoint repr (e : Expr) : string :=
  match e with
  | Var name => name
  | Not child => "(~" +:+ repr child +:+ ")"
  | And l r => "(" +:+ repr l +:+ " & " +:+ repr r +:+ ")"
  | Or l r => "(" +:+ repr l +:+ " | " +:+ repr r +:+ ")"
  | Implies l r => "(" +:+ repr l +:+ " -> " +:+ repr r +:+ ")"
  | Iff l r => "(" +:+ repr l +:+ " <-> " +:+ repr r +:+ ")"
  end.

(** ** Vocabulary of the properties *)

#[global] Instance Exception_eq_dec : EqDecision Exception.
Proof. solve_decision. Defined.

#[global] Instance result_eq_dec {A : Type} `{EqDecision A} :
  EqDecision (result A).
Proof. solve_decision. Defined.

(** A valuation is total over a set of names when it binds each of them. *)
Definition total_on (X : gset string) (v : Valuation) : Prop :=
  forall x, x ∈ X -> is_Some (v !! x).

Definition agree_on (X : gset string) (v1 v2 : Valuation) : Prop :=
  forall x, x ∈ X -> v1 !! x = v2 !! x.

(** Cutting a valuation down to a smaller key set. *)
Definition restrict (X : gset string) (v : Valuation) : Valuation :=
  filter (fun kv => kv.1 ∈ X) v.

(** [v] satisfies the axioms: [all(a.eval(v) for a in axioms)] is [True]. *)
Definition satisfies (axioms : list Expr) (v : Valuation) : Prop :=
  all_eval axioms v = Ok true.

#[global] Instance satisfies_dec (axioms : list Expr) (v : Valuation) :
  Decision (satisfies axioms v).
Proof. unfold satisfies. apply _. Defined.

(** [v] satisfies every axiom and falsifies the proposition. *)
Definition counterexample (axioms : list Expr) (proposition : Expr)
    (v : Valuation) : Prop :=
  all_eval axioms v = Ok true /\ eval proposition v = Ok false.

#[global] Instance counterexample_dec (axioms : list Expr)
    (proposition : Expr) (v : Valuation) :
  Decision (counterexample axioms proposition v).
Proof. unfold counterexample. apply _. Defined.

(** The number of models after which [is_satisfiable] leaves its loop: the
    bound is compared with [len(models)] only after an append. *)
Definition cap (max_models : Z) : nat := Z.to_nat (Z.max 1 max_models).

(** The first [n] valuations of the enumeration over the axioms' variables
    that satisfy the axioms. *)
Definition first_models (axioms : list Expr) (n : nat) : list Valuation :=
  take n (filter (satisfies axioms)
            (all_valuations (sorted (vars_union axioms)))).

(** The [n] binary digits of [i], most significant first. *)
Definition binary (n i : nat) : list bool :=
  (fun j => Nat.testbit i (n - 1 - j)) <$> seq 0 n.

(** Text made of white space only (the empty text included). *)
Fixpoint whitespace_only (s : string) : bool :=
  match s with
  | String c r => is_space c && whitespace_only r
  | EmptyString => true
  end.

Fixpoint all_ident_chars (s : string) : bool :=
  match s with
  | String c r => is_ident_char c && all_ident_chars r
  | EmptyString => true
  end.

(** An identifier: the whole of [s] matches [[A-Za-z_][A-Za-z0-9_]*]. *)
Definition is_identifier (s : string) : bool :=
  match s with
  | String c r => is_ident_start c && all_ident_chars r
  | EmptyString => false
  end.

(** [n] times the character [~]. *)
Fixpoint tildes (n : nat) : string :=
  match n with
  | O => EmptyString
  | S k => String "~" (tildes k)
  end.

(** The parsing methods under one name, for statements about all of them:
    the six grammar rules and the three [while] loops with the [left]
    operand built so far. *)
Inductive entry : Type :=
  | EIff
  | EIffLoop (left : Expr)
  | EImp
  | EOr
  | EOrLoop (left : Expr)
  | EAnd
  | EAndLoop (left : Expr)
  | ENot
  | EAtom.

Definition run (k : entry) (fuel : nat) : M Expr :=
  match k with
  | EIff => parse_iff fuel
  | EIffLoop l => iff_loop fuel l
  | EImp => parse_imp fuel
  | EOr => parse_or fuel
  | EOrLoop l => or_loop fuel l
  | EAnd => parse_and fuel
  | EAndLoop l => and_loop fuel l
  | ENot => parse_not fuel
  | EAtom => parse_atom fuel
  end.

Definition is_loop (k : entry) : bool :=
  match k with
  | EIffLoop _ | EOrLoop _ | EAndLoop _ => true
  | _ => false
  end.

(** Nesting of the rules below one another, for the recursion bound. *)
Definition rank (k : entry) : nat :=
  match k with
  | EIff => 6
  | EImp => 5
  | EOr => 4
  | EAnd => 3
  | ENot => 2
  | EAtom => 1
  | EIffLoop _ | EOrLoop _ | EAndLoop _ => 1
  end.

(** The same parser state seen behind a prefix of further tokens. *)
Definition shift_parser (pre : list string) (self : Parser) : Parser :=
  mkParser (pre ++ tokens self) (length pre + pos self).

Definition shift_outcome {A : Type} (pre : list string)
    (o : outcome (A * Parser)) : outcome (A * Parser) :=
  match o with
  | Done (x, self) => Done (x, shift_parser pre self)
  | Fail e => Fail e
  | Exhausted => Exhausted
  end.

(** A method behaves the same behind a prefix of further tokens. *)
Definition commutes {A : Type} (pre : list string) (m : M A) : Prop :=
  forall self, m (shift_parser pre self) = shift_outcome pre (m self).

(** Nesting depth after reading the tokens [ts] from depth [d]: [(] opens a
    level, [)] closes the innermost open one (a [)] with nothing open is
    passed over). *)
Fixpoint open_depth (d : nat) (ts : list string) : nat :=
  match ts with
  | [] => d
  | t :: rest =>
      if String.eqb t "(" then open_depth (S d) rest
      else if String.eqb t ")" then open_depth (Nat.pred d) rest
      else open_depth d rest
  end.

(** Reading the tokens from position [p] or from position [q] ends at the
    same depth, whatever the depth at the start. *)
Definition same_depth (ts : list string) (p q : nat) : Prop :=
  forall d, open_depth d (drop p ts) = open_depth d (drop q ts).

(** Some [(] of the token sequence has no matching [)]. *)
Definition unmatched_open (ts : list string) : bool :=
  Nat.ltb 0 (open_depth 0 ts).

(** A valuation completed with [False] for the names of [X] it lacks. *)
Definition extend (X : gset string) (v : Valuation) : Valuation :=
  v ∪ gset_to_gmap false X.

(** Every variable name of the expression is an identifier. *)
Fixpoint well_named (e : Expr) : bool :=
  match e with
  | Var name => is_identifier name
  | Not child => well_named child
  | And l r | Or l r | Implies l r | Iff l r => well_named l && well_named r
  end.

(** The tokens of the rendering of an expression. *)
Fixpoint tokens_of (e : Expr) : list string :=
  match e with
  | Var name => [name]
  | Not child => ["("; "~"] ++ tokens_of child ++ [")"]
  | And l r => ["("] ++ tokens_of l ++ ["&"] ++ tokens_of r ++ [")"]
  | Or l r => ["("] ++ tokens_of l ++ ["|"] ++ tokens_of r ++ [")"]
  | Implies l r => ["("] ++ tokens_of l ++ ["->"] ++ tokens_of r ++ [")"]
  | Iff l r => ["("] ++ tokens_of l ++ ["<->"] ++ tokens_of r ++ [")"]
  end.

(** The text without its white space. *)
Fixpoint remove_space (s : string) : string :=
  match s with
  | String c r =>
      if is_space c then remove_space r else String c (remove_space r)
  | EmptyString => EmptyString
  end.

(** Where a token may end: at the end of the text or before a character
    that cannot continue an identifier. *)
Definition token_boundary (rest : string) : Prop :=
  match rest with
  | String c _ => is_ident_char c = false
  | EmptyString => True
  end.

(** What must hold of the token [t] after an operand for the rule [k] to
    stop there. *)
Definition stops (k : entry) (t : option string) : Prop :=
  match k with
  | EAnd => is_tok t "&" = false
  | EOr => is_tok t "&" = false /\ is_tok t "|" = false
  | EImp => is_tok t "&" = false /\ is_tok t "|" = false
            /\ is_tok t "->" = false
  | EIff => is_tok t "&" = false /\ is_tok t "|" = false
            /\ is_tok t "->" = false /\ is_tok t "<->" = false
  | _ => True
  end.

(** With recursion depth [n0] or more, the rule [k] reads the tokens of
    [e] wherever they stand and returns [e]. *)
Definition parses_at (k : entry) (e : Expr) (n0 : nat) : Prop :=
  forall (n : nat) (ts : list string) (p : nat) (rest : list string),
    n0 <= n -> drop p ts = tokens_of e ++ rest ->
    stops k (head rest) ->
    run k n (mkParser ts p)
    = Done (e, mkParser ts (p + length (tokens_of e))).

(** The operand a loop starts from is well named. *)
Definition entry_named (k : entry) : Prop :=
  match k with
  | EIffLoop l | EOrLoop l | EAndLoop l => well_named l = true
  | _ => True
  end.

(** Every token that starts like an identifier is an identifier. *)
Definition identifier_tokens (ts : list string) : Prop :=
  forall t, t ∈ ts -> ident_match t = true -> is_identifier t = true.

(** [''.join(ts)] *)
Definition join (ts : list string) : string :=
  foldr String.append EmptyString ts.

(** The parentheses of the tokens [ts], read from depth [d], are balanced:
    every [)] closes a [(] that is open, and none is left open. *)
Fixpoint balanced_from (d : nat) (ts : list string) : bool :=
  match ts with
  | [] => Nat.eqb d 0
  | t :: rest =>
      if String.eqb t "(" then balanced_from (S d) rest
      else if String.eqb t ")" then
        match d with
        | O => false
        | S d' => balanced_from d' rest
        end
      else balanced_from d rest
  end.

(** Reading on from position [p] or from position [q] gives the same
    verdict, whatever the depth. *)
Definition same_balance (ts : list string) (p q : nat) : Prop :=
  forall d, balanced_from d (drop p ts) = balanced_from d (drop q ts).

(** The same parser state with further tokens after the ones it has. *)
Definition extend_tokens (suf : list string) (self : Parser) : Parser :=
  mkParser (tokens self ++ suf) (pos self).

(** The token [t] is none of the four binary operators. *)
Definition stopper (t : option string) : Prop :=
  is_tok t "&" = false /\ is_tok t "|" = false
  /\ is_tok t "->" = false /\ is_tok t "<->" = false.

(** [")" * n] *)
Fixpoint closers (n : nat) : string :=
  match n with
  | O => EmptyString
  | S k => String ")" (closers k)
  end.

(** No character of the text is white space. *)
Fixpoint no_space (s : string) : bool :=
  match s with
  | String c r => negb (is_space c) && no_space r
  | EmptyString => true
  end.

(** * Properties *)

(** ** Results *)

Lemma bind_Ok {A B : Type} (m : result A) (f : A -> result B) (y : B) :
  bind m f = Ok y <-> exists x, m = Ok x /\ f x = Ok y.
Proof.
  destruct m as [x|e]; simpl.
  - split; [eauto | intros (x' & [= <-] & H); exact H].
  - split; [discriminate | intros (x' & [=] & _)].
Qed.

Lemma lift_Ok {A B : Type} (f : A -> B) (m : result A) (y : B) :
  lift f m = Ok y <-> exists x, m = Ok x /\ y = f x.
Proof.
  unfold lift. rewrite bind_Ok.
  split; intros (x & Hx & H); exists x; split; congruence.
Qed.

(** ** Expression model *)

Section Evaluation.

Implicit Types (e : Expr) (v : Valuation).

Lemma agree_on_mono (X Y : gset string) v1 v2 :
  X ⊆ Y -> agree_on Y v1 v2 -> agree_on X v1 v2.
Proof. intros HXY H x Hx. apply H, HXY, Hx. Qed.

Lemma total_on_mono (X Y : gset string) v :
  X ⊆ Y -> total_on Y v -> total_on X v.
Proof. intros HXY H x Hx. apply H, HXY, Hx. Qed.

Lemma eval_agree e v1 v2 :
  agree_on (vars e) v1 v2 -> eval e v1 = eval e v2.
Proof.
  induction e as [name|c IH|l IHl r IHr|l IHl r IHr|l IHl r IHr|l IHl r IHr];
    simpl; intros H.
  - unfold getitem. rewrite (H name); [reflexivity | set_solver].
  - rewrite IH; auto.
  - rewrite IHl, IHr; [reflexivity | |];
      eapply agree_on_mono; eauto; set_solver.
  - rewrite IHl, IHr; [reflexivity | |];
      eapply agree_on_mono; eauto; set_solver.
  - rewrite IHl, IHr; [reflexivity | |];
      eapply agree_on_mono; eauto; set_solver.
  - rewrite IHl, IHr; [reflexivity | |];
      eapply agree_on_mono; eauto; set_solver.
Qed.

Lemma eval_total e v :
  total_on (vars e) v -> exists b, eval e v = Ok b.
Proof.
  induction e as [name|c IH|l IHl r IHr|l IHl r IHr|l IHl r IHr|l IHl r IHr];
    simpl; intros H.
  - destruct (H name) as [b Hb]; [set_solver|].
    exists b. unfold getitem. rewrite Hb. reflexivity.
  - destruct (IH H) as [b ->]. eexists; reflexivity.
  - destruct IHl as [bl ->]; [eapply total_on_mono; eauto; set_solver|].
    destruct IHr as [br ->]; [eapply total_on_mono; eauto; set_solver|].
    destruct bl; simpl; eauto.
  - destruct IHl as [bl ->]; [eapply total_on_mono; eauto; set_solver|].
    destruct IHr as [br ->]; [eapply total_on_mono; eauto; set_solver|].
    destruct bl; simpl; eauto.
  - destruct IHl as [bl ->]; [eapply total_on_mono; eauto; set_solver|].
    destruct IHr as [br ->]; [eapply total_on_mono; eauto; set_solver|].
    destruct bl; simpl; eauto.
  - destruct IHl as [bl ->]; [eapply total_on_mono; eauto; set_solver|].
    destruct IHr as [br ->]; [eapply total_on_mono; eauto; set_solver|].
    simpl; eauto.
Qed.

Lemma elem_of_vars_union (es : list Expr) x :
  x ∈ vars_union es <-> exists e, e ∈ es /\ x ∈ vars e.
Proof.
  unfold vars_union.
  assert (G : forall acc : gset string,
    x ∈ foldl (fun s a => s ∪ vars a) acc es
    <-> x ∈ acc \/ exists e, e ∈ es /\ x ∈ vars e).
  { induction es as [|a es IH]; intros acc; simpl.
    - split; [auto | intros [H|(e & He & _)]; [exact H | inversion He]].
    - rewrite IH, elem_of_union. split.
      + intros [[H|H]|(e & He & Hx)]; [auto | right | right].
        * exists a. split; [left | exact H].
        * exists e. split; [right; exact He | exact Hx].
      + intros [H|(e & He & Hx)]; [auto|].
        apply elem_of_cons in He as [->|He]; [auto|].
        right. exists e. auto. }
  rewrite G. split; [intros [H|H]; [set_solver | exact H] | auto].
Qed.

Lemma vars_subseteq_union (es : list Expr) e :
  e ∈ es -> vars e ⊆ vars_union es.
Proof. intros He x Hx. apply elem_of_vars_union. eauto. Qed.

Lemma vars_union_app (es1 es2 : list Expr) :
  vars_union (es1 ++ es2) = vars_union es1 ∪ vars_union es2.
Proof.
  apply set_eq. intros x.
  rewrite elem_of_union, !elem_of_vars_union.
  setoid_rewrite elem_of_app. naive_solver.
Qed.

Lemma vars_union_singleton e : vars_union [e] = vars e.
Proof. unfold vars_union. simpl. set_solver. Qed.

Lemma all_eval_agree (axioms : list Expr) v1 v2 :
  agree_on (vars_union axioms) v1 v2 ->
  all_eval axioms v1 = all_eval axioms v2.
Proof.
  intros H.
  assert (G : forall a, a ∈ axioms -> eval a v1 = eval a v2).
  { intros a Ha. apply eval_agree.
    eapply agree_on_mono; [apply vars_subseteq_union, Ha | exact H]. }
  clear H. induction axioms as [|a rest IH]; simpl; [reflexivity|].
  rewrite (G a) by left. rewrite IH; [reflexivity|].
  intros a' Ha'. apply G. right. exact Ha'.
Qed.

Lemma all_eval_total (axioms : list Expr) v :
  total_on (vars_union axioms) v -> exists b, all_eval axioms v = Ok b.
Proof.
  intros H.
  assert (G : forall a, a ∈ axioms -> exists b, eval a v = Ok b).
  { intros a Ha. apply eval_total.
    eapply total_on_mono; [apply vars_subseteq_union, Ha | exact H]. }
  clear H. induction axioms as [|a rest IH]; simpl; [eauto|].
  destruct (G a) as [b ->]; [left|]. simpl.
  destruct b; [|eauto].
  apply IH. intros a' Ha'. apply G. right. exact Ha'.
Qed.

(** [all] is true exactly when each axiom evaluates to true. *)
Lemma all_eval_true (axioms : list Expr) v :
  all_eval axioms v = Ok true <-> forall a, a ∈ axioms -> eval a v = Ok true.
Proof.
  induction axioms as [|a rest IH]; simpl.
  - split; [intros _ a Ha; inversion Ha | reflexivity].
  - rewrite bind_Ok. split.
    + intros (b & Hb & H). destruct b; [|discriminate].
      intros a' Ha'. apply elem_of_cons in Ha' as [->|Ha']; [exact Hb|].
      apply IH; assumption.
    + intros H. exists true. split; [apply H; left|].
      apply IH. intros a' Ha'. apply H. right. exact Ha'.
Qed.

End Evaluation.

(** ** Valuation enumerator *)

Section Enumeration.

Implicit Types (v : Valuation) (bits : list bool) (vs : list string).

Lemma elem_of_product bits (n : nat) :
  bits ∈ product [false; true] n <-> length bits = n.
Proof.
  revert bits. induction n as [|n IH]; intros bits; simpl.
  - rewrite list_elem_of_singleton. destruct bits; simpl; split; congruence.
  - rewrite !elem_of_app, !list_elem_of_fmap. split.
    + intros [(t & -> & Ht)|[(t & -> & Ht)|H]];
        [apply IH in Ht; simpl; congruence ..| inversion H].
    + destruct bits as [|b t]; simpl; [discriminate|]. intros [= Hn].
      apply IH in Hn. destruct b; [right; left | left]; eauto.
Qed.

Lemma length_product (n : nat) : length (product [false; true] n) = 2 ^ n.
Proof.
  induction n as [|n IH]; simpl; [reflexivity|].
  rewrite !length_app, !length_fmap, IH. simpl. lia.
Qed.

(** Reading a dictionary built from keys and values of equal length. *)
Lemma dict_zip_fmap (f : string -> bool) vs (k : string) :
  dict (zip vs (f <$> vs)) !! k
  = if decide (k ∈ vs) then Some (f k) else None.
Proof.
  unfold dict.
  assert (G : forall d : Valuation,
    foldl (fun d kv => <[kv.1:=kv.2]> d) d (zip vs (f <$> vs)) !! k
    = if decide (k ∈ vs) then Some (f k) else d !! k).
  { induction vs as [|x vs IH]; intros d; simpl.
    - destruct (decide (k ∈ [])) as [H|_]; [inversion H | reflexivity].
    - rewrite IH.
      destruct (decide (k ∈ vs)) as [Hin|Hnin].
      + rewrite decide_True by (right; exact Hin). reflexivity.
      + destruct (decide (x = k)) as [->|Hne].
        * rewrite decide_True by left. apply lookup_insert_eq.
        * rewrite decide_False.
          -- apply lookup_insert_ne. exact Hne.
          -- intros H. apply elem_of_cons in H as [->|H]; auto. }
  rewrite G, lookup_empty. reflexivity.
Qed.

Lemma dom_dict_zip vs bits :
  length bits = length vs ->
  dom (dict (zip vs bits)) = list_to_set vs.
Proof.
  unfold dict.
  assert (G : forall d : Valuation, length bits = length vs ->
    dom (foldl (fun d kv => <[kv.1:=kv.2]> d) d (zip vs bits))
    = dom d ∪ list_to_set vs).
  { revert bits. induction vs as [|x vs IH]; intros bits d Hlen.
    - simpl. set_solver.
    - destruct bits as [|b bits]; [discriminate|]. simpl in *.
      rewrite IH by congruence. rewrite dom_insert_L. set_solver. }
  intros Hlen. rewrite G by exact Hlen. rewrite dom_empty_L. set_solver.
Qed.

(** The enumeration yields exactly the dictionaries whose key set is the
    set of listed names. *)
Lemma elem_of_all_valuations vs v :
  v ∈ all_valuations vs <-> dom v = list_to_set vs.
Proof.
  unfold all_valuations. rewrite list_elem_of_fmap. split.
  - intros (bits & -> & Hbits). apply elem_of_product in Hbits.
    apply dom_dict_zip, Hbits.
  - intros Hdom.
    exists ((fun x => default false (v !! x)) <$> vs). split.
    + apply map_eq. intros k. rewrite dict_zip_fmap.
      destruct (decide (k ∈ vs)) as [Hin|Hnin].
      * assert (Hk : k ∈ dom v) by (rewrite Hdom; set_solver).
        apply elem_of_dom in Hk as [b Hb]. rewrite Hb. reflexivity.
      * assert (Hk : k ∉ dom v) by (rewrite Hdom; set_solver).
        apply not_elem_of_dom in Hk. exact Hk.
    + apply elem_of_product. apply length_fmap.
Qed.

Lemma elem_of_insort (x y : string) (l : list string) :
  y ∈ insort x l <-> y = x \/ y ∈ l.
Proof.
  induction l as [|z l IH]; simpl.
  - set_solver.
  - destruct (String.leb x z); [set_solver|].
    rewrite !elem_of_cons, IH. tauto.
Qed.

Lemma elem_of_sorted (X : gset string) (x : string) :
  x ∈ sorted X <-> x ∈ X.
Proof.
  unfold sorted. rewrite <- (elem_of_elements X).
  induction (elements X) as [|y l IH]; simpl; [reflexivity|].
  rewrite elem_of_insort, IH, elem_of_cons. reflexivity.
Qed.

Lemma list_to_set_sorted (X : gset string) :
  list_to_set (sorted X) = X.
Proof.
  apply set_eq. intros x. rewrite elem_of_list_to_set. apply elem_of_sorted.
Qed.

Lemma elem_of_enumeration (X : gset string) v :
  v ∈ all_valuations (sorted X) <-> dom v = X.
Proof. rewrite elem_of_all_valuations, list_to_set_sorted. reflexivity. Qed.

Lemma total_on_dom (X : gset string) v : dom v = X -> total_on X v.
Proof. intros <- x Hx. apply elem_of_dom. exact Hx. Qed.

Lemma restrict_lookup (X : gset string) v (x : string) :
  x ∈ X -> restrict X v !! x = v !! x.
Proof.
  intros Hx. unfold restrict.
  destruct (v !! x) as [b|] eqn:Hv.
  - apply map_lookup_filter_Some. auto.
  - apply map_lookup_filter_None. left. exact Hv.
Qed.

Lemma dom_restrict (X : gset string) v :
  X ⊆ dom v -> dom (restrict X v) = X.
Proof.
  intros Hsub. apply set_eq. intros x. rewrite elem_of_dom. split.
  - intros [b Hb]. apply map_lookup_filter_Some in Hb as [_ Hx]. exact Hx.
  - intros Hx. rewrite restrict_lookup by exact Hx.
    apply elem_of_dom, Hsub, Hx.
Qed.

End Enumeration.

(** ** Loops of the decision procedures *)

Section Loops.

Variables (axioms : list Expr) (proposition : Expr).
Implicit Types (v : Valuation) (vals : list Valuation).

Lemma refutes_true v :
  refutes axioms proposition v = Ok true
  <-> counterexample axioms proposition v.
Proof.
  unfold refutes, counterexample. rewrite bind_Ok. split.
  - intros (ok & Hok & H). destruct ok; [|discriminate].
    apply lift_Ok in H as (b & Hb & Hn). destruct b; [discriminate|auto].
  - intros [Ha Hp]. exists true. split; [exact Ha|].
    rewrite Hp. reflexivity.
Qed.

Lemma refutes_total v :
  total_on (vars_union (axioms ++ [proposition])) v ->
  exists b, refutes axioms proposition v = Ok b.
Proof.
  intros H. rewrite vars_union_app, vars_union_singleton in H.
  unfold refutes.
  destruct (all_eval_total axioms v) as [ok ->];
    [eapply total_on_mono; eauto; set_solver|].
  simpl. destruct ok; [|eauto].
  destruct (eval_total proposition v) as [b ->];
    [eapply total_on_mono; eauto; set_solver|].
  simpl. eauto.
Qed.

(** [entails]' second loop is the counterexample search with its result
    turned into a boolean. *)
Lemma entails_loop_counterexample_loop vals :
  entails_loop axioms proposition vals
  = lift (fun r => match r with None => true | Some _ => false end)
      (counterexample_loop axioms proposition vals).
Proof.
  induction vals as [|v rest IH]; simpl; [reflexivity|].
  destruct (refutes axioms proposition v) as [[|]|e]; simpl;
    [reflexivity | exact IH | reflexivity].
Qed.

Lemma counterexample_loop_None vals :
  (forall v, v ∈ vals -> exists b, refutes axioms proposition v = Ok b) ->
  counterexample_loop axioms proposition vals = Ok None
  <-> forall v, v ∈ vals -> ~ counterexample axioms proposition v.
Proof.
  induction vals as [|v rest IH]; intros Htot; simpl.
  - split; [intros _ v Hv; inversion Hv | reflexivity].
  - destruct (Htot v) as [b Hb]; [left|]. rewrite Hb. simpl.
    destruct b.
    + split; [discriminate|]. intros H. exfalso.
      apply (H v); [left | apply refutes_true, Hb].
    + rewrite IH by (intros w Hw; apply Htot; right; exact Hw). split.
      * intros H w Hw. apply elem_of_cons in Hw as [->|Hw]; [|auto].
        rewrite <- refutes_true, Hb. discriminate.
      * intros H w Hw. apply H. right. exact Hw.
Qed.

(** The search returns the first element of the sequence that is a
    counterexample. *)
Lemma counterexample_loop_first vals :
  (forall v, v ∈ vals -> exists b, refutes axioms proposition v = Ok b) ->
  counterexample_loop axioms proposition vals
  = Ok (snd <$> list_find (counterexample axioms proposition) vals).
Proof.
  induction vals as [|v rest IH]; intros Htot; simpl; [reflexivity|].
  destruct (Htot v) as [b Hb]; [left|]. rewrite Hb. simpl.
  destruct b.
  - rewrite decide_True by (apply refutes_true, Hb). reflexivity.
  - rewrite decide_False
      by (rewrite <- refutes_true, Hb; discriminate).
    rewrite IH by (intros w Hw; apply Htot; right; exact Hw).
    destruct (list_find _ rest) as [[i w]|]; reflexivity.
Qed.

Lemma collect_models_spec (max_models : Z) vals (models : list Valuation) :
  (forall v, v ∈ vals -> exists b, all_eval axioms v = Ok b) ->
  length models < cap max_models ->
  collect_models axioms max_models vals models
  = Ok (models ++ take (cap max_models - length models)
                       (filter (satisfies axioms) vals)).
Proof.
  unfold cap. revert models.
  induction vals as [|v rest IH]; intros models Htot Hlen; simpl.
  - rewrite filter_nil, take_nil, app_nil_r. reflexivity.
  - destruct (Htot v) as [b Hb]; [left|]. rewrite Hb. simpl.
    assert (Hrest : forall w, w ∈ rest -> exists b, all_eval axioms w = Ok b)
      by (intros w Hw; apply Htot; right; exact Hw).
    destruct b.
    + rewrite filter_cons_True by exact Hb.
      rewrite length_app. simpl.
      destruct (Z.geb_spec (Z.of_nat (length models + 1)) max_models)
        as [Hge|Hlt].
      * replace (Z.to_nat (Z.max 1 max_models) - length models) with 1
          by lia.
        reflexivity.
      * rewrite IH by (auto; rewrite length_app; simpl; lia).
        rewrite length_app. simpl.
        replace (Z.to_nat (Z.max 1 max_models) - length models)
          with (S (Z.to_nat (Z.max 1 max_models) - (length models + 1)))
          by lia.
        simpl. rewrite <- app_assoc. reflexivity.
    + rewrite filter_cons_False
        by (unfold satisfies; rewrite Hb; discriminate).
      apply IH; assumption.
Qed.

(** Once the bound is reached the rest of the sequence is not looked at:
    whatever follows, the result is the same. *)
Lemma collect_models_break (max_models : Z) vals rest rest'
    (models : list Valuation) :
  (forall v, v ∈ vals -> exists b, all_eval axioms v = Ok b) ->
  length models < cap max_models ->
  cap max_models <= length models + length (filter (satisfies axioms) vals) ->
  collect_models axioms max_models (vals ++ rest) models
  = collect_models axioms max_models (vals ++ rest') models.
Proof.
  unfold cap. revert models.
  induction vals as [|v tl IH]; intros models Htot Hlen Hcap; simpl.
  - simpl in Hcap. lia.
  - destruct (Htot v) as [b Hb]; [left|]. rewrite Hb. simpl.
    assert (Htl : forall w, w ∈ tl -> exists b, all_eval axioms w = Ok b)
      by (intros w Hw; apply Htot; right; exact Hw).
    destruct b.
    + rewrite filter_cons_True in Hcap by exact Hb. simpl in Hcap.
      rewrite length_app. simpl.
      destruct (Z.geb_spec (Z.of_nat (length models + 1)) max_models)
        as [Hge|Hlt]; [reflexivity|].
      apply IH; [exact Htl | |]; rewrite length_app; simpl; lia.
    + rewrite filter_cons_False in Hcap
        by (unfold satisfies; rewrite Hb; discriminate).
      apply IH; assumption.
Qed.

Lemma tautology_contradiction_loop (e : Expr) vals :
  tautology_loop e vals = contradiction_loop (Not e) vals.
Proof.
  induction vals as [|v rest IH]; simpl; [reflexivity|].
  unfold lift. destruct (eval e v) as [[|]|x]; simpl; auto.
Qed.

Lemma tautology_loop_spec (e : Expr) vals :
  (forall v, v ∈ vals -> exists b, eval e v = Ok b) ->
  (exists b, tautology_loop e vals = Ok b)
  /\ (tautology_loop e vals = Ok true
      <-> forall v, v ∈ vals -> eval e v = Ok true).
Proof.
  induction vals as [|v rest IH]; intros Htot; simpl.
  - split; [eauto|]. split; [intros _ v Hv; inversion Hv | reflexivity].
  - destruct (Htot v) as [b Hb]; [left|]. rewrite Hb. simpl.
    destruct IH as [IH1 IH2];
      [intros w Hw; apply Htot; right; exact Hw|].
    destruct b; simpl.
    + split; [exact IH1|]. rewrite IH2. split.
      * intros H w Hw. apply elem_of_cons in Hw as [->|Hw]; auto.
      * intros H w Hw. apply H. right. exact Hw.
    + split; [eauto|]. split; [discriminate|].
      intros H. rewrite (H v) in Hb by left. discriminate.
Qed.

End Loops.

(** ** Order of the variables and of the enumeration *)

Section Order.

Lemma ascii_compare_N (a b : ascii) :
  Ascii.compare a b = (N_of_ascii a ?= N_of_ascii b)%N.
Proof. reflexivity. Qed.

Lemma string_compare_lt_trans (s1 s2 s3 : string) :
  String.compare s1 s2 = Lt -> String.compare s2 s3 = Lt ->
  String.compare s1 s3 = Lt.
Proof.
  revert s2 s3. induction s1 as [|a s1 IH]; intros [|b s2] [|c s3]; simpl;
    try congruence.
  rewrite !ascii_compare_N.
  destruct (N.compare_spec (N_of_ascii a) (N_of_ascii b)) as [Hab|Hab|Hab];
    destruct (N.compare_spec (N_of_ascii b) (N_of_ascii c)) as [Hbc|Hbc|Hbc];
    destruct (N.compare_spec (N_of_ascii a) (N_of_ascii c)) as [Hac|Hac|Hac];
    try congruence; try lia.
  apply IH.
Qed.

Lemma string_leb_trans (s1 s2 s3 : string) :
  String.leb s1 s2 = true -> String.leb s2 s3 = true ->
  String.leb s1 s3 = true.
Proof.
  unfold String.leb.
  destruct (String.compare s1 s2) eqn:H12; [|  |discriminate];
    destruct (String.compare s2 s3) eqn:H23; try discriminate; intros _ _.
  - apply String.compare_eq_iff in H12 as ->. rewrite H23. reflexivity.
  - apply String.compare_eq_iff in H12 as ->. rewrite H23. reflexivity.
  - apply String.compare_eq_iff in H23 as <-. rewrite H12. reflexivity.
  - rewrite (string_compare_lt_trans _ _ _ H12 H23). reflexivity.
Qed.

Lemma insort_Permutation (x : string) (l : list string) :
  insort x l ≡ₚ x :: l.
Proof.
  induction l as [|y l IH]; simpl; [reflexivity|].
  destruct (String.leb x y); [reflexivity|].
  rewrite IH. apply perm_swap.
Qed.

Lemma sorted_Permutation (X : gset string) : sorted X ≡ₚ elements X.
Proof.
  unfold sorted. induction (elements X) as [|y l IH]; simpl; [reflexivity|].
  rewrite insort_Permutation, IH. reflexivity.
Qed.

Lemma NoDup_sorted (X : gset string) : NoDup (sorted X).
Proof. rewrite sorted_Permutation. apply NoDup_elements. Qed.

Lemma insort_StronglySorted (x : string) (l : list string) :
  StronglySorted (fun a b => String.leb a b = true) l ->
  StronglySorted (fun a b => String.leb a b = true) (insort x l).
Proof.
  induction 1 as [|y l Hl IH Hy]; simpl.
  - constructor; constructor.
  - destruct (String.leb x y) eqn:Hxy.
    + constructor; [constructor; assumption|].
      constructor; [exact Hxy|].
      eapply Forall_impl; [exact Hy|]. simpl. intros z Hz.
      eapply string_leb_trans; eassumption.
    + constructor; [exact IH|].
      apply Forall_forall. intros z Hz.
      apply elem_of_insort in Hz as [->|Hz].
      * destruct (String.leb_total x y) as [H|H]; congruence.
      * rewrite Forall_forall in Hy. apply Hy, Hz.
Qed.

(** [sorted] lists the set in increasing order, each name once. *)
Lemma sorted_StronglySorted (X : gset string) :
  StronglySorted (fun a b => String.leb a b = true) (sorted X).
Proof.
  unfold sorted. induction (elements X) as [|y l IH]; simpl.
  - constructor.
  - apply insort_StronglySorted, IH.
Qed.

Lemma testbit_small (i n : nat) : i < 2 ^ n -> Nat.testbit i n = false.
Proof.
  intros H. rewrite Nat.testbit_eqb, Nat.div_small by exact H. reflexivity.
Qed.

Lemma testbit_top (r n : nat) :
  r < 2 ^ n -> Nat.testbit (2 ^ n + r) n = true.
Proof.
  intros H. rewrite Nat.testbit_eqb.
  replace (2 ^ n + r) with (r + 1 * 2 ^ n) by lia.
  rewrite Nat.div_add by (apply Nat.pow_nonzero; lia).
  rewrite Nat.div_small by exact H. reflexivity.
Qed.

Lemma testbit_below_top (r n k : nat) :
  k < n -> Nat.testbit (2 ^ n + r) k = Nat.testbit r k.
Proof.
  intros H. rewrite !Nat.testbit_eqb.
  replace (2 ^ n) with (2 ^ (n - k) * 2 ^ k)
    by (rewrite <- Nat.pow_add_r; f_equal; lia).
  rewrite Nat.add_comm, Nat.div_add by (apply Nat.pow_nonzero; lia).
  replace (n - k) with (S (n - k - 1)) by lia.
  rewrite Nat.pow_succ_r', (Nat.mul_comm 2), Nat.Div0.mod_add.
  reflexivity.
Qed.

Lemma binary_S (n i : nat) :
  binary (S n) i
  = Nat.testbit i n :: ((fun j => Nat.testbit i (n - 1 - j)) <$> seq 0 n).
Proof.
  unfold binary. simpl seq. rewrite fmap_cons. f_equal.
  - f_equal. lia.
  - rewrite <- fmap_S_seq, <- list_fmap_compose.
    apply list_fmap_ext. intros k j _. simpl. f_equal. lia.
Qed.

(** The [i]-th tuple of the product is the binary writing of [i] on [n]
    digits. *)
Lemma product_lookup (n i : nat) :
  i < 2 ^ n -> product [false; true] n !! i = Some (binary n i).
Proof.
  revert i. induction n as [|n IH]; intros i Hi.
  - simpl in Hi. replace i with 0 by lia. reflexivity.
  - rewrite binary_S. simpl product. rewrite app_nil_r.
    rewrite Nat.pow_succ_r' in Hi.
    destruct (decide (i < 2 ^ n)) as [Hlt|Hge].
    + rewrite lookup_app_l by (rewrite length_fmap, length_product; lia).
      rewrite list_lookup_fmap, IH by exact Hlt. simpl.
      rewrite testbit_small by exact Hlt. reflexivity.
    + rewrite lookup_app_r by (rewrite length_fmap, length_product; lia).
      rewrite length_fmap, length_product.
      rewrite list_lookup_fmap, IH by lia. simpl.
      remember (i - 2 ^ n) as r eqn:Hr.
      assert (i = 2 ^ n + r) as -> by lia.
      rewrite testbit_top by lia. do 2 f_equal.
      apply list_fmap_ext. intros k j Hj.
      apply lookup_seq in Hj as [-> Hk]. simpl.
      symmetry. apply testbit_below_top. lia.
Qed.

Lemma length_all_valuations (vars_list : list string) :
  length (all_valuations vars_list) = 2 ^ length vars_list.
Proof. unfold all_valuations. rewrite length_fmap. apply length_product. Qed.

Lemma dict_zip_lookup (vs : list string) (bits : list bool)
    (j : nat) (x : string) :
  NoDup vs -> length bits = length vs -> vs !! j = Some x ->
  dict (zip vs bits) !! x = bits !! j.
Proof.
  unfold dict. generalize (∅ : Valuation) as d.
  revert bits j. induction vs as [|y vs IH]; intros bits j d Hnd Hlen Hj;
    [discriminate|].
  destruct bits as [|b bits]; [discriminate|]. simpl.
  apply NoDup_cons in Hnd as [Hy Hnd]. simpl in Hlen.
  destruct j as [|j]; simpl in *.
  - injection Hj as ->.
    assert (G : forall (bs : list bool) (d' : Valuation),
      foldl (fun d kv => <[kv.1:=kv.2]> d) d' (zip vs bs) !! x = d' !! x).
    { clear -Hy. induction vs as [|z vs IHvs]; intros bs d'; [reflexivity|].
      destruct bs as [|b' bs]; [reflexivity|]. simpl.
      rewrite IHvs by (intros H; apply Hy; right; exact H).
      apply lookup_insert_ne. intros ->. apply Hy. left. }
    rewrite G. apply lookup_insert_eq.
  - apply IH; [exact Hnd | congruence | exact Hj].
Qed.

(** Canonical order: valuation number [i] gives the variable at position
    [j] of the list the bit of weight [2^(n-1-j)] of [i]. *)
Lemma all_valuations_canonical (vs : list string) (i : nat) :
  NoDup vs -> i < 2 ^ length vs ->
  exists v, all_valuations vs !! i = Some v
    /\ forall j x, vs !! j = Some x ->
         v !! x = Some (Nat.testbit i (length vs - 1 - j)).
Proof.
  intros Hnd Hi. unfold all_valuations.
  rewrite list_lookup_fmap, product_lookup by exact Hi. simpl.
  eexists. split; [reflexivity|]. intros j x Hj.
  rewrite (dict_zip_lookup vs _ j x Hnd); [| |exact Hj].
  - unfold binary. rewrite list_lookup_fmap.
    rewrite lookup_seq_lt by (eapply lookup_lt_Some; eauto). reflexivity.
  - unfold binary. rewrite length_fmap, length_seq. reflexivity.
Qed.

End Order.

(** ** Expression model: theorems *)

(** C6: for all booleans [x] and [y], [Implies(Var a, Var b)] evaluates
    under the valuation [{a: x, b: y}] to [(not x) or y], and
    [Iff(Var a, Var b)] to [x == y]; [a] and [b] are two different names. *)
Theorem eval_Implies_Iff_truth_table (a b : string) (x y : bool) :
  a <> b ->
  eval (Implies (Var a) (Var b)) (dict [(a, x); (b, y)]) = Ok (negb x || y)
  /\ eval (Iff (Var a) (Var b)) (dict [(a, x); (b, y)]) = Ok (Bool.eqb x y).
Proof.
  intros Hab. unfold dict. simpl. unfold getitem.
  rewrite lookup_insert_ne by (intros ->; apply Hab; reflexivity).
  rewrite !lookup_insert_eq. simpl.
  split; [destruct x; reflexivity | reflexivity].
Qed.

Lemma eval_Implies_Iff_truth_table_witness :
  "a" <> "b"
  /\ eval (Implies (Var "a") (Var "b")) (dict [("a", true); ("b", false)])
     = Ok (negb true || false)
  /\ eval (Iff (Var "a") (Var "b")) (dict [("a", true); ("b", false)])
     = Ok (Bool.eqb true false).
Proof.
  split; [discriminate|].
  apply (eval_Implies_Iff_truth_table "a" "b" true false). discriminate.
Defined.

(** C10: evaluation depends only on the free variables: two valuations that
    are total over [vars e] and agree on every name of [vars e] give [e]
    the same boolean. *)
Theorem eval_depends_only_on_vars (e : Expr) (v1 v2 : Valuation) :
  total_on (vars e) v1 -> total_on (vars e) v2 ->
  agree_on (vars e) v1 v2 ->
  exists b, eval e v1 = Ok b /\ eval e v2 = Ok b.
Proof.
  intros Ht1 _ Hag. destruct (eval_total e v1 Ht1) as [b Hb].
  exists b. split; [exact Hb|]. rewrite <- (eval_agree e v1 v2 Hag). exact Hb.
Qed.

Lemma eval_depends_only_on_vars_witness :
  let e := And (Var "A") (Not (Var "B")) in
  let v1 := dict [("A", true); ("B", false); ("C", true)] in
  let v2 := dict [("A", true); ("B", false)] in
  total_on (vars e) v1 /\ total_on (vars e) v2 /\ agree_on (vars e) v1 v2
  /\ exists b, eval e v1 = Ok b /\ eval e v2 = Ok b.
Proof.
  intros e v1 v2.
  assert (H1 : total_on (vars e) v1).
  { intros x Hx. apply elem_of_union in Hx as [Hx|Hx];
      apply elem_of_singleton in Hx as ->; vm_compute; eauto. }
  assert (H2 : total_on (vars e) v2).
  { intros x Hx. apply elem_of_union in Hx as [Hx|Hx];
      apply elem_of_singleton in Hx as ->; vm_compute; eauto. }
  assert (H3 : agree_on (vars e) v1 v2).
  { intros x Hx. apply elem_of_union in Hx as [Hx|Hx];
      apply elem_of_singleton in Hx as ->; vm_compute; reflexivity. }
  split; [exact H1|]. split; [exact H2|]. split; [exact H3|].
  exact (eval_depends_only_on_vars e v1 v2 H1 H2 H3).
Defined.

(** ** Decision procedures: theorems *)

Section Decision.

Implicit Types (axioms : list Expr) (v : Valuation).

Lemma enumeration_total (X Y : gset string) v :
  X ⊆ Y -> v ∈ all_valuations (sorted Y) -> total_on X v.
Proof.
  intros HXY Hv. apply elem_of_enumeration in Hv.
  eapply total_on_mono; [exact HXY | apply total_on_dom, Hv].
Qed.

Lemma is_satisfiable_spec axioms (max_models : Z) :
  is_satisfiable axioms max_models
  = Ok (Nat.ltb 0 (length (first_models axioms (cap max_models))),
        first_models axioms (cap max_models)).
Proof.
  unfold is_satisfiable, first_models.
  rewrite collect_models_spec.
  - simpl. rewrite Nat.sub_0_r. reflexivity.
  - intros v Hv. apply all_eval_total.
    eapply enumeration_total; [reflexivity | exact Hv].
  - unfold cap. simpl. lia.
Qed.

Lemma first_models_nonempty axioms (n : nat) :
  0 < n ->
  Nat.ltb 0 (length (first_models axioms n)) = true
  <-> exists v, v ∈ all_valuations (sorted (vars_union axioms))
                /\ satisfies axioms v.
Proof.
  intros Hn. unfold first_models.
  set (l := filter _ _).
  assert (Hl : forall v, v ∈ l <->
    v ∈ all_valuations (sorted (vars_union axioms)) /\ satisfies axioms v).
  { intros v. unfold l. rewrite list_elem_of_filter. tauto. }
  rewrite Nat.ltb_lt, length_take. split.
  - intros H. destruct l as [|v l']; [simpl in H; lia|].
    exists v. apply Hl. left.
  - intros (v & Hv). apply Hl in Hv.
    destruct l as [|w l']; [inversion Hv | simpl; lia].
Qed.

(** The boolean of [is_satisfiable] tells whether some valuation over the
    axioms' variables satisfies them, whatever the bound. *)
Lemma is_satisfiable_sat axioms (max_models : Z) :
  exists sat models,
    is_satisfiable axioms max_models = Ok (sat, models)
    /\ (sat = true <-> exists v,
          v ∈ all_valuations (sorted (vars_union axioms))
          /\ satisfies axioms v).
Proof.
  do 2 eexists. split; [apply is_satisfiable_spec|].
  apply first_models_nonempty. unfold cap. lia.
Qed.

Lemma refutes_total_enumeration axioms (proposition : Expr) v :
  v ∈ all_valuations (sorted (vars_union (axioms ++ [proposition]))) ->
  exists b, refutes axioms proposition v = Ok b.
Proof.
  intros Hv. apply refutes_total.
  eapply enumeration_total; [reflexivity | exact Hv].
Qed.

(** A valuation over more variables that satisfies the axioms yields one
    over the axioms' own variables. *)
Lemma satisfies_restrict axioms (X : gset string) v :
  vars_union axioms ⊆ X -> dom v = X -> satisfies axioms v ->
  restrict (vars_union axioms) v
    ∈ all_valuations (sorted (vars_union axioms))
  /\ satisfies axioms (restrict (vars_union axioms) v).
Proof.
  intros HX Hdom Hsat. split.
  - apply elem_of_enumeration, dom_restrict. rewrite Hdom. exact HX.
  - unfold satisfies in *. rewrite <- Hsat. apply all_eval_agree.
    intros x Hx. apply restrict_lookup, Hx.
Qed.

Lemma find_counterexample_total axioms (proposition : Expr) :
  find_counterexample axioms proposition
  = Ok (snd <$> list_find (counterexample axioms proposition)
          (all_valuations
             (sorted (vars_union (axioms ++ [proposition]))))).
Proof.
  unfold find_counterexample. apply counterexample_loop_first.
  intros v Hv. apply refutes_total_enumeration, Hv.
Qed.

Lemma find_counterexample_None axioms (proposition : Expr) :
  find_counterexample axioms proposition = Ok None
  <-> forall v,
        v ∈ all_valuations (sorted (vars_union (axioms ++ [proposition])))
        -> ~ counterexample axioms proposition v.
Proof.
  unfold find_counterexample. apply counterexample_loop_None.
  intros v Hv. apply refutes_total_enumeration, Hv.
Qed.

(** The early [return True] of [entails] agrees with the search: without a
    model over the axioms' variables there is no counterexample over the
    larger variable list either. *)
Lemma entails_find_counterexample axioms (proposition : Expr) :
  entails axioms proposition
  = lift (fun r => match r with None => true | Some _ => false end)
      (find_counterexample axioms proposition).
Proof.
  unfold entails.
  destruct (is_satisfiable_sat axioms 1000000)
    as (sat & models & -> & Hsat).
  simpl. destruct sat; simpl.
  - apply entails_loop_counterexample_loop.
  - assert (Hnone : find_counterexample axioms proposition = Ok None).
    { apply find_counterexample_None. intros v Hv [Ha _].
      apply elem_of_enumeration in Hv.
      destruct (satisfies_restrict axioms
                  (vars_union (axioms ++ [proposition])) v) as [H1 H2];
        [| exact Hv | exact Ha |].
      - rewrite vars_union_app. set_solver.
      - assert (false = true) by (apply Hsat; eauto). discriminate. }
    rewrite Hnone. reflexivity.
Qed.

Lemma entails_Ok axioms (p : Expr) : exists b, entails axioms p = Ok b.
Proof.
  rewrite entails_find_counterexample, find_counterexample_total.
  simpl. eauto.
Qed.

(** [entails] answers [True] exactly when the proposition is true under
    every valuation that binds all the variables involved and satisfies the
    axioms. *)
Lemma entails_semantic axioms (p : Expr) :
  entails axioms p = Ok true
  <-> forall v, total_on (vars_union (axioms ++ [p])) v ->
                satisfies axioms v -> eval p v = Ok true.
Proof.
  assert (Hiff : entails axioms p = Ok true
    <-> forall v, v ∈ all_valuations (sorted (vars_union (axioms ++ [p])))
                  -> ~ counterexample axioms p v).
  { rewrite entails_find_counterexample, <- find_counterexample_None.
    rewrite lift_Ok. split.
    - intros ([w|] & H & Hb); [discriminate | exact H].
    - intros H. exists None. auto. }
  rewrite Hiff. clear Hiff.
  assert (Hsub : vars_union axioms ⊆ vars_union (axioms ++ [p])
                 /\ vars p ⊆ vars_union (axioms ++ [p])).
  { rewrite vars_union_app, vars_union_singleton. set_solver. }
  destruct Hsub as [Hax Hp].
  split.
  - intros H v Htot Hsat.
    set (X := vars_union (axioms ++ [p])).
    assert (Hag : agree_on X (restrict X v) v)
      by (intros x Hx; apply restrict_lookup, Hx).
    assert (Hdom : dom (restrict X v) = X).
    { apply dom_restrict. intros x Hx. apply elem_of_dom, Htot, Hx. }
    assert (Hsat' : satisfies axioms (restrict X v)).
    { unfold satisfies. rewrite <- Hsat. apply all_eval_agree.
      eapply agree_on_mono; [exact Hax | exact Hag]. }
    rewrite <- (eval_agree p (restrict X v) v)
      by (eapply agree_on_mono; [exact Hp | exact Hag]).
    destruct (eval_total p (restrict X v)) as [b Hb].
    { eapply total_on_mono; [exact Hp | apply total_on_dom, Hdom]. }
    destruct b; [exact Hb|]. exfalso.
    apply (H (restrict X v)); [apply elem_of_enumeration, Hdom|].
    split; assumption.
  - intros H v Hv [Hsat Hfalse]. apply elem_of_enumeration in Hv.
    rewrite (H v (total_on_dom _ v Hv) Hsat) in Hfalse. discriminate.
Qed.

End Decision.

(** C1: [entails(axioms, proposition)] returns a boolean, and it is [True]
    exactly when every valuation over the union of the free variables of the
    axioms and the proposition (a dictionary whose keys are exactly these
    names) under which every axiom evaluates to [True] also makes the
    proposition evaluate to [True]; the same holds with every dictionary that
    binds at least these names, and the answer is [False] exactly when some
    valuation over these names makes every axiom true and the proposition
    false.  When no valuation over the axioms' variables makes every axiom
    true (or, which is the same test, [is_satisfiable] answers [False]),
    [entails] returns [True] for any proposition. *)
Theorem entails_correct (axioms : list Expr) (proposition : Expr) :
  (exists b, entails axioms proposition = Ok b)
  /\ (entails axioms proposition = Ok true
      <-> forall v : Valuation,
            (forall x, x ∈ dom v
                       <-> exists e, e ∈ axioms ++ [proposition]
                                     /\ x ∈ vars e) ->
            (forall a, a ∈ axioms -> eval a v = Ok true) ->
            eval proposition v = Ok true)
  /\ (entails axioms proposition = Ok true
      <-> forall v : Valuation,
            (forall e x, e ∈ axioms ++ [proposition] -> x ∈ vars e ->
                         is_Some (v !! x)) ->
            (forall a, a ∈ axioms -> eval a v = Ok true) ->
            eval proposition v = Ok true)
  /\ (entails axioms proposition = Ok false
      <-> exists v : Valuation,
            (forall x, x ∈ dom v
                       <-> exists e, e ∈ axioms ++ [proposition]
                                     /\ x ∈ vars e)
            /\ (forall a, a ∈ axioms -> eval a v = Ok true)
            /\ eval proposition v = Ok false)
  /\ ((forall v : Valuation,
         (forall x, x ∈ dom v <-> exists a, a ∈ axioms /\ x ∈ vars a) ->
         ~ (forall a, a ∈ axioms -> eval a v = Ok true)) ->
      entails axioms proposition = Ok true)
  /\ (forall max_models models,
        is_satisfiable axioms max_models = Ok (false, models) ->
        entails axioms proposition = Ok true).
Proof.
  set (X := vars_union (axioms ++ [proposition])).
  assert (HX : forall v : Valuation,
            (forall x, x ∈ dom v
                       <-> exists e, e ∈ axioms ++ [proposition]
                                     /\ x ∈ vars e)
            <-> dom v = X).
  { intros v. unfold X. rewrite set_eq.
    split; intros H x; rewrite H, elem_of_vars_union; reflexivity. }
  assert (Hp : vars proposition ⊆ X).
  { unfold X. rewrite vars_union_app, vars_union_singleton. set_solver. }
  assert (Hexact : entails axioms proposition = Ok true
    <-> forall v : Valuation,
          dom v = X -> (forall a, a ∈ axioms -> eval a v = Ok true) ->
          eval proposition v = Ok true).
  { rewrite entails_find_counterexample, lift_Ok. split.
    - intros ([w|] & Hnone & Hb); [discriminate|].
      intros v Hdom Hsat.
      destruct (eval_total proposition v) as [b Hv].
      { eapply total_on_mono; [exact Hp | apply total_on_dom, Hdom]. }
      destruct b; [exact Hv|]. exfalso.
      apply (proj1 (find_counterexample_None axioms proposition) Hnone v).
      + apply elem_of_enumeration, Hdom.
      + split; [apply all_eval_true, Hsat | exact Hv].
    - intros H. exists None. split; [|reflexivity].
      apply find_counterexample_None. intros v Hv [Hsat Hfalse].
      apply elem_of_enumeration in Hv.
      rewrite (H v Hv (proj1 (all_eval_true axioms v) Hsat)) in Hfalse.
      discriminate. }
  assert (Hunsat : (forall v : Valuation,
            (forall x, x ∈ dom v <-> exists a, a ∈ axioms /\ x ∈ vars a) ->
            ~ (forall a, a ∈ axioms -> eval a v = Ok true)) ->
          entails axioms proposition = Ok true).
  { intros Hno. apply Hexact. intros v Hdom Hsat.
    destruct (satisfies_restrict axioms X v) as [H1 H2];
      [| exact Hdom | apply all_eval_true, Hsat |].
    - unfold X. rewrite vars_union_app. set_solver.
    - apply elem_of_enumeration in H1.
      exfalso. apply (Hno (restrict (vars_union axioms) v)).
      + intros x. rewrite H1, elem_of_vars_union. reflexivity.
      + apply all_eval_true, H2. }
  split; [apply entails_Ok|].
  split; [|split; [|split; [|split]]].
  - rewrite Hexact. split; intros H v Hdom; apply H, HX, Hdom.
  - rewrite entails_semantic. fold X. split.
    + intros H v Htot Hsat. apply H; [|apply all_eval_true, Hsat].
      intros x Hx. apply elem_of_vars_union in Hx as (e & He & Hxe).
      exact (Htot e x He Hxe).
    + intros H v Htot Hsat. apply H; [|apply all_eval_true, Hsat].
      intros e x He Hxe. apply Htot, elem_of_vars_union. eauto.
  - split.
    + intros Hfalse.
      rewrite entails_find_counterexample, find_counterexample_total
        in Hfalse.
      simpl in Hfalse. fold X in Hfalse.
      destruct (list_find (counterexample axioms proposition)
                  (all_valuations (sorted X))) as [[i v]|] eqn:Hfind;
        simpl in Hfalse; [|discriminate].
      apply list_find_Some in Hfind as (Hi & [Hsat Hf] & _).
      apply list_elem_of_lookup_2 in Hi.
      exists v. split; [apply HX, elem_of_enumeration, Hi|].
      split; [apply all_eval_true, Hsat | exact Hf].
    + intros (v & Hdom & Hsat & Hf).
      destruct (entails_Ok axioms proposition) as [[|] Hb]; [|exact Hb].
      rewrite (proj1 Hexact Hb v (proj1 (HX v) Hdom) Hsat) in Hf.
      discriminate.
  - exact Hunsat.
  - intros max_models models Hfalse. apply Hunsat. intros v Hdom Hsat.
    destruct (is_satisfiable_sat axioms max_models)
      as (sat & models' & Heq & Hs).
    rewrite Heq in Hfalse. injection Hfalse as -> _.
    assert (false = true); [|discriminate].
    apply Hs. exists v. split.
    + apply elem_of_enumeration, set_eq. intros x.
      rewrite Hdom, elem_of_vars_union. reflexivity.
    + apply all_eval_true, Hsat.
Qed.

(** An instance of each part: [A] and [A -> B] entail [B]; [A | B] does not
    entail [A], as the valuation [{A: False, B: True}] shows; the
    unsatisfiable axioms [A] and [~A] entail [B]. *)
Lemma entails_correct_witness :
  entails [Var "A"; Implies (Var "A") (Var "B")] (Var "B") = Ok true
  /\ entails [Or (Var "A") (Var "B")] (Var "A") = Ok false
  /\ entails [Var "A"; Not (Var "A")] (Var "B") = Ok true.
Proof.
  split; [|split].
  - apply (proj1 (proj2 (proj2
             (entails_correct [Var "A"; Implies (Var "A") (Var "B")]
                (Var "B"))))).
    intros v _ Hsat.
    pose proof (Hsat (Var "A") ltac:(set_solver)) as HA.
    pose proof (Hsat (Implies (Var "A") (Var "B")) ltac:(set_solver)) as HAB.
    simpl in *. rewrite HA in HAB. simpl in HAB.
    destruct (getitem v "B") as [[|]|]; [reflexivity|discriminate..].
  - apply (proj1 (proj2 (proj2 (proj2
             (entails_correct [Or (Var "A") (Var "B")] (Var "A")))))).
    exists (<["A" := false]> (<["B" := true]> ∅)).
    split; [|split].
    + intros x. rewrite dom_insert_L, dom_insert_L, dom_empty_L. split.
      * intros Hx. exists (Or (Var "A") (Var "B")). simpl.
        split; set_solver.
      * intros (e & He & Hx).
        apply elem_of_cons in He as [->|He]; simpl in Hx; [set_solver|].
        apply list_elem_of_singleton in He as ->. simpl in Hx. set_solver.
    + intros a Ha. apply list_elem_of_singleton in Ha as ->. reflexivity.
    + reflexivity.
  - apply (proj1 (proj2 (proj2 (proj2 (proj2
             (entails_correct [Var "A"; Not (Var "A")] (Var "B"))))))).
    intros v _ Hsat.
    pose proof (Hsat (Var "A") ltac:(set_solver)) as HA.
    pose proof (Hsat (Not (Var "A")) ltac:(set_solver)) as HN.
    simpl in *. rewrite HA in HN. discriminate.
Defined.

(** C2: [entails(axioms, proposition)] returns [True] if and only if
    [find_counterexample(axioms, proposition)] returns [None]; both calls
    return normally. *)
Theorem entails_iff_no_counterexample (axioms : list Expr)
    (proposition : Expr) :
  (exists b, entails axioms proposition = Ok b)
  /\ (exists r, find_counterexample axioms proposition = Ok r)
  /\ (entails axioms proposition = Ok true
      <-> find_counterexample axioms proposition = Ok None).
Proof.
  rewrite entails_find_counterexample, find_counterexample_total. simpl.
  split; [eauto|]. split; [eauto|].
  destruct (list_find _ _) as [[i v]|]; simpl; split; congruence.
Qed.

(** C3, amended: for every bound [max_models >= 1],
    [is_satisfiable(axioms, max_models)] enumerates the valuations over the
    sorted union of the axioms' free variables and returns the first
    [max_models] of them under which every axiom evaluates to true (all of
    them when there are fewer), with a boolean that is true if and only if
    at least one such valuation exists; the loop stops as soon as
    [max_models] of them are collected: the result is the same whatever
    follows the valuations inspected so far. *)
Theorem is_satisfiable_collects (axioms : list Expr) (max_models : Z) :
  (1 <= max_models)%Z ->
  let valuations := all_valuations (sorted (vars_union axioms)) in
  let models := first_models axioms (Z.to_nat max_models) in
  (exists sat,
     is_satisfiable axioms max_models = Ok (sat, models)
     /\ (sat = true <-> exists v, v ∈ valuations /\ satisfies axioms v))
  /\ (forall v, satisfies axioms v
                <-> forall a, a ∈ axioms -> eval a v = Ok true)
  /\ (forall inspected rest rest',
        valuations = inspected ++ rest ->
        Z.to_nat max_models
          <= length (filter (satisfies axioms) inspected) ->
        collect_models axioms max_models (inspected ++ rest') []
        = Ok models).
Proof.
  intros Hm valuations models.
  assert (Hcap : cap max_models = Z.to_nat max_models)
    by (unfold cap; lia).
  assert (Hspec : collect_models axioms max_models valuations [] = Ok models).
  { unfold valuations, models, first_models.
    rewrite collect_models_spec.
    - simpl. rewrite Nat.sub_0_r, Hcap. reflexivity.
    - intros v Hv. apply all_eval_total.
      eapply enumeration_total; [reflexivity | exact Hv].
    - rewrite Hcap. simpl. lia. }
  split; [|split].
  - eexists. split.
    + rewrite is_satisfiable_spec, Hcap. reflexivity.
    + apply first_models_nonempty. lia.
  - intros v. apply all_eval_true.
  - intros inspected rest rest' Hsplit Hlen.
    rewrite <- Hspec, Hsplit.
    apply collect_models_break.
    + intros v Hv. apply all_eval_total.
      eapply enumeration_total; [reflexivity|].
      fold valuations. rewrite Hsplit. apply elem_of_app. left. exact Hv.
    + rewrite Hcap. simpl. lia.
    + rewrite Hcap. simpl. exact Hlen.
Qed.

Lemma is_satisfiable_collects_witness :
  (1 <= 2)%Z
  /\ exists sat,
       is_satisfiable [Or (Var "A") (Var "B")] 2
       = Ok (sat, first_models [Or (Var "A") (Var "B")] (Z.to_nat 2)).
Proof.
  split; [lia|].
  destruct (is_satisfiable_collects [Or (Var "A") (Var "B")] 2 ltac:(lia))
    as [(sat & H & _) _].
  exists sat. exact H.
Defined.

(** C3 as stated fails for a bound of 0: the bound is tested only after a
    model has been appended, so one model is collected where "stop as soon
    as [max_models] are collected" allows none. *)
Lemma is_satisfiable_zero_bound_counterexample :
  ~ exists sat,
      is_satisfiable [Var "A"] 0
      = Ok (sat, first_models [Var "A"] (Z.to_nat 0)).
Proof.
  intros (sat & H). vm_compute in H. discriminate.
Qed.

(** C4: [find_counterexample(axioms, proposition)] returns the first
    valuation of the canonical enumeration that satisfies every axiom and
    falsifies the proposition, and [None] when there is none.  The
    enumeration runs over the sorted union of all free variables, each
    listed once; its valuation number [i] (from 0 to [2^n - 1]) gives the
    variable at position [j] the bit of weight [2^(n-1-j)] of [i], so the
    first variable is the most significant bit.  For axioms [A] and
    proposition [A & B] the result is [{A: True, B: False}]. *)
Theorem find_counterexample_first (axioms : list Expr) (proposition : Expr) :
  let vars_list := sorted (vars_union (axioms ++ [proposition])) in
  let valuations := all_valuations vars_list in
  let n := length vars_list in
  (StronglySorted (fun a b => String.leb a b = true) vars_list
   /\ NoDup vars_list
   /\ forall x, x ∈ vars_list
        <-> exists e, e ∈ axioms ++ [proposition] /\ x ∈ vars e)
  /\ (length valuations = 2 ^ n
      /\ forall i v j x,
           valuations !! i = Some v -> vars_list !! j = Some x ->
           v !! x = Some (Nat.testbit i (n - 1 - j)))
  /\ ((find_counterexample axioms proposition = Ok None
       /\ forall v, v ∈ valuations -> ~ counterexample axioms proposition v)
      \/ (exists i v,
            find_counterexample axioms proposition = Ok (Some v)
            /\ valuations !! i = Some v
            /\ counterexample axioms proposition v
            /\ forall j w, valuations !! j = Some w -> j < i ->
                 ~ counterexample axioms proposition w))
  /\ find_counterexample [Var "A"] (And (Var "A") (Var "B"))
     = Ok (Some (dict [("A", true); ("B", false)])).
Proof.
  intros vars_list valuations n.
  split; [|split; [|split]].
  - split; [apply sorted_StronglySorted|]. split; [apply NoDup_sorted|].
    intros x. unfold vars_list.
    rewrite elem_of_sorted. apply elem_of_vars_union.
  - split; [apply length_all_valuations|].
    intros i v j x Hi Hj.
    assert (Hlt : i < 2 ^ n).
    { apply lookup_lt_Some in Hi.
      unfold valuations in Hi. rewrite length_all_valuations in Hi.
      exact Hi. }
    destruct (all_valuations_canonical vars_list i (NoDup_sorted _) Hlt)
      as (v' & Hv' & Hbits).
    fold valuations in Hv'. rewrite Hi in Hv'. injection Hv' as <-.
    apply Hbits, Hj.
  - rewrite find_counterexample_total. fold vars_list. fold valuations.
    destruct (list_find _ valuations) as [[i v]|] eqn:Hfind; simpl.
    + right. exists i, v. apply list_find_Some in Hfind as (Hi & Hc & Hmin).
      auto.
    + left. split; [reflexivity|].
      apply list_find_None in Hfind. rewrite Forall_forall in Hfind.
      exact Hfind.
  - vm_compute. reflexivity.
Qed.

(** C5: [is_tautology(e)] equals [is_contradiction(Not(e))]; both return a
    boolean, which is [True] exactly when [e] evaluates to true under every
    valuation over its free variables, that is exactly when [Not(e)]
    evaluates to false under each of them. *)
Theorem tautology_contradiction_duality (e : Expr) :
  is_tautology e = is_contradiction (Not e)
  /\ (exists b, is_tautology e = Ok b)
  /\ (is_tautology e = Ok true
      <-> forall v, v ∈ all_valuations (sorted (vars e)) ->
                    eval e v = Ok true)
  /\ (is_contradiction (Not e) = Ok true
      <-> forall v, v ∈ all_valuations (sorted (vars (Not e))) ->
                    eval (Not e) v = Ok false).
Proof.
  assert (Hdual : is_tautology e = is_contradiction (Not e)).
  { unfold is_tautology, is_contradiction. simpl vars.
    apply tautology_contradiction_loop. }
  destruct (tautology_loop_spec e (all_valuations (sorted (vars e))))
    as [Htot Htrue].
  { intros v Hv. apply eval_total.
    eapply enumeration_total; [reflexivity | exact Hv]. }
  split; [exact Hdual|]. split; [exact Htot|]. split; [exact Htrue|].
  rewrite <- Hdual. unfold is_tautology. rewrite Htrue. simpl.
  split; intros H v Hv; specialize (H v Hv).
  - rewrite H. reflexivity.
  - apply lift_Ok in H as (b & Hb & Hn). destruct b; [exact Hb|discriminate].
Qed.

(** ** Lexer *)

Section Lexer.

Implicit Types (s rest : string) (c : ascii).

Lemma length_skip_space s : String.length (skip_space s) <= String.length s.
Proof.
  induction s as [|c r IH]; simpl; [lia|].
  destruct (is_space c); simpl; lia.
Qed.

Lemma length_string_drop (n : nat) s :
  String.length (string_drop n s) <= String.length s.
Proof.
  revert s. induction n as [|n IH]; intros [|c r]; simpl; try lia.
  specialize (IH r). lia.
Qed.

Lemma length_ident_run s :
  String.length (ident_run s).2 <= String.length s.
Proof.
  induction s as [|c r IH]; simpl; [lia|].
  destruct (is_ident_char c); simpl; [|lia].
  destruct (ident_run r) as [run rest]. simpl in *. lia.
Qed.

(** Every token takes at least one character. *)
Lemma match_token_shorter s t rest :
  match_token s = Some (t, rest) -> String.length rest < String.length s.
Proof.
  unfold match_token. destruct s as [|c r]; [discriminate|].
  destruct (starts_with "<->" (String c r)) eqn:H3.
  { intros [= <- <-]. pose proof (length_string_drop 2 r). simpl in *. lia. }
  destruct (starts_with "->" (String c r)) eqn:H2.
  { intros [= <- <-]. pose proof (length_string_drop 1 r). simpl in *. lia. }
  destruct (is_punct c); [intros [= <- <-]; simpl; lia|].
  destruct (is_ident_start c).
  - pose proof (length_ident_run r) as Hr.
    destruct (ident_run r) as [run rest']. intros [= <- <-].
    simpl in *. lia.
  - destruct (negb (is_space c)); [|discriminate].
    intros [= <- <-]. simpl. lia.
Qed.

Lemma findall_fuel (n m : nat) s :
  String.length s < n -> String.length s < m -> findall n s = findall m s.
Proof.
  revert m s. induction n as [|n IH]; intros m s Hn Hm; [lia|].
  destruct m as [|m]; [lia|]. simpl.
  destruct (match_token (skip_space s)) as [[t rest]|] eqn:Hmt;
    [|reflexivity].
  apply match_token_shorter in Hmt.
  pose proof (length_skip_space s).
  f_equal. apply IH; lia.
Qed.

(** [tokenize] is the repeated match of the token pattern. *)
Lemma tokenize_unfold s :
  tokenize s
  = match match_token (skip_space s) with
    | Some (t, rest) => t :: tokenize rest
    | None => []
    end.
Proof.
  assert (H : forall s', tokenize s' = findall (S (String.length s')) s').
  { intros s'. unfold tokenize. destruct (findall _ s'); reflexivity. }
  rewrite H. simpl.
  destruct (match_token (skip_space s)) as [[t rest]|] eqn:Hmt;
    [|reflexivity].
  apply match_token_shorter in Hmt.
  pose proof (length_skip_space s).
  rewrite H. f_equal. apply findall_fuel; lia.
Qed.

Lemma skip_space_whitespace s :
  whitespace_only s = true -> skip_space s = EmptyString.
Proof.
  induction s as [|c r IH]; simpl; [reflexivity|].
  destruct (is_space c); simpl; [exact IH | discriminate].
Qed.

Lemma tokenize_space c s : is_space c = true ->
  tokenize (String c s) = tokenize s.
Proof.
  intros Hc. rewrite (tokenize_unfold (String c s)), (tokenize_unfold s).
  simpl. rewrite Hc. reflexivity.
Qed.

Lemma ident_start_not_space c :
  is_ident_start c = true -> is_space c = false.
Proof.
  unfold is_ident_start, is_space. generalize (N_of_ascii c) as n.
  intros n H.
  repeat match goal with
         | H : context [(?a <=? ?b)%N] |- _ => destruct (N.leb_spec a b)
         | H : context [(?a =? ?b)%N] |- _ => destruct (N.eqb_spec a b)
         | |- context [(?a <=? ?b)%N] => destruct (N.leb_spec a b)
         | |- context [(?a =? ?b)%N] => destruct (N.eqb_spec a b)
         end; simpl in *; try discriminate; try reflexivity; lia.
Qed.

Lemma ident_start_not_punct c :
  is_ident_start c = true -> is_punct c = false.
Proof.
  unfold is_punct. intros H.
  repeat match goal with
         | |- context [Ascii.eqb c ?x] =>
             destruct (Ascii.eqb_spec c x) as [->|_]; [discriminate|]
         end.
  reflexivity.
Qed.

Lemma starts_with_cons (a b : ascii) (p s : string) :
  starts_with (String a p) (String b s) = Ascii.eqb a b && starts_with p s.
Proof. reflexivity. Qed.

(** The greedy identifier run stops where the identifier ends. *)
Lemma ident_run_app (r rest : string) :
  all_ident_chars r = true ->
  match rest with
  | String c _ => is_ident_char c = false
  | EmptyString => True
  end ->
  ident_run (r +:+ rest) = (r, rest).
Proof.
  intros Hr Hrest. induction r as [|c r IH]; simpl in *.
  - destruct rest as [|c rest]; simpl; [reflexivity|].
    rewrite Hrest. reflexivity.
  - apply andb_prop in Hr as [Hc Hr]. rewrite Hc, IH by exact Hr.
    reflexivity.
Qed.

Lemma tokenize_identifier (A rest : string) :
  is_identifier A = true ->
  match rest with
  | String c _ => is_ident_char c = false
  | EmptyString => True
  end ->
  tokenize (A +:+ rest) = A :: tokenize rest.
Proof.
  intros HA Hrest. destruct A as [|c r]; [discriminate|]. simpl in HA.
  apply andb_prop in HA as [Hc Hr].
  rewrite tokenize_unfold. simpl.
  rewrite (ident_start_not_space c Hc).
  unfold match_token.
  assert (H3 : starts_with "<->" (String c (r +:+ rest)) = false).
  { rewrite starts_with_cons.
    destruct (Ascii.eqb_spec "<" c) as [<-|]; [discriminate|].
    reflexivity. }
  assert (H2 : starts_with "->" (String c (r +:+ rest)) = false).
  { rewrite starts_with_cons.
    destruct (Ascii.eqb_spec "-" c) as [<-|]; [discriminate|].
    reflexivity. }
  rewrite H3, H2, (ident_start_not_punct c Hc), Hc.
  rewrite ident_run_app by assumption. reflexivity.
Qed.

Lemma tokenize_tildes (n : nat) s :
  tokenize (tildes n +:+ s) = replicate n "~" ++ tokenize s.
Proof.
  induction n as [|n IH]; simpl; [reflexivity|].
  rewrite tokenize_unfold. simpl. rewrite IH. reflexivity.
Qed.

Lemma tokenize_identifier_end (A : string) :
  is_identifier A = true -> tokenize A = [A].
Proof.
  intros HA.
  assert (H : A = A +:+ EmptyString).
  { clear. induction A as [|c r IH]; [reflexivity|].
    change (String c r = String c (r +:+ EmptyString)).
    rewrite <- IH. reflexivity. }
  rewrite H at 1. rewrite tokenize_identifier by (exact HA || exact I).
  rewrite tokenize_unfold. reflexivity.
Qed.

End Lexer.

(** C8: for every input that is empty or made of white space only, the
    lexer produces no token and [parse] raises
    [ParserError("Expression vide")] instead of returning an expression. *)
Theorem parse_whitespace_only (s : string) :
  whitespace_only s = true ->
  tokenize s = [] /\ parse s = Fail (ParserError "Expression vide").
Proof.
  intros Hs.
  assert (Ht : tokenize s = []).
  { rewrite tokenize_unfold, skip_space_whitespace by exact Hs. reflexivity. }
  split; [exact Ht|]. unfold parse. rewrite Ht. reflexivity.
Qed.

Lemma parse_whitespace_only_witness :
  let s := String " " (String (ascii_of_nat 9) (String (ascii_of_nat 10) " "))
  in
  whitespace_only s = true
  /\ tokenize s = [] /\ parse s = Fail (ParserError "Expression vide").
Proof.
  intros s. split; [reflexivity|].
  apply (parse_whitespace_only s). reflexivity.
Defined.

(** ** Parser *)

Section ParserFacts.

Implicit Types (k : entry) (self : Parser) (e : Expr).

Lemma run_O k self : run k 0 self = Exhausted.
Proof. destruct k; reflexivity. Qed.

(** One level of each method, all calls written with [run]. *)
Lemma run_S k (n : nat) :
  run k (S n)
  = match k with
    | EIff => left <~ run EImp n;; run (EIffLoop left) n
    | EIffLoop l =>
        t <~ peek;;
        if is_tok t "<->" then
          _ <~ pop;; right <~ run EImp n;; run (EIffLoop (Iff l right)) n
        else ret l
    | EImp =>
        left <~ run EOr n;;
        t <~ peek;;
        if is_tok t "->" then
          _ <~ pop;; right <~ run EImp n;; ret (Implies left right)
        else ret left
    | EOr => left <~ run EAnd n;; run (EOrLoop left) n
    | EOrLoop l =>
        t <~ peek;;
        if is_tok t "|" then
          _ <~ pop;; right <~ run EAnd n;; run (EOrLoop (Or l right)) n
        else ret l
    | EAnd => left <~ run ENot n;; run (EAndLoop left) n
    | EAndLoop l =>
        t <~ peek;;
        if is_tok t "&" then
          _ <~ pop;; right <~ run ENot n;; run (EAndLoop (And l right)) n
        else ret l
    | ENot =>
        t <~ peek;;
        if is_tok t "~" then
          _ <~ pop;; child <~ run ENot n;; ret (Not child)
        else run EAtom n
    | EAtom =>
        t <~ peek;;
        match t with
        | None => raise (ParserError "Unexpected end of input")
        | Some t =>
            if String.eqb t "(" then
              _ <~ pop;;
              e <~ run EIff n;;
              t' <~ pop;;
              if negb (is_tok t' ")") then
                raise (ParserError "Expected ')'")
              else ret e
            else if ident_match t then _ <~ pop;; ret (Var t)
            else raise (ParserError ("Unexpected token " +:+ t))
        end
    end.
Proof. destruct k; reflexivity. Qed.

End ParserFacts.

#[local] Arguments run : simpl never.
#[local] Arguments is_tok : simpl never.

(** Case analysis on the calls, look-ups and tests met along one level of a
    parsing method. *)
Ltac parser_cases :=
  repeat match goal with
  | H : context [match run ?k ?n ?s with _ => _ end] |- _ =>
      let E := fresh "Erun" in
      destruct (run k n s) as [[? ?]| ? |] eqn:E; simpl in H
  | H : context [match ?l !! ?i with _ => _ end] |- _ =>
      let E := fresh "Elook" in destruct (l !! i) eqn:E; simpl in H
  | H : context [if ?b then _ else _] |- _ =>
      let E := fresh "Etest" in destruct b eqn:E; simpl in H
  end.

Section ParserProgress.

Implicit Types (k : entry) (self : Parser) (e : Expr).

(** A method that returns leaves the tokens alone and never moves
    backwards; a grammar rule consumes at least one token. *)
Lemma run_progress (n : nat) k self e self' :
  run k n self = Done (e, self') ->
  tokens self' = tokens self
  /\ (if is_loop k then pos self <= pos self' else pos self < pos self').
Proof.
  revert k self e self'. induction n as [|n IH]; intros k self e self' H.
  - rewrite run_O in H. discriminate.
  - rewrite run_S in H.
    destruct k; unfold and_then, peek, pop, ret, raise in H; simpl in H;
      parser_cases; try discriminate;
      repeat match goal with
             | E : run _ n _ = Done _ |- _ => apply IH in E; simpl in E
             | H : Done _ = Done _ |- _ => injection H as <- <-
             | H : _ /\ _ |- _ => destruct H
             end; simpl in *; split; try congruence; try lia.
Qed.

End ParserProgress.

Section ParserFuel.

Implicit Types (k : entry) (self : Parser) (e : Expr).

(** More recursion depth does not change a result already reached. *)
Lemma run_fuel_S (n : nat) k self (r : outcome (Expr * Parser)) :
  run k n self = r -> r <> Exhausted -> run k (S n) self = r.
Proof.
  revert k self r. induction n as [|n IH]; intros k self r H Hr.
  - rewrite run_O in H. congruence.
  - rewrite run_S in H. rewrite (run_S k (S n)).
    destruct k; unfold and_then, peek, pop, ret, raise in *; simpl in *;
      parser_cases; try congruence;
      repeat match goal with
             | E : run ?k' n ?s = ?r' |- context [run ?k' (S n) ?s] =>
                 rewrite (IH k' s r' E) by discriminate; simpl
             | E : ?l !! ?i = _ |- context [?l !! ?i] => rewrite E; simpl
             | E : is_tok _ _ = _ |- _ => rewrite E; simpl
             | E : String.eqb _ _ = _ |- _ => rewrite E; simpl
             | E : ident_match _ = _ |- _ => rewrite E; simpl
             | E : negb _ = _ |- _ => rewrite E; simpl
             end;
      try congruence;
      try (apply IH; [exact H | exact Hr]);
      try match goal with
          | E : is_tok None _ = true |- _ => cbv in E; discriminate E
          end.
Qed.

Lemma run_fuel_le (n m : nat) k self (r : outcome (Expr * Parser)) :
  n <= m -> run k n self = r -> r <> Exhausted -> run k m self = r.
Proof.
  induction 1 as [|m Hle IH]; intros H Hr; [exact H|].
  apply run_fuel_S; auto.
Qed.

(** The bound [8 * remaining tokens + rank] is enough for every method. *)
Lemma run_not_exhausted (n : nat) k self :
  8 * (length (tokens self) - pos self) + rank k <= n ->
  run k n self <> Exhausted.
Proof.
  revert k self. induction n as [|n IH]; intros k self Hn.
  - destruct k; simpl in Hn; lia.
  - rewrite run_S. intros H.
    destruct k; unfold and_then, peek, pop, ret, raise in H; simpl in *;
      parser_cases; try discriminate;
      repeat match goal with
             | E : run _ n _ = Done _ |- _ =>
                 apply run_progress in E; simpl in E; destruct E
             end;
      match goal with
      | E : run ?k' n ?s = Exhausted |- _ =>
          apply (IH k' s); [simpl in *|exact E]
      end;
      repeat match goal with
             | E : tokens _ = tokens _ |- _ => rewrite E in *; clear E
             | E : _ !! _ = Some _ |- _ => apply lookup_lt_Some in E
             end;
      lia.
Qed.

End ParserFuel.

Section ParserShift.

Variable pre : list string.

Lemma commutes_ret {A : Type} (x : A) : commutes pre (ret x).
Proof. intros self. reflexivity. Qed.

Lemma commutes_raise {A : Type} (e : Exception) :
  commutes pre (raise e : M A).
Proof. intros self. reflexivity. Qed.

Lemma shift_lookup (ts : list string) (p : nat) :
  (pre ++ ts) !! (length pre + p) = ts !! p.
Proof.
  rewrite lookup_app_r by lia. f_equal. lia.
Qed.

Lemma commutes_peek : commutes pre peek.
Proof.
  intros [ts p]. unfold peek, shift_parser. simpl.
  rewrite shift_lookup. reflexivity.
Qed.

Lemma commutes_pop : commutes pre pop.
Proof.
  intros [ts p]. unfold pop, shift_parser. simpl.
  rewrite shift_lookup. destruct (ts !! p); simpl; [|reflexivity].
  unfold shift_parser. simpl. rewrite Nat.add_assoc. reflexivity.
Qed.

Lemma commutes_and_then {A B : Type} (m : M A) (f : A -> M B) :
  commutes pre m -> (forall x, commutes pre (f x)) ->
  commutes pre (and_then m f).
Proof.
  intros Hm Hf self. unfold and_then. rewrite Hm.
  destruct (m self) as [[x self']| |]; simpl; [apply Hf | reflexivity ..].
Qed.

Lemma run_shift (n : nat) (k : entry) : commutes pre (run k n).
Proof.
  revert k. induction n as [|n IH]; intros k.
  - intros self. rewrite !run_O. reflexivity.
  - rewrite run_S.
    destruct k;
      repeat first
        [ apply IH
        | apply commutes_peek
        | apply commutes_pop
        | apply commutes_ret
        | apply commutes_raise
        | apply commutes_and_then; [|intros ?]
        | match goal with
          | |- commutes _ (if ?b then _ else _) => destruct b
          | |- commutes _ (match ?t with Some _ => _ | None => _ end) =>
              destruct t
          end ].
Qed.

End ParserShift.

Section ParserTotal.

(** The recursion bound of [Parser.parse] is never reached. *)
Lemma Parser_parse_not_exhausted (self : Parser) :
  Parser_parse self <> Exhausted.
Proof.
  unfold Parser_parse, and_then, peek, ret, raise.
  change (parse_iff ?n) with (run EIff n).
  destruct (run EIff _ self) as [[e self']| |] eqn:E.
  - destruct (tokens self' !! pos self'); discriminate.
  - discriminate.
  - exfalso. revert E. apply run_not_exhausted. simpl. lia.
Qed.

(** [parse] returns an expression or raises [ParserError] on every
    input. *)
Lemma parse_not_exhausted (s : string) : parse s <> Exhausted.
Proof.
  unfold parse. destruct (tokenize s) as [|t ts]; [discriminate|].
  pose proof (Parser_parse_not_exhausted (mkParser (t :: ts) 0)) as H.
  destruct (Parser_parse _) as [[e self']| |]; congruence.
Qed.

End ParserTotal.

Section Parentheses.

Implicit Types (k : entry) (self : Parser) (e : Expr).

Lemma and_then_Fail {A B : Type} (m : M A) (f : A -> M B) self
    (x : Exception) :
  m self = Fail x -> and_then m f self = Fail x.
Proof. intros H. unfold and_then. rewrite H. reflexivity. Qed.

Lemma tokenize_open_paren (s : string) :
  tokenize ("(" +:+ s) = "(" :: tokenize s.
Proof. rewrite tokenize_unfold. reflexivity. Qed.

(** A [(] in front of a complete expression and nothing after it: the
    atom rule reads the expression, then finds no [)]. *)
Lemma run_atom_unclosed (n : nat) (ts : list string) e self' :
  run EIff n (mkParser ts 0) = Done (e, self') ->
  tokens self' !! pos self' = None ->
  run EAtom (S n) (mkParser ("(" :: ts) 0)
  = Fail (ParserError "Expected ')'").
Proof.
  intros Hrun Hend. rewrite run_S.
  unfold and_then at 1. unfold peek. simpl.
  unfold and_then at 1. unfold pop at 1. simpl.
  change (mkParser ("(" :: ts) 1) with (shift_parser ["("] (mkParser ts 0)).
  unfold and_then at 1. rewrite run_shift, Hrun. simpl.
  unfold and_then, pop, shift_parser. simpl. rewrite Hend. reflexivity.
Qed.

Lemma run_iff_unclosed (n : nat) (ts : list string) e self' :
  run EIff n (mkParser ts 0) = Done (e, self') ->
  tokens self' !! pos self' = None ->
  run EIff (6 + n) (mkParser ("(" :: ts) 0)
  = Fail (ParserError "Expected ')'").
Proof.
  intros Hrun Hend.
  pose proof (run_atom_unclosed n ts e self' Hrun Hend) as Hatom.
  assert (Hnot : run ENot (2 + n) (mkParser ("(" :: ts) 0)
                 = Fail (ParserError "Expected ')'")).
  { simpl plus. rewrite run_S. unfold and_then at 1. unfold peek. simpl.
    exact Hatom. }
  assert (Hand : run EAnd (3 + n) (mkParser ("(" :: ts) 0)
                 = Fail (ParserError "Expected ')'")).
  { simpl plus. rewrite run_S. apply and_then_Fail, Hnot. }
  assert (Hor : run EOr (4 + n) (mkParser ("(" :: ts) 0)
                = Fail (ParserError "Expected ')'")).
  { simpl plus. rewrite run_S. apply and_then_Fail, Hand. }
  assert (Himp : run EImp (5 + n) (mkParser ("(" :: ts) 0)
                 = Fail (ParserError "Expected ')'")).
  { simpl plus. rewrite run_S. apply and_then_Fail, Hor. }
  simpl plus. rewrite run_S. apply and_then_Fail, Himp.
Qed.

End Parentheses.

(** When the text after a [(] is a complete expression and the input ends
    there, [parse] raises [ParserError("Expected ')'")]. *)
Lemma parse_open_then_expression (s : string) (e : Expr) :
  parse s = Done e ->
  parse ("(" +:+ s) = Fail (ParserError "Expected ')'").
Proof.
  unfold parse. rewrite tokenize_open_paren.
  destruct (tokenize s) as [|t ts] eqn:Hts; [discriminate|].
  unfold Parser_parse, and_then.
  change (parse_iff ?n) with (run EIff n).
  cbn [tokens].
  destruct (run EIff (8 * length (t :: ts) + 7) (mkParser (t :: ts) 0))
    as [[e' self']| |] eqn:Hrun; try discriminate.
  unfold peek, ret, raise.
  destruct (tokens self' !! pos self') eqn:Hend; [discriminate|].
  intros _.
  assert (Hfuel : 8 * length ("(" :: t :: ts) + 7
                  = 6 + (8 * length (t :: ts) + 9)) by (simpl; lia).
  rewrite Hfuel.
  rewrite (run_iff_unclosed _ (t :: ts) e' self'); [reflexivity| |exact Hend].
  eapply run_fuel_le; [| exact Hrun | discriminate]. lia.
Qed.


Section Operands.

Implicit Types (k : entry) (e : Expr) (ts : list string) (A : string).

Lemma identifier_ident_match A :
  is_identifier A = true -> ident_match A = true.
Proof.
  destruct A as [|c r]; simpl; [discriminate|].
  intros H. apply andb_prop in H as [H _]. exact H.
Qed.

(** An identifier is none of the operator or parenthesis tokens. *)
Lemma identifier_not_token A (tok : string) :
  is_identifier A = true -> is_identifier tok = false ->
  String.eqb A tok = false.
Proof.
  intros HA Htok. destruct (String.eqb_spec A tok) as [->|]; congruence.
Qed.

Lemma run_atom_identifier (n : nat) ts (p : nat) A :
  ts !! p = Some A -> is_identifier A = true ->
  run EAtom (S n) (mkParser ts p) = Done (Var A, mkParser ts (p + 1)).
Proof.
  intros Hp HA. rewrite run_S. unfold and_then, peek, pop, ret. simpl.
  rewrite Hp.
  rewrite (identifier_not_token A "(" HA eq_refl).
  rewrite (identifier_ident_match A HA). simpl. rewrite Hp. reflexivity.
Qed.

Lemma run_not_identifier (n : nat) ts (p : nat) A :
  ts !! p = Some A -> is_identifier A = true ->
  run ENot (S (S n)) (mkParser ts p) = Done (Var A, mkParser ts (p + 1)).
Proof.
  intros Hp HA. rewrite run_S. unfold and_then at 1. unfold peek. simpl.
  rewrite Hp. unfold is_tok.
  rewrite (identifier_not_token A "~" HA eq_refl).
  apply run_atom_identifier; assumption.
Qed.

(** A [while] loop whose operator is not the next token returns the
    operand built so far. *)
Lemma run_loop_stop (n : nat) k (l : Expr) (op : string) ts (p : nat) :
  (k = EIffLoop l /\ op = "<->") \/ (k = EOrLoop l /\ op = "|")
  \/ (k = EAndLoop l /\ op = "&") ->
  is_tok (ts !! p) op = false ->
  run k (S n) (mkParser ts p) = Done (l, mkParser ts p).
Proof.
  intros Hk Hop. rewrite run_S.
  destruct Hk as [[-> ->]|[[-> ->]|[-> ->]]];
    unfold and_then, peek, ret; simpl; rewrite Hop; reflexivity.
Qed.

Lemma run_and_operand (n : nat) ts (p : nat) A :
  ts !! p = Some A -> is_identifier A = true ->
  is_tok (ts !! (p + 1)) "&" = false ->
  run EAnd (S (S (S n))) (mkParser ts p)
  = Done (Var A, mkParser ts (p + 1)).
Proof.
  intros Hp HA Hnext. rewrite run_S. unfold and_then.
  rewrite (run_not_identifier n ts p A Hp HA).
  apply (run_loop_stop _ _ (Var A) "&"); auto.
Qed.

Lemma run_or_operand (n : nat) ts (p : nat) A :
  ts !! p = Some A -> is_identifier A = true ->
  is_tok (ts !! (p + 1)) "&" = false ->
  is_tok (ts !! (p + 1)) "|" = false ->
  run EOr (S (S (S (S n)))) (mkParser ts p)
  = Done (Var A, mkParser ts (p + 1)).
Proof.
  intros Hp HA Hand Hor. rewrite run_S. unfold and_then.
  rewrite (run_and_operand n ts p A Hp HA Hand).
  apply (run_loop_stop _ _ (Var A) "|"); auto.
Qed.

Lemma run_imp_operand (n : nat) ts (p : nat) A :
  ts !! p = Some A -> is_identifier A = true ->
  is_tok (ts !! (p + 1)) "&" = false ->
  is_tok (ts !! (p + 1)) "|" = false ->
  is_tok (ts !! (p + 1)) "->" = false ->
  run EImp (S (S (S (S (S n))))) (mkParser ts p)
  = Done (Var A, mkParser ts (p + 1)).
Proof.
  intros Hp HA Hand Hor Himp. rewrite run_S. unfold and_then at 1.
  rewrite (run_or_operand n ts p A Hp HA Hand Hor).
  unfold and_then, peek, ret. simpl. rewrite Himp. reflexivity.
Qed.

(** Any number of [~] in front of an identifier. *)
Lemma run_not_tildes (m n : nat) ts (p : nat) A :
  (forall i, i < m -> ts !! (p + i) = Some "~") ->
  ts !! (p + m) = Some A -> is_identifier A = true ->
  run ENot (S (S (m + n))) (mkParser ts p)
  = Done (Nat.iter m Not (Var A), mkParser ts (p + m + 1)).
Proof.
  revert p. induction m as [|m IH]; intros p Htil HA Hid.
  - rewrite Nat.add_0_r in *. apply run_not_identifier; assumption.
  - rewrite run_S. unfold and_then at 1. unfold peek. simpl.
    pose proof (Htil 0 ltac:(lia)) as H0. rewrite Nat.add_0_r in H0.
    rewrite H0. unfold is_tok at 1. simpl.
    unfold and_then at 1. unfold pop at 1. simpl. rewrite H0.
    unfold and_then at 1. rewrite (IH (p + 1)).
    + unfold ret. simpl. do 3 f_equal. lia.
    + intros i Hi. replace (p + 1 + i) with (p + S i) by lia.
      apply Htil. lia.
    + replace (p + 1 + m) with (p + S m) by lia. exact HA.
    + exact Hid.
Qed.

End Operands.

Section Associativity.

Variables A B C : string.
Hypothesis HA : is_identifier A = true.
Hypothesis HB : is_identifier B = true.
Hypothesis HC : is_identifier C = true.

Lemma tokenize_operator (op X : string) :
  op = "|" \/ op = "&" \/ op = "->" \/ op = "<->" ->
  tokenize (" " +:+ op +:+ " " +:+ X) = op :: tokenize X.
Proof.
  intros [-> | [-> | [-> | ->]]]; rewrite tokenize_unfold; simpl;
    change (EmptyString +:+ " " +:+ X) with (String " " X);
    rewrite tokenize_space by reflexivity; reflexivity.
Qed.

Lemma tokenize_chain (op : string) :
  op = "|" \/ op = "&" \/ op = "->" \/ op = "<->" ->
  tokenize (A +:+ " " +:+ op +:+ " " +:+ B +:+ " " +:+ op +:+ " " +:+ C)
  = [A; op; B; op; C].
Proof.
  intros Hop.
  rewrite tokenize_identifier by (exact HA || reflexivity).
  rewrite tokenize_operator by exact Hop.
  rewrite tokenize_identifier by (exact HB || reflexivity).
  rewrite tokenize_operator by exact Hop.
  rewrite tokenize_identifier_end by exact HC. reflexivity.
Qed.

(** Open one level of the call at the head of the goal. *)
Ltac run_step :=
  match goal with
  | |- context [run ?k (S ?n) (mkParser ?ts ?p)] =>
      let H := fresh "Hstep" in
      pose proof (f_equal (fun m : M Expr => m (mkParser ts p))
                    (run_S k n)) as H;
      cbv beta iota in H; rewrite H; clear H;
      unfold and_then, peek, pop, ret, raise, is_tok; simpl
  end.

(** Read an identifier operand at the head call, at the highest rule
    that stops after it. *)
Ltac operand_step :=
  match goal with
  | |- context [run _ (S _) (mkParser ?ts ?p)] =>
      match eval cbv in (ts !! p) with
      | Some ?X =>
          first
            [ rewrite (run_imp_operand _ ts p X eq_refl
                         ltac:(assumption) eq_refl eq_refl eq_refl)
            | rewrite (run_or_operand _ ts p X eq_refl
                         ltac:(assumption) eq_refl eq_refl)
            | rewrite (run_and_operand _ ts p X eq_refl
                         ltac:(assumption) eq_refl)
            | rewrite (run_not_identifier _ ts p X eq_refl
                         ltac:(assumption)) ]
      end
  end; simpl.

Ltac run_chain :=
  unfold Parser_parse; change (parse_iff ?n) with (run EIff n);
  cbn [tokens length Nat.mul Nat.add];
  unfold and_then at 1;
  repeat first [ operand_step | run_step ];
  reflexivity.

Lemma Parser_parse_or_chain :
  Parser_parse (mkParser [A; "|"; B; "|"; C] 0)
  = Done (Or (Or (Var A) (Var B)) (Var C),
          mkParser [A; "|"; B; "|"; C] 5).
Proof. run_chain. Qed.

Lemma Parser_parse_and_chain :
  Parser_parse (mkParser [A; "&"; B; "&"; C] 0)
  = Done (And (And (Var A) (Var B)) (Var C),
          mkParser [A; "&"; B; "&"; C] 5).
Proof. run_chain. Qed.

Lemma Parser_parse_iff_chain :
  Parser_parse (mkParser [A; "<->"; B; "<->"; C] 0)
  = Done (Iff (Iff (Var A) (Var B)) (Var C),
          mkParser [A; "<->"; B; "<->"; C] 5).
Proof. run_chain. Qed.

Lemma Parser_parse_imp_chain :
  Parser_parse (mkParser [A; "->"; B; "->"; C] 0)
  = Done (Implies (Var A) (Implies (Var B) (Var C)),
          mkParser [A; "->"; B; "->"; C] 5).
Proof. run_chain. Qed.

Lemma Parser_parse_tildes (n : nat) :
  Parser_parse (mkParser (replicate n "~" ++ [A]) 0)
  = Done (Nat.iter n Not (Var A),
          mkParser (replicate n "~" ++ [A]) (n + 1)).
Proof.
  set (ts := replicate n "~" ++ [A]).
  assert (Hlen : length ts = n + 1)
    by (unfold ts; rewrite length_app, length_replicate; reflexivity).
  assert (Htil : forall i, i < n -> ts !! (0 + i) = Some "~").
  { intros i Hi. unfold ts. simpl.
    rewrite lookup_app_l by (rewrite length_replicate; exact Hi).
    apply lookup_replicate. auto. }
  assert (HAn : ts !! (0 + n) = Some A).
  { unfold ts. simpl.
    rewrite lookup_app_r by (rewrite length_replicate; lia).
    rewrite length_replicate, Nat.sub_diag. reflexivity. }
  assert (Hend : ts !! (n + 1) = None)
    by (apply lookup_ge_None; lia).
  unfold Parser_parse. change (parse_iff ?m) with (run EIff m).
  cbn [tokens]. rewrite Hlen.
  replace (8 * (n + 1) + 7)
    with (S (S (S (S (S (S (n + (7 * n + 9)))))))) by lia.
  unfold and_then at 1.
  rewrite (run_S EIff). unfold and_then at 1.
  rewrite (run_S EImp). unfold and_then at 1.
  rewrite (run_S EOr). unfold and_then at 1.
  rewrite (run_S EAnd). unfold and_then at 1.
  rewrite (run_not_tildes n _ ts 0 A Htil HAn HA).
  simpl (0 + n + 1).
  rewrite (run_loop_stop _ _ _ "&")
    by (auto || (rewrite Hend; reflexivity)).
  rewrite (run_loop_stop _ _ _ "|")
    by (auto || (rewrite Hend; reflexivity)).
  unfold and_then at 1. unfold peek at 1. cbn [tokens pos].
  rewrite Hend. unfold is_tok at 1. unfold ret at 1.
  rewrite (run_loop_stop _ _ _ "<->")
    by (auto || (rewrite Hend; reflexivity)).
  unfold and_then, peek, ret. cbn [tokens pos]. rewrite Hend. reflexivity.
Qed.

End Associativity.

(** C7: the associativity of the parser is fixed.  For all identifiers [A],
    [B], [C]: ["A | B | C"] parses to [Or(Or(A,B),C)], and likewise [&] and
    [<->] fold to the left; ["A -> B -> C"] parses to
    [Implies(A, Implies(B,C))]; and any number [n] of [~] in front of [A]
    parses to [n] nested [Not]. *)
Theorem parse_associativity (A B C : string) :
  is_identifier A = true -> is_identifier B = true ->
  is_identifier C = true ->
  parse (A +:+ " | " +:+ B +:+ " | " +:+ C)
  = Done (Or (Or (Var A) (Var B)) (Var C))
  /\ parse (A +:+ " & " +:+ B +:+ " & " +:+ C)
     = Done (And (And (Var A) (Var B)) (Var C))
  /\ parse (A +:+ " <-> " +:+ B +:+ " <-> " +:+ C)
     = Done (Iff (Iff (Var A) (Var B)) (Var C))
  /\ parse (A +:+ " -> " +:+ B +:+ " -> " +:+ C)
     = Done (Implies (Var A) (Implies (Var B) (Var C)))
  /\ forall n : nat, parse (tildes n +:+ A) = Done (Nat.iter n Not (Var A)).
Proof.
  intros HA HB HC.
  repeat split.
  - unfold parse.
    change (A +:+ " | " +:+ B +:+ " | " +:+ C)
      with (A +:+ " " +:+ "|" +:+ " " +:+ B +:+ " " +:+ "|" +:+ " " +:+ C).
    rewrite (tokenize_chain A B C HA HB HC "|") by auto.
    rewrite (Parser_parse_or_chain A B C HA HB HC). reflexivity.
  - unfold parse.
    change (A +:+ " & " +:+ B +:+ " & " +:+ C)
      with (A +:+ " " +:+ "&" +:+ " " +:+ B +:+ " " +:+ "&" +:+ " " +:+ C).
    rewrite (tokenize_chain A B C HA HB HC "&") by auto.
    rewrite (Parser_parse_and_chain A B C HA HB HC). reflexivity.
  - unfold parse.
    change (A +:+ " <-> " +:+ B +:+ " <-> " +:+ C)
      with (A +:+ " " +:+ "<->" +:+ " " +:+ B +:+ " " +:+ "<->" +:+ " " +:+ C).
    rewrite (tokenize_chain A B C HA HB HC "<->") by auto.
    rewrite (Parser_parse_iff_chain A B C HA HB HC). reflexivity.
  - unfold parse.
    change (A +:+ " -> " +:+ B +:+ " -> " +:+ C)
      with (A +:+ " " +:+ "->" +:+ " " +:+ B +:+ " " +:+ "->" +:+ " " +:+ C).
    rewrite (tokenize_chain A B C HA HB HC "->") by auto.
    rewrite (Parser_parse_imp_chain A B C HA HB HC). reflexivity.
  - intros n. unfold parse.
    rewrite tokenize_tildes, tokenize_identifier_end by exact HA.
    rewrite (Parser_parse_tildes A HA n).
    destruct (replicate n "~" ++ [A]) eqn:E; [|reflexivity].
    apply app_eq_nil in E as [_ [=]].
Qed.

Lemma parse_associativity_witness :
  is_identifier "p" = true /\ is_identifier "q_1" = true
  /\ is_identifier "R" = true
  /\ parse "p | q_1 | R" = Done (Or (Or (Var "p") (Var "q_1")) (Var "R"))
  /\ parse "p -> q_1 -> R"
     = Done (Implies (Var "p") (Implies (Var "q_1") (Var "R")))
  /\ parse "~~~p" = Done (Not (Not (Not (Var "p")))).
Proof.
  pose proof (parse_associativity "p" "q_1" "R" eq_refl eq_refl eq_refl)
    as (Hor & _ & _ & Himp & Hnot).
  split; [reflexivity|]. split; [reflexivity|]. split; [reflexivity|].
  split; [exact Hor|]. split; [exact Himp | exact (Hnot 3)].
Defined.

(** ** Parentheses of an accepted input *)

Section Balance.

Implicit Types (k : entry) (self : Parser) (e : Expr) (ts : list string).

Lemma same_depth_refl ts (p : nat) : same_depth ts p p.
Proof. intros d. reflexivity. Qed.

Lemma same_depth_trans ts (p q r : nat) :
  same_depth ts p q -> same_depth ts q r -> same_depth ts p r.
Proof. intros H1 H2 d. rewrite H1. apply H2. Qed.

Lemma open_depth_pop ts (p : nat) (t : string) (d : nat) :
  ts !! p = Some t ->
  open_depth d (drop p ts)
  = open_depth (if String.eqb t "(" then S d
                else if String.eqb t ")" then Nat.pred d else d)
      (drop (p + 1) ts).
Proof.
  intros Hp. rewrite (drop_S ts t p Hp), Nat.add_1_r. simpl.
  destruct (String.eqb t "("); [reflexivity|].
  destruct (String.eqb t ")"); reflexivity.
Qed.

(** Stepping over a token that is not a parenthesis keeps the depth. *)
Lemma same_depth_token ts (p : nat) (t : string) :
  ts !! p = Some t -> String.eqb t "(" = false -> String.eqb t ")" = false ->
  same_depth ts p (p + 1).
Proof.
  intros Hp Ho Hc d. rewrite (open_depth_pop ts p t d Hp), Ho, Hc.
  reflexivity.
Qed.

Lemma same_depth_operator ts (p : nat) (t op : string) :
  ts !! p = Some t -> is_tok (Some t) op = true ->
  String.eqb op "(" = false -> String.eqb op ")" = false ->
  same_depth ts p (p + 1).
Proof.
  unfold is_tok. intros Hp Hop Ho Hc. apply String.eqb_eq in Hop as ->.
  eapply same_depth_token; eassumption.
Qed.

Lemma same_depth_identifier ts (p : nat) (t : string) :
  ts !! p = Some t -> ident_match t = true -> same_depth ts p (p + 1).
Proof.
  intros Hp Ht. eapply same_depth_token; [exact Hp | |];
    destruct (String.eqb_spec t "(") as [->|]; try discriminate;
    destruct (String.eqb_spec t ")") as [->|]; try discriminate;
    reflexivity.
Qed.

(** [( ... )] around a stretch of tokens that keeps the depth keeps it. *)
Lemma same_depth_parentheses ts (p q : nat) (t t' : string) :
  ts !! p = Some t -> String.eqb t "(" = true ->
  same_depth ts (p + 1) q ->
  ts !! q = Some t' -> is_tok (Some t') ")" = true ->
  same_depth ts p (q + 1).
Proof.
  unfold is_tok. intros Hp Ho Hin Hq Hc d.
  rewrite (open_depth_pop ts p t d Hp), Ho, Hin.
  rewrite (open_depth_pop ts q t' (S d) Hq), Hc.
  destruct (String.eqb t' "(") eqn:E; [|reflexivity].
  apply String.eqb_eq in E. apply String.eqb_eq in Hc. congruence.
Qed.

(** Follow the facts at hand from the position where a method starts to
    the one where it stops. *)
Ltac depth_chain :=
  solve
    [ apply same_depth_refl
    | eassumption
    | eapply same_depth_parentheses; eassumption
    | eapply same_depth_trans; [eassumption | depth_chain]
    | eapply same_depth_trans;
        [ eapply same_depth_operator;
            [eassumption | eassumption | reflexivity | reflexivity]
        | depth_chain ]
    | eapply same_depth_trans;
        [ eapply same_depth_identifier; eassumption | depth_chain ] ].

(** What a method reads is balanced. *)
Lemma run_same_depth (n : nat) k self e self' :
  run k n self = Done (e, self') ->
  same_depth (tokens self) (pos self) (pos self').
Proof.
  revert k self e self'. induction n as [|n IH]; intros k self e self' H.
  - rewrite run_O in H. discriminate.
  - rewrite run_S in H.
    destruct k; unfold and_then, peek, pop, ret, raise in H; simpl in H;
      parser_cases; try discriminate;
      repeat match goal with
             | H : Done _ = Done _ |- _ => injection H as <- <-
             | E : run _ n _ = Done _ |- _ =>
                 let P := fresh "Hprog" in
                 pose proof (run_progress _ _ _ _ _ E) as [P _];
                 apply IH in E; simpl in E, P
             end;
      repeat match goal with
             | P : tokens _ = tokens _ |- _ => rewrite P in *; clear P
             | E : Some _ = Some _ |- _ => injection E as E; subst
             end;
      simpl;
      try match goal with
          | E : negb (is_tok _ _) = false |- _ =>
              apply negb_false_iff in E
          end;
      try match goal with
          | E : is_tok None _ = true |- _ => cbv in E; discriminate E
          end;
      depth_chain.
Qed.

(** Whatever a method raises is a [ParserError]. *)
Lemma run_Fail_ParserError (n : nat) k self (x : Exception) :
  run k n self = Fail x -> exists msg, x = ParserError msg.
Proof.
  revert k self x. induction n as [|n IH]; intros k self x H.
  - rewrite run_O in H. discriminate.
  - rewrite run_S in H.
    destruct k; unfold and_then, peek, pop, ret, raise in H; simpl in H;
      parser_cases; try discriminate;
      try (injection H as <-); eauto.
Qed.

End Balance.

Lemma parse_Done_balanced (s : string) (e : Expr) :
  parse s = Done e -> unmatched_open (tokenize s) = false.
Proof.
  unfold parse. destruct (tokenize s) as [|t ts]; [discriminate|].
  unfold Parser_parse, and_then, peek, ret, raise.
  change (parse_iff ?n) with (run EIff n). cbn [tokens].
  destruct (run EIff _ (mkParser (t :: ts) 0)) as [[e' self']| |] eqn:Hrun;
    try discriminate.
  destruct (tokens self' !! pos self') eqn:Hend; [discriminate|]. intros _.
  pose proof (run_progress _ _ _ _ _ Hrun) as [Htok _].
  pose proof (run_same_depth _ _ _ _ _ Hrun 0) as Hd.
  simpl tokens in *. simpl pos in *. rewrite Htok in Hend.
  apply lookup_ge_None in Hend.
  rewrite drop_0, (drop_ge _ _ Hend) in Hd.
  unfold unmatched_open. rewrite Hd. reflexivity.
Qed.

Lemma parse_Fail_ParserError (s : string) (x : Exception) :
  parse s = Fail x -> exists msg, x = ParserError msg.
Proof.
  unfold parse. destruct (tokenize s) as [|t ts].
  - intros [= <-]. eauto.
  - unfold Parser_parse, and_then, peek, ret, raise.
    change (parse_iff ?n) with (run EIff n).
    destruct (run EIff _ (mkParser (t :: ts) 0)) as [[e' self']|y|] eqn:Hrun.
    + destruct (tokens self' !! pos self'); [|discriminate].
      intros [= <-]. eauto.
    + intros [= <-]. eapply run_Fail_ParserError, Hrun.
    + discriminate.
Qed.

(** * Further properties *)

(** ** Evaluation errors *)

(** X1: when [eval] raises, it raises [KeyError(x)] for a free variable [x]
    of the expression that the valuation does not bind. *)
Theorem eval_raises_unbound_variable (e : Expr) (v : Valuation)
    (x : Exception) :
  eval e v = Raise x ->
  exists name, x = KeyError name /\ name ∈ vars e /\ v !! name = None.
Proof.
  induction e as [name|c IH|l IHl r IHr|l IHl r IHr|l IHl r IHr|l IHl r IHr];
    simpl.
  - unfold getitem. destruct (v !! name) eqn:Hv; [discriminate|].
    intros [= <-]. exists name. split; [reflexivity|]. split; [set_solver|].
    exact Hv.
  - unfold lift. destruct (eval c v); simpl; [discriminate|].
    intros [= <-]. apply IH. reflexivity.
  - destruct (eval l v) as [[|]|y]; simpl; intros H; try discriminate;
      [destruct (IHr H) as (nm & ? & ? & ?)
      |injection H as <-; destruct (IHl eq_refl) as (nm & ? & ? & ?)];
      exists nm; split; [assumption | split; [set_solver | assumption]
                        | assumption | split; [set_solver | assumption]].
  - destruct (eval l v) as [[|]|y]; simpl; intros H; try discriminate;
      [destruct (IHr H) as (nm & ? & ? & ?)
      |injection H as <-; destruct (IHl eq_refl) as (nm & ? & ? & ?)];
      exists nm; split; [assumption | split; [set_solver | assumption]
                        | assumption | split; [set_solver | assumption]].
  - destruct (eval l v) as [[|]|y]; simpl; intros H; try discriminate;
      [destruct (IHr H) as (nm & ? & ? & ?)
      |injection H as <-; destruct (IHl eq_refl) as (nm & ? & ? & ?)];
      exists nm; split; [assumption | split; [set_solver | assumption]
                        | assumption | split; [set_solver | assumption]].
  - destruct (eval l v) as [bl|y]; simpl.
    + destruct (eval r v) as [br|y]; simpl; [discriminate|].
      intros [= <-]. destruct (IHr eq_refl) as (nm & ? & ? & ?).
      exists nm. split; [assumption | split; [set_solver | assumption]].
    + intros [= <-]. destruct (IHl eq_refl) as (nm & ? & ? & ?).
      exists nm. split; [assumption | split; [set_solver | assumption]].
Qed.

Lemma eval_raises_unbound_variable_witness :
  eval (Or (Var "A") (Var "B")) (dict [("A", false)]) = Raise (KeyError "B")
  /\ exists name,
       KeyError "B" = KeyError name
       /\ name ∈ vars (Or (Var "A") (Var "B"))
       /\ dict [("A", false)] !! name = None.
Proof.
  split; [reflexivity|].
  apply (eval_raises_unbound_variable (Or (Var "A") (Var "B"))
           (dict [("A", false)]) (KeyError "B")).
  reflexivity.
Defined.

(** ** Entailment as a consequence relation *)

Section Consequence.

Implicit Types (axioms : list Expr) (p q a : Expr) (v : Valuation).

Lemma satisfies_cons a axioms v :
  satisfies (a :: axioms) v <-> eval a v = Ok true /\ satisfies axioms v.
Proof.
  unfold satisfies. simpl. rewrite bind_Ok. split.
  - intros (b & Hb & H). destruct b; [auto | discriminate].
  - intros [Ha H]. exists true. auto.
Qed.

Lemma satisfies_elem axioms a v :
  satisfies axioms v -> a ∈ axioms -> eval a v = Ok true.
Proof. intros H Ha. apply (proj1 (all_eval_true axioms v) H a Ha). Qed.

Lemma vars_union_mono (es1 es2 : list Expr) :
  (forall e, e ∈ es1 -> e ∈ es2) -> vars_union es1 ⊆ vars_union es2.
Proof.
  intros H x Hx. apply elem_of_vars_union in Hx as (e & He & Hxe).
  apply elem_of_vars_union. eauto.
Qed.

Lemma entails_eq axioms p axioms' p' :
  (entails axioms p = Ok true <-> entails axioms' p' = Ok true) ->
  entails axioms p = entails axioms' p'.
Proof.
  destruct (entails_Ok axioms p) as [b ->].
  destruct (entails_Ok axioms' p') as [b' ->].
  intros [H1 H2]. destruct b, b'; try reflexivity.
  - specialize (H1 eq_refl). discriminate.
  - specialize (H2 eq_refl). discriminate.
Qed.

Lemma extend_total (X : gset string) v : total_on X (extend X v).
Proof.
  intros x Hx. unfold extend. rewrite lookup_union.
  destruct (v !! x) as [b|] eqn:Hv.
  - destruct (gset_to_gmap false X !! x); simpl; eauto.
  - rewrite (proj2 (lookup_gset_to_gmap_Some false X x false))
      by auto. simpl. eauto.
Qed.

Lemma extend_agree (X Y : gset string) v :
  total_on Y v -> agree_on Y (extend X v) v.
Proof.
  intros Htot x Hx. unfold extend.
  apply lookup_union_l', Htot, Hx.
Qed.

Lemma extend_total_old (X Y : gset string) v :
  total_on Y v -> total_on Y (extend X v).
Proof.
  intros Htot x Hx. rewrite (extend_agree X Y v Htot x Hx). apply Htot, Hx.
Qed.

End Consequence.

(** X2: deduction theorem: [entails([a] + axioms, p)] and
    [entails(axioms, Implies(a, p))] return the same boolean. *)
Theorem entails_deduction (a : Expr) (axioms : list Expr) (p : Expr) :
  entails (a :: axioms) p = entails axioms (Implies a p).
Proof.
  apply entails_eq. rewrite !entails_semantic.
  assert (HX : vars_union ((a :: axioms) ++ [p])
               = vars_union (axioms ++ [Implies a p])).
  { change (a :: axioms) with ([a] ++ axioms).
    rewrite !vars_union_app, !vars_union_singleton. simpl. set_solver. }
  rewrite HX.
  assert (Ha : vars a ⊆ vars_union (axioms ++ [Implies a p])).
  { rewrite vars_union_app, vars_union_singleton. simpl. set_solver. }
  split.
  - intros H v Htot Hsat. simpl.
    destruct (eval_total a v) as [b Hb];
      [eapply total_on_mono; [exact Ha | exact Htot]|].
    rewrite Hb. simpl. destruct b; simpl; [|reflexivity].
    apply H; [exact Htot|]. apply satisfies_cons. auto.
  - intros H v Htot Hsat. apply satisfies_cons in Hsat as [Hav Hsat].
    specialize (H v Htot Hsat). simpl in H. rewrite Hav in H. exact H.
Qed.

(** X3: entailment is monotone: when the axioms entail a proposition, so
    does every list of axioms that contains them all. *)
Theorem entails_weakening (axioms axioms' : list Expr) (p : Expr) :
  (forall a, a ∈ axioms -> a ∈ axioms') ->
  entails axioms p = Ok true -> entails axioms' p = Ok true.
Proof.
  intros Hincl. rewrite !entails_semantic. intros H v Htot Hsat.
  apply H.
  - eapply total_on_mono; [|exact Htot]. apply vars_union_mono.
    intros e He. apply elem_of_app in He as [He|He]; apply elem_of_app; auto.
  - apply all_eval_true. intros a Ha.
    apply (satisfies_elem axioms' a v Hsat), Hincl, Ha.
Qed.

Lemma entails_weakening_witness :
  (forall a, a ∈ [Var "A"] -> a ∈ [Var "B"; Var "A"])
  /\ entails [Var "A"] (Or (Var "A") (Var "C")) = Ok true
  /\ entails [Var "B"; Var "A"] (Or (Var "A") (Var "C")) = Ok true.
Proof.
  assert (H1 : forall a, a ∈ [Var "A"] -> a ∈ [Var "B"; Var "A"]).
  { intros a Ha. apply list_elem_of_singleton in Ha as ->. right. left. }
  assert (H2 : entails [Var "A"] (Or (Var "A") (Var "C")) = Ok true)
    by (vm_compute; reflexivity).
  split; [exact H1|]. split; [exact H2|].
  exact (entails_weakening [Var "A"] [Var "B"; Var "A"]
           (Or (Var "A") (Var "C")) H1 H2).
Defined.

(** X4: the axioms entail each of their members. *)
Theorem entails_member (axioms : list Expr) (p : Expr) :
  p ∈ axioms -> entails axioms p = Ok true.
Proof.
  intros Hp. apply entails_semantic. intros v _ Hsat.
  exact (satisfies_elem axioms p v Hsat Hp).
Qed.

Lemma entails_member_witness :
  Not (Var "B") ∈ [Var "A"; Not (Var "B")]
  /\ entails [Var "A"; Not (Var "B")] (Not (Var "B")) = Ok true.
Proof.
  assert (H : Not (Var "B") ∈ [Var "A"; Not (Var "B")]) by (right; left).
  split; [exact H|].
  exact (entails_member [Var "A"; Not (Var "B")] (Not (Var "B")) H).
Defined.

(** X5: cut: a proposition entailed by the axioms may be used as one more
    axiom without entailing anything new, even when it mentions variables
    the axioms and the conclusion do not. *)
Theorem entails_cut (axioms : list Expr) (p q : Expr) :
  entails axioms p = Ok true -> entails (p :: axioms) q = Ok true ->
  entails axioms q = Ok true.
Proof.
  rewrite !entails_semantic. intros Hp Hq v Htot Hsat.
  set (Y := vars_union (axioms ++ [q])) in *.
  set (v' := extend (vars p) v).
  assert (Hag : agree_on Y v' v) by (apply extend_agree, Htot).
  assert (Hax : vars_union axioms ⊆ Y /\ vars q ⊆ Y).
  { unfold Y. rewrite vars_union_app, vars_union_singleton. set_solver. }
  destruct Hax as [Hax Hvq].
  assert (Hsat' : satisfies axioms v').
  { unfold satisfies. rewrite <- Hsat. apply all_eval_agree.
    eapply agree_on_mono; [exact Hax | exact Hag]. }
  assert (Htot' : total_on Y v') by (apply extend_total_old, Htot).
  assert (Htotp : total_on (vars p) v') by apply extend_total.
  rewrite <- (eval_agree q v' v)
    by (eapply agree_on_mono; [exact Hvq | exact Hag]).
  apply Hq.
  - change (p :: axioms) with ([p] ++ axioms).
    rewrite <- app_assoc, vars_union_app, vars_union_singleton.
    intros x Hx. apply elem_of_union in Hx as [Hx|Hx]; auto.
  - apply satisfies_cons. split; [|exact Hsat'].
    apply Hp; [|exact Hsat'].
    rewrite vars_union_app, vars_union_singleton.
    intros x Hx. apply elem_of_union in Hx as [Hx|Hx]; auto.
Qed.

Lemma entails_cut_witness :
  entails [Var "A"] (Or (Var "A") (Var "B")) = Ok true
  /\ entails [Or (Var "A") (Var "B"); Var "A"] (Not (Not (Var "A")))
     = Ok true
  /\ entails [Var "A"] (Not (Not (Var "A"))) = Ok true.
Proof.
  assert (H1 : entails [Var "A"] (Or (Var "A") (Var "B")) = Ok true)
    by (vm_compute; reflexivity).
  assert (H2 : entails [Or (Var "A") (Var "B"); Var "A"]
                 (Not (Not (Var "A"))) = Ok true)
    by (vm_compute; reflexivity).
  split; [exact H1|]. split; [exact H2|].
  exact (entails_cut [Var "A"] (Or (Var "A") (Var "B"))
           (Not (Not (Var "A"))) H1 H2).
Defined.

(** ** The enumeration and the models *)

Section Models.

Implicit Types (axioms : list Expr) (v : Valuation) (vs : list string).

Lemma NoDup_product (n : nat) : NoDup (product [false; true] n).
Proof.
  induction n as [|n IH]; simpl.
  - apply NoDup_singleton.
  - rewrite app_nil_r. apply NoDup_app. split; [|split].
    + apply NoDup_fmap_2_strong; [|exact IH]. intros x y _ _ [= ->].
      reflexivity.
    + intros bits H1 H2.
      apply list_elem_of_fmap in H1 as (t1 & -> & _).
      apply list_elem_of_fmap in H2 as (t2 & [=] & _).
    + apply NoDup_fmap_2_strong; [|exact IH]. intros x y _ _ [= ->].
      reflexivity.
Qed.

(** Different truth values for a duplicate-free list of names give
    different dictionaries. *)
Lemma dict_zip_inj vs (bits1 bits2 : list bool) :
  NoDup vs -> length bits1 = length vs -> length bits2 = length vs ->
  dict (zip vs bits1) = dict (zip vs bits2) -> bits1 = bits2.
Proof.
  intros Hnd H1 H2 Heq. apply list_eq. intros j.
  destruct (vs !! j) as [x|] eqn:Hj.
  - rewrite <- (dict_zip_lookup vs bits1 j x Hnd H1 Hj).
    rewrite <- (dict_zip_lookup vs bits2 j x Hnd H2 Hj).
    rewrite Heq. reflexivity.
  - apply lookup_ge_None in Hj.
    rewrite !(proj2 (lookup_ge_None _ _)) by lia. reflexivity.
Qed.

Lemma NoDup_all_valuations vs : NoDup vs -> NoDup (all_valuations vs).
Proof.
  intros Hnd. unfold all_valuations.
  apply NoDup_fmap_2_strong; [|apply NoDup_product].
  intros b1 b2 Hb1 Hb2. apply elem_of_product in Hb1, Hb2.
  apply dict_zip_inj; assumption.
Qed.

Lemma first_models_sublist axioms (n : nat) :
  first_models axioms n
    `sublist_of` all_valuations (sorted (vars_union axioms)).
Proof.
  unfold first_models. etransitivity; [apply sublist_take|].
  apply sublist_filter.
Qed.

Lemma elem_of_first_models axioms (n : nat) v :
  v ∈ first_models axioms n ->
  dom v = vars_union axioms /\ satisfies axioms v.
Proof.
  unfold first_models. intros Hv.
  apply (subseteq_take n _ v) in Hv.
  apply list_elem_of_filter in Hv as [Hsat Hv].
  apply elem_of_enumeration in Hv. auto.
Qed.

Lemma contradiction_loop_spec (e : Expr) (vals : list Valuation) :
  (forall v, v ∈ vals -> exists b, eval e v = Ok b) ->
  (exists b, contradiction_loop e vals = Ok b)
  /\ (contradiction_loop e vals = Ok true
      <-> forall v, v ∈ vals -> eval e v = Ok false).
Proof.
  induction vals as [|v rest IH]; intros Htot; simpl.
  - split; [eauto|]. split; [intros _ v Hv; inversion Hv | reflexivity].
  - destruct (Htot v) as [b Hb]; [left|]. rewrite Hb. simpl.
    destruct IH as [IH1 IH2]; [intros w Hw; apply Htot; right; exact Hw|].
    destruct b; simpl.
    + split; [eauto|]. split; [discriminate|].
      intros H. rewrite (H v) in Hb by left. discriminate.
    + split; [exact IH1|]. rewrite IH2. split.
      * intros H w Hw. apply elem_of_cons in Hw as [->|Hw]; auto.
      * intros H w Hw. apply H. right. exact Hw.
Qed.

Lemma enumeration_eval_total (e : Expr) v :
  v ∈ all_valuations (sorted (vars e)) -> exists b, eval e v = Ok b.
Proof.
  intros Hv. apply eval_total.
  eapply enumeration_total; [reflexivity | exact Hv].
Qed.

Lemma enumeration_nonempty (X : gset string) :
  exists v, v ∈ all_valuations (sorted X).
Proof.
  pose proof (length_all_valuations (sorted X)) as Hlen.
  destruct (all_valuations (sorted X)) as [|v l]; [|exists v; left].
  simpl in Hlen. pose proof (Nat.pow_nonzero 2 (length (sorted X))). lia.
Qed.

End Models.

(** X6: [all_valuations] over a list of distinct names yields every total
    assignment of booleans to these names exactly once: 2^n dictionaries,
    pairwise different, and a dictionary is among them exactly when its key
    set is the set of the names. *)
Theorem all_valuations_exactly_once (vars_list : list string) :
  NoDup vars_list ->
  length (all_valuations vars_list) = 2 ^ length vars_list
  /\ NoDup (all_valuations vars_list)
  /\ forall v : Valuation,
       v ∈ all_valuations vars_list <-> dom v = list_to_set vars_list.
Proof.
  intros Hnd. split; [apply length_all_valuations|].
  split; [apply NoDup_all_valuations, Hnd|].
  intros v. apply elem_of_all_valuations.
Qed.

Lemma all_valuations_exactly_once_witness :
  NoDup ["A"; "B"; "C"]
  /\ length (all_valuations ["A"; "B"; "C"]) = 2 ^ length ["A"; "B"; "C"]
  /\ NoDup (all_valuations ["A"; "B"; "C"]).
Proof.
  assert (H : NoDup ["A"; "B"; "C"]).
  { repeat constructor; intros Hin;
      repeat (apply elem_of_cons in Hin as [Hin|Hin]; [discriminate|]);
      inversion Hin. }
  pose proof (all_valuations_exactly_once ["A"; "B"; "C"] H)
    as (Hlen & Hnd & _).
  split; [exact H|]. split; [exact Hlen | exact Hnd].
Defined.

(** X7: for every integer bound, zero and negative ones included,
    [is_satisfiable] returns normally; every model it returns binds exactly
    the axioms' variables and satisfies all axioms, the models are pairwise
    different, there are at most [max(1, max_models)] of them, and the
    boolean tells whether the list is non-empty. *)
Theorem is_satisfiable_models (axioms : list Expr) (max_models : Z) :
  exists sat models,
    is_satisfiable axioms max_models = Ok (sat, models)
    /\ (sat = true <-> models <> [])
    /\ (Z.of_nat (length models) <= Z.max 1 max_models)%Z
    /\ NoDup models
    /\ forall v, v ∈ models ->
         dom v = vars_union axioms
         /\ forall a, a ∈ axioms -> eval a v = Ok true.
Proof.
  do 2 eexists. split; [apply is_satisfiable_spec|].
  set (models := first_models axioms (cap max_models)).
  split; [|split; [|split]].
  - rewrite Nat.ltb_lt. destruct models; simpl; split;
      intros H; try lia; congruence.
  - unfold models, first_models, cap. rewrite length_take. lia.
  - eapply sublist_NoDup; [|apply first_models_sublist].
    apply NoDup_all_valuations, NoDup_sorted.
  - intros v Hv. apply elem_of_first_models in Hv as [Hdom Hsat].
    split; [exact Hdom|]. apply all_eval_true, Hsat.
Qed.

(** X8: [is_contradiction(e)] is the negation of the boolean of
    [is_satisfiable([e], max_models)], for every bound. *)
Theorem is_contradiction_unsatisfiable (e : Expr) (max_models : Z) :
  exists sat models,
    is_satisfiable [e] max_models = Ok (sat, models)
    /\ is_contradiction e = Ok (negb sat).
Proof.
  destruct (is_satisfiable_sat [e] max_models) as (sat & models & Hs & Hsat).
  exists sat, models. split; [exact Hs|].
  rewrite vars_union_singleton in Hsat.
  unfold is_contradiction.
  destruct (contradiction_loop_spec e (all_valuations (sorted (vars e))))
    as [[b Hb] Htrue]; [intros v Hv; apply enumeration_eval_total, Hv|].
  rewrite Hb. f_equal.
  destruct b, sat; try reflexivity; exfalso.
  - destruct (proj1 Hsat eq_refl) as (v & Hv & Hsv).
    apply satisfies_cons in Hsv as [Hev _].
    rewrite (proj1 Htrue Hb v Hv) in Hev. discriminate.
  - assert (Hall : forall v, v ∈ all_valuations (sorted (vars e)) ->
                             eval e v = Ok false).
    { intros v Hv. destruct (enumeration_eval_total e v Hv) as [[|] Hev];
        [|exact Hev].
      assert (false = true); [|discriminate].
      apply Hsat. exists v. split; [exact Hv|].
      apply satisfies_cons. split; [exact Hev | reflexivity]. }
    rewrite (proj2 Htrue Hall) in Hb. discriminate.
Qed.

(** X9: a tautology is what the empty list of axioms entails:
    [is_tautology(e)] equals [entails([], e)]. *)
Theorem is_tautology_entails_nil (e : Expr) :
  is_tautology e = entails [] e.
Proof.
  unfold entails.
  destruct (is_satisfiable_sat [] 1000000) as (sat & models & -> & Hsat).
  assert (Hs : sat = true).
  { apply Hsat. destruct (enumeration_nonempty (vars_union [])) as [v Hv].
    exists v. split; [exact Hv | reflexivity]. }
  rewrite Hs. simpl. rewrite vars_union_singleton. unfold is_tautology.
  induction (all_valuations (sorted (vars e))) as [|v rest IH]; simpl;
    [reflexivity|].
  unfold refutes. simpl. unfold lift.
  destruct (eval e v) as [[|]|x]; simpl; [exact IH | reflexivity ..].
Qed.

(** X10: [is_tautology(e)] and [is_contradiction(e)] both return a boolean,
    and never [True] both: no expression is a tautology and a
    contradiction. *)
Theorem not_tautology_and_contradiction (e : Expr) :
  exists t c : bool,
    is_tautology e = Ok t /\ is_contradiction e = Ok c /\ t && c = false.
Proof.
  destruct (tautology_loop_spec e (all_valuations (sorted (vars e))))
    as [[t Ht] Htrue]; [intros v Hv; apply enumeration_eval_total, Hv|].
  destruct (contradiction_loop_spec e (all_valuations (sorted (vars e))))
    as [[c Hc] Hfalse]; [intros v Hv; apply enumeration_eval_total, Hv|].
  exists t, c. split; [exact Ht|]. split; [exact Hc|].
  destruct t, c; try reflexivity. exfalso.
  destruct (enumeration_nonempty (vars e)) as [v Hv].
  pose proof (proj1 Htrue Ht v Hv) as H1.
  pose proof (proj1 Hfalse Hc v Hv) as H2.
  congruence.
Qed.

(** X11: for every expression [e], [Or(e, Not(e))] is a tautology and
    [And(e, Not(e))] is a contradiction. *)
Theorem excluded_middle_and_non_contradiction (e : Expr) :
  is_tautology (Or e (Not e)) = Ok true
  /\ is_contradiction (And e (Not e)) = Ok true.
Proof.
  split.
  - destruct (tautology_loop_spec (Or e (Not e))
                (all_valuations (sorted (vars (Or e (Not e))))))
      as [_ Htrue]; [intros v Hv; apply enumeration_eval_total, Hv|].
    apply Htrue. intros v Hv.
    destruct (eval_total e v) as [b Hb].
    { eapply enumeration_total; [|exact Hv]. simpl. set_solver. }
    simpl. unfold lift. rewrite Hb. destruct b; reflexivity.
  - destruct (contradiction_loop_spec (And e (Not e))
                (all_valuations (sorted (vars (And e (Not e))))))
      as [_ Hfalse]; [intros v Hv; apply enumeration_eval_total, Hv|].
    apply Hfalse. intros v Hv.
    destruct (eval_total e v) as [b Hb].
    { eapply enumeration_total; [|exact Hv]. simpl. set_solver. }
    simpl. unfold lift. rewrite Hb. destruct b; reflexivity.
Qed.

(** ** Precedence *)

Section Precedence.

(** Open one level of the call at the head of the goal. *)
Ltac head_step :=
  match goal with
  | |- context [run ?k (S ?n) (mkParser ?ts ?p)] =>
      let H := fresh "Hstep" in
      pose proof (f_equal (fun m : M Expr => m (mkParser ts p))
                    (run_S k n)) as H;
      cbv beta iota in H; rewrite H; clear H;
      unfold and_then, peek, pop, ret, raise, is_tok; simpl
  end.

Ltac head_operand :=
  match goal with
  | |- context [run _ (S _) (mkParser ?ts ?p)] =>
      match eval cbv in (ts !! p) with
      | Some ?X =>
          first
            [ rewrite (run_imp_operand _ ts p X eq_refl
                         ltac:(assumption) eq_refl eq_refl eq_refl)
            | rewrite (run_or_operand _ ts p X eq_refl
                         ltac:(assumption) eq_refl eq_refl)
            | rewrite (run_and_operand _ ts p X eq_refl
                         ltac:(assumption) eq_refl)
            | rewrite (run_not_identifier _ ts p X eq_refl
                         ltac:(assumption)) ]
      end
  end; simpl.

Ltac head_chain :=
  unfold Parser_parse; change (parse_iff ?n) with (run EIff n);
  cbn [tokens length Nat.mul Nat.add];
  unfold and_then at 1;
  repeat first [ head_operand | head_step ];
  reflexivity.

Variables A B C D E : string.
Hypothesis HA : is_identifier A = true.
Hypothesis HB : is_identifier B = true.
Hypothesis HC : is_identifier C = true.
Hypothesis HD : is_identifier D = true.
Hypothesis HE : is_identifier E = true.

Lemma tokenize_loose_first :
  tokenize (A +:+ " <-> " +:+ B +:+ " -> " +:+ C +:+ " | " +:+ D
            +:+ " & ~" +:+ E)
  = [A; "<->"; B; "->"; C; "|"; D; "&"; "~"; E].
Proof.
  change (A +:+ " <-> " +:+ B +:+ " -> " +:+ C +:+ " | " +:+ D
          +:+ " & ~" +:+ E)
    with (A +:+ " " +:+ "<->" +:+ " " +:+ B +:+ " " +:+ "->" +:+ " " +:+ C
          +:+ " " +:+ "|" +:+ " " +:+ D +:+ " " +:+ "&" +:+ " "
          +:+ tildes 1 +:+ E).
  rewrite tokenize_identifier by (exact HA || reflexivity).
  rewrite tokenize_operator by auto.
  rewrite tokenize_identifier by (exact HB || reflexivity).
  rewrite tokenize_operator by auto.
  rewrite tokenize_identifier by (exact HC || reflexivity).
  rewrite tokenize_operator by auto.
  rewrite tokenize_identifier by (exact HD || reflexivity).
  rewrite tokenize_operator by auto.
  rewrite tokenize_tildes, tokenize_identifier_end by exact HE.
  reflexivity.
Qed.

Lemma tokenize_tight_first :
  tokenize ("~" +:+ A +:+ " & " +:+ B +:+ " | " +:+ C +:+ " -> " +:+ D
            +:+ " <-> " +:+ E)
  = ["~"; A; "&"; B; "|"; C; "->"; D; "<->"; E].
Proof.
  change ("~" +:+ A +:+ " & " +:+ B +:+ " | " +:+ C +:+ " -> " +:+ D
          +:+ " <-> " +:+ E)
    with (tildes 1 +:+ A +:+ " " +:+ "&" +:+ " " +:+ B +:+ " " +:+ "|"
          +:+ " " +:+ C +:+ " " +:+ "->" +:+ " " +:+ D +:+ " " +:+ "<->"
          +:+ " " +:+ E).
  rewrite tokenize_tildes.
  rewrite tokenize_identifier by (exact HA || reflexivity).
  rewrite tokenize_operator by auto.
  rewrite tokenize_identifier by (exact HB || reflexivity).
  rewrite tokenize_operator by auto.
  rewrite tokenize_identifier by (exact HC || reflexivity).
  rewrite tokenize_operator by auto.
  rewrite tokenize_identifier by (exact HD || reflexivity).
  rewrite tokenize_operator by auto.
  rewrite tokenize_identifier_end by exact HE.
  reflexivity.
Qed.

Lemma Parser_parse_loose_first :
  Parser_parse (mkParser [A; "<->"; B; "->"; C; "|"; D; "&"; "~"; E] 0)
  = Done (Iff (Var A)
            (Implies (Var B) (Or (Var C) (And (Var D) (Not (Var E))))),
          mkParser [A; "<->"; B; "->"; C; "|"; D; "&"; "~"; E] 10).
Proof. head_chain. Qed.

Lemma Parser_parse_tight_first :
  Parser_parse (mkParser ["~"; A; "&"; B; "|"; C; "->"; D; "<->"; E] 0)
  = Done (Iff (Implies (Or (And (Not (Var A)) (Var B)) (Var C)) (Var D))
            (Var E),
          mkParser ["~"; A; "&"; B; "|"; C; "->"; D; "<->"; E] 10).
Proof. head_chain. Qed.

End Precedence.

(** X12: precedence of the operators, for all identifiers: [~] binds
    tighter than [&], [&] tighter than [|], [|] tighter than [->] and [->]
    tighter than [<->], whichever of them comes first in the text. *)
Theorem parse_precedence (A B C D E : string) :
  is_identifier A = true -> is_identifier B = true ->
  is_identifier C = true -> is_identifier D = true ->
  is_identifier E = true ->
  parse (A +:+ " <-> " +:+ B +:+ " -> " +:+ C +:+ " | " +:+ D
         +:+ " & ~" +:+ E)
  = Done (Iff (Var A)
            (Implies (Var B) (Or (Var C) (And (Var D) (Not (Var E))))))
  /\ parse ("~" +:+ A +:+ " & " +:+ B +:+ " | " +:+ C +:+ " -> " +:+ D
            +:+ " <-> " +:+ E)
     = Done (Iff (Implies (Or (And (Not (Var A)) (Var B)) (Var C)) (Var D))
               (Var E)).
Proof.
  intros HA HB HC HD HE. split; unfold parse.
  - rewrite (tokenize_loose_first A B C D E HA HB HC HD HE).
    rewrite (Parser_parse_loose_first A B C D E HA HB HC HD HE).
    reflexivity.
  - rewrite (tokenize_tight_first A B C D E HA HB HC HD HE).
    rewrite (Parser_parse_tight_first A B C D E HA HB HC HD HE).
    reflexivity.
Qed.

Lemma parse_precedence_witness :
  is_identifier "a" = true /\ is_identifier "b" = true
  /\ is_identifier "c" = true /\ is_identifier "d" = true
  /\ is_identifier "e" = true
  /\ parse "a <-> b -> c | d & ~e"
     = Done (Iff (Var "a")
               (Implies (Var "b")
                  (Or (Var "c") (And (Var "d") (Not (Var "e"))))))
  /\ parse "~a & b | c -> d <-> e"
     = Done (Iff (Implies (Or (And (Not (Var "a")) (Var "b")) (Var "c"))
                    (Var "d"))
               (Var "e")).
Proof.
  pose proof (parse_precedence "a" "b" "c" "d" "e"
                eq_refl eq_refl eq_refl eq_refl eq_refl) as [H1 H2].
  do 5 (split; [reflexivity|]). split; [exact H1 | exact H2].
Defined.

(** ** Rendering and parsing back *)

Section ReprLexer.

Lemma append_assoc (a b c : string) : (a +:+ b) +:+ c = a +:+ (b +:+ c).
Proof.
  induction a as [|x a IH]; [reflexivity|].
  change (String x ((a +:+ b) +:+ c) = String x (a +:+ (b +:+ c))).
  rewrite IH. reflexivity.
Qed.

Lemma append_empty_r (a : string) : a +:+ EmptyString = a.
Proof.
  induction a as [|x a IH]; [reflexivity|].
  change (String x (a +:+ EmptyString) = String x a).
  rewrite IH. reflexivity.
Qed.

Lemma tokenize_open_not (X : string) :
  tokenize ("(~" +:+ X) = "(" :: "~" :: tokenize X.
Proof.
  change ("(~" +:+ X) with ("(" +:+ tildes 1 +:+ X).
  rewrite tokenize_open_paren, tokenize_tildes. reflexivity.
Qed.

Lemma tokenize_close_paren (X : string) :
  tokenize (")" +:+ X) = ")" :: tokenize X.
Proof. rewrite tokenize_unfold. reflexivity. Qed.

Lemma tokenize_spaced (op X : string) :
  (op = "|" -> tokenize (" | " +:+ X) = "|" :: tokenize X)
  /\ (op = "&" -> tokenize (" & " +:+ X) = "&" :: tokenize X)
  /\ (op = "->" -> tokenize (" -> " +:+ X) = "->" :: tokenize X)
  /\ (op = "<->" -> tokenize (" <-> " +:+ X) = "<->" :: tokenize X).
Proof.
  repeat split; intros _.
  - apply (tokenize_operator "|" X). auto.
  - apply (tokenize_operator "&" X). auto.
  - apply (tokenize_operator "->" X). auto.
  - apply (tokenize_operator "<->" X). auto.
Qed.

(** The lexer reads the rendering of an expression back as its tokens. *)
Lemma tokenize_repr_app (e : Expr) :
  well_named e = true ->
  forall rest, token_boundary rest ->
    tokenize (repr e +:+ rest) = tokens_of e ++ tokenize rest.
Proof.
  induction e as [name|c IH|l IHl r IHr|l IHl r IHr|l IHl r IHr|l IHl r IHr];
    cbn [well_named repr tokens_of]; intros Hw rest Hrest.
  - apply tokenize_identifier; assumption.
  - rewrite !append_assoc, tokenize_open_not.
    rewrite (IH Hw) by reflexivity.
    rewrite tokenize_close_paren. simpl. rewrite <- app_assoc. reflexivity.
  - apply andb_prop in Hw as [Hl Hr].
    rewrite !append_assoc, tokenize_open_paren.
    rewrite (IHl Hl) by reflexivity.
    rewrite (proj1 (proj2 (tokenize_spaced "&" _)) eq_refl).
    rewrite (IHr Hr) by reflexivity.
    rewrite tokenize_close_paren. simpl.
    rewrite <- !app_assoc. simpl. rewrite <- !app_assoc. reflexivity.
  - apply andb_prop in Hw as [Hl Hr].
    rewrite !append_assoc, tokenize_open_paren.
    rewrite (IHl Hl) by reflexivity.
    rewrite (proj1 (tokenize_spaced "|" _) eq_refl).
    rewrite (IHr Hr) by reflexivity.
    rewrite tokenize_close_paren. simpl.
    rewrite <- !app_assoc. simpl. rewrite <- !app_assoc. reflexivity.
  - apply andb_prop in Hw as [Hl Hr].
    rewrite !append_assoc, tokenize_open_paren.
    rewrite (IHl Hl) by reflexivity.
    rewrite (proj1 (proj2 (proj2 (tokenize_spaced "->" _))) eq_refl).
    rewrite (IHr Hr) by reflexivity.
    rewrite tokenize_close_paren. simpl.
    rewrite <- !app_assoc. simpl. rewrite <- !app_assoc. reflexivity.
  - apply andb_prop in Hw as [Hl Hr].
    rewrite !append_assoc, tokenize_open_paren.
    rewrite (IHl Hl) by reflexivity.
    rewrite (proj2 (proj2 (proj2 (tokenize_spaced "<->" _))) eq_refl).
    rewrite (IHr Hr) by reflexivity.
    rewrite tokenize_close_paren. simpl.
    rewrite <- !app_assoc. simpl. rewrite <- !app_assoc. reflexivity.
Qed.

Lemma tokenize_repr (e : Expr) :
  well_named e = true -> tokenize (repr e) = tokens_of e.
Proof.
  intros Hw. rewrite <- (append_empty_r (repr e)).
  rewrite (tokenize_repr_app e Hw EmptyString I).
  rewrite tokenize_unfold. simpl. apply app_nil_r.
Qed.

End ReprLexer.

Section ReprParser.

Implicit Types (e l r : Expr) (ts rest : list string) (n p : nat).

Lemma drop_lookup_head ts p (x : string) rest :
  drop p ts = x :: rest -> ts !! p = Some x.
Proof.
  intros H. rewrite <- (Nat.add_0_r p), <- lookup_drop, H. reflexivity.
Qed.

Lemma drop_lookup_next ts p rest :
  drop p ts = rest -> ts !! p = head rest.
Proof.
  intros H. rewrite <- (Nat.add_0_r p), <- lookup_drop, H.
  destruct rest; reflexivity.
Qed.

Lemma drop_tail ts p (x : string) rest :
  drop p ts = x :: rest -> drop (p + 1) ts = rest.
Proof. intros H. rewrite <- drop_drop, H. reflexivity. Qed.

Lemma drop_skip ts p (l1 l2 : list string) :
  drop p ts = l1 ++ l2 -> drop (p + length l1) ts = l2.
Proof. intros H. rewrite <- drop_drop, H. apply drop_app_length. Qed.

(** The rendering of an expression starts with an identifier or a [(]. *)
Lemma tokens_of_head e :
  well_named e = true ->
  exists t tl, tokens_of e = t :: tl /\ is_tok (Some t) "~" = false.
Proof.
  destruct e; simpl; intros Hw; eauto.
  exists name, []. split; [reflexivity|].
  unfold is_tok. apply identifier_not_token; [exact Hw | reflexivity].
Qed.

Lemma run_done_fuel n (k : entry) (self : Parser) x :
  run k n self = Done x -> exists m, n = S m.
Proof.
  destruct n; [rewrite run_O; discriminate | eauto].
Qed.

Lemma lift_not n ts p e p' :
  run EAtom n (mkParser ts p) = Done (e, mkParser ts p') ->
  is_tok (ts !! p) "~" = false ->
  run ENot (S n) (mkParser ts p) = Done (e, mkParser ts p').
Proof.
  intros H Ht. rewrite run_S. unfold and_then, peek. simpl.
  rewrite Ht. exact H.
Qed.

Lemma lift_and n ts p e p' :
  run ENot n (mkParser ts p) = Done (e, mkParser ts p') ->
  is_tok (ts !! p') "&" = false ->
  run EAnd (S n) (mkParser ts p) = Done (e, mkParser ts p').
Proof.
  intros H Ht. destruct (run_done_fuel _ _ _ _ H) as [m ->].
  rewrite (run_S EAnd). unfold and_then. rewrite H.
  apply (run_loop_stop _ _ e "&"); auto.
Qed.

Lemma lift_or n ts p e p' :
  run EAnd n (mkParser ts p) = Done (e, mkParser ts p') ->
  is_tok (ts !! p') "|" = false ->
  run EOr (S n) (mkParser ts p) = Done (e, mkParser ts p').
Proof.
  intros H Ht. destruct (run_done_fuel _ _ _ _ H) as [m ->].
  rewrite (run_S EOr). unfold and_then. rewrite H.
  apply (run_loop_stop _ _ e "|"); auto.
Qed.

Lemma lift_imp n ts p e p' :
  run EOr n (mkParser ts p) = Done (e, mkParser ts p') ->
  is_tok (ts !! p') "->" = false ->
  run EImp (S n) (mkParser ts p) = Done (e, mkParser ts p').
Proof.
  intros H Ht. rewrite (run_S EImp). unfold and_then at 1. rewrite H.
  unfold and_then, peek, ret. simpl. rewrite Ht. reflexivity.
Qed.

Lemma lift_iff n ts p e p' :
  run EImp n (mkParser ts p) = Done (e, mkParser ts p') ->
  is_tok (ts !! p') "<->" = false ->
  run EIff (S n) (mkParser ts p) = Done (e, mkParser ts p').
Proof.
  intros H Ht. destruct (run_done_fuel _ _ _ _ H) as [m ->].
  rewrite (run_S EIff). unfold and_then. rewrite H.
  apply (run_loop_stop _ _ e "<->"); auto.
Qed.

Lemma pair_and n ts p l p1 r p2 :
  run ENot n (mkParser ts p) = Done (l, mkParser ts p1) ->
  ts !! p1 = Some "&" ->
  run ENot n (mkParser ts (p1 + 1)) = Done (r, mkParser ts p2) ->
  is_tok (ts !! p2) "&" = false ->
  run EAnd (S (S n)) (mkParser ts p) = Done (And l r, mkParser ts p2).
Proof.
  intros Hl Hop Hr Ht. destruct (run_done_fuel _ _ _ _ Hr) as [m ->].
  rewrite (run_S EAnd). unfold and_then at 1.
  rewrite (run_fuel_S _ _ _ _ Hl) by discriminate.
  rewrite (run_S (EAndLoop l)). unfold and_then, peek, pop. simpl.
  rewrite Hop. unfold is_tok at 1. simpl. rewrite ?Hop. simpl. rewrite Hr.
  apply (run_loop_stop _ _ (And l r) "&"); auto.
Qed.

Lemma pair_or n ts p l p1 r p2 :
  run EAnd n (mkParser ts p) = Done (l, mkParser ts p1) ->
  ts !! p1 = Some "|" ->
  run EAnd n (mkParser ts (p1 + 1)) = Done (r, mkParser ts p2) ->
  is_tok (ts !! p2) "|" = false ->
  run EOr (S (S n)) (mkParser ts p) = Done (Or l r, mkParser ts p2).
Proof.
  intros Hl Hop Hr Ht. destruct (run_done_fuel _ _ _ _ Hr) as [m ->].
  rewrite (run_S EOr). unfold and_then at 1.
  rewrite (run_fuel_S _ _ _ _ Hl) by discriminate.
  rewrite (run_S (EOrLoop l)). unfold and_then, peek, pop. simpl.
  rewrite Hop. unfold is_tok at 1. simpl. rewrite ?Hop. simpl. rewrite Hr.
  apply (run_loop_stop _ _ (Or l r) "|"); auto.
Qed.

Lemma pair_iff n ts p l p1 r p2 :
  run EImp n (mkParser ts p) = Done (l, mkParser ts p1) ->
  ts !! p1 = Some "<->" ->
  run EImp n (mkParser ts (p1 + 1)) = Done (r, mkParser ts p2) ->
  is_tok (ts !! p2) "<->" = false ->
  run EIff (S (S n)) (mkParser ts p) = Done (Iff l r, mkParser ts p2).
Proof.
  intros Hl Hop Hr Ht. destruct (run_done_fuel _ _ _ _ Hr) as [m ->].
  rewrite (run_S EIff). unfold and_then at 1.
  rewrite (run_fuel_S _ _ _ _ Hl) by discriminate.
  rewrite (run_S (EIffLoop l)). unfold and_then, peek, pop. simpl.
  rewrite Hop. unfold is_tok at 1. simpl. rewrite ?Hop. simpl. rewrite Hr.
  apply (run_loop_stop _ _ (Iff l r) "<->"); auto.
Qed.

Lemma pair_imp n ts p l p1 r p2 :
  run EOr n (mkParser ts p) = Done (l, mkParser ts p1) ->
  ts !! p1 = Some "->" ->
  run EImp n (mkParser ts (p1 + 1)) = Done (r, mkParser ts p2) ->
  run EImp (S n) (mkParser ts p) = Done (Implies l r, mkParser ts p2).
Proof.
  intros Hl Hop Hr.
  rewrite (run_S EImp). unfold and_then at 1. rewrite Hl.
  unfold and_then, peek, pop, ret. simpl.
  rewrite Hop. unfold is_tok at 1. simpl. rewrite ?Hop. simpl. rewrite Hr. reflexivity.
Qed.

Lemma prefix_not n ts p c p' :
  ts !! p = Some "~" ->
  run ENot n (mkParser ts (p + 1)) = Done (c, mkParser ts p') ->
  run ENot (S n) (mkParser ts p) = Done (Not c, mkParser ts p').
Proof.
  intros Hop Hc. rewrite (run_S ENot). unfold and_then, peek, pop, ret.
  simpl. rewrite Hop. unfold is_tok at 1. simpl. rewrite ?Hop. simpl.
  rewrite Hc. reflexivity.
Qed.

Lemma paren_atom n ts p e p' :
  ts !! p = Some "(" ->
  run EIff n (mkParser ts (p + 1)) = Done (e, mkParser ts p') ->
  ts !! p' = Some ")" ->
  run EAtom (S n) (mkParser ts p) = Done (e, mkParser ts (p' + 1)).
Proof.
  intros Hop He Hcl. rewrite (run_S EAtom).
  unfold and_then, peek, pop, ret, raise. simpl.
  rewrite Hop. simpl. rewrite ?Hop. simpl. rewrite He. simpl.
  rewrite Hcl. reflexivity.
Qed.

End ReprParser.

Section ReprRoundTrip.

Implicit Types (e l r : Expr) (ts rest : list string) (n p : nat).

Lemma run_fuel_agree n m (k : entry) (self : Parser)
    (o : outcome (Expr * Parser)) :
  run k n self = o -> o <> Exhausted -> run k m self <> Exhausted ->
  run k m self = o.
Proof.
  intros Hn Ho Hm. destruct (Nat.le_ge_cases n m) as [Hle|Hle].
  - eapply run_fuel_le; eassumption.
  - pose proof (run_fuel_le m n k self _ Hle eq_refl Hm) as H.
    congruence.
Qed.

Lemma wrap_from_and n ts p e p' :
  ts !! p = Some "(" ->
  run EAnd n (mkParser ts (p + 1)) = Done (e, mkParser ts p') ->
  ts !! p' = Some ")" ->
  run EAtom (n + 4) (mkParser ts p) = Done (e, mkParser ts (p' + 1)).
Proof.
  intros Hop He Hcl.
  replace (n + 4) with (S (S (S (S n)))) by lia.
  apply paren_atom; [exact Hop | | exact Hcl].
  apply lift_iff; [|rewrite Hcl; reflexivity].
  apply lift_imp; [|rewrite Hcl; reflexivity].
  apply lift_or; [exact He | rewrite Hcl; reflexivity].
Qed.

Lemma wrap_from_or n ts p e p' :
  ts !! p = Some "(" ->
  run EOr n (mkParser ts (p + 1)) = Done (e, mkParser ts p') ->
  ts !! p' = Some ")" ->
  run EAtom (n + 3) (mkParser ts p) = Done (e, mkParser ts (p' + 1)).
Proof.
  intros Hop He Hcl.
  replace (n + 3) with (S (S (S n))) by lia.
  apply paren_atom; [exact Hop | | exact Hcl].
  apply lift_iff; [|rewrite Hcl; reflexivity].
  apply lift_imp; [exact He | rewrite Hcl; reflexivity].
Qed.

Lemma wrap_from_imp n ts p e p' :
  ts !! p = Some "(" ->
  run EImp n (mkParser ts (p + 1)) = Done (e, mkParser ts p') ->
  ts !! p' = Some ")" ->
  run EAtom (n + 2) (mkParser ts p) = Done (e, mkParser ts (p' + 1)).
Proof.
  intros Hop He Hcl.
  replace (n + 2) with (S (S n)) by lia.
  apply paren_atom; [exact Hop | | exact Hcl].
  apply lift_iff; [exact He | rewrite Hcl; reflexivity].
Qed.

Lemma parses_not e n0 :
  well_named e = true -> parses_at EAtom e n0 -> parses_at ENot e (S n0).
Proof.
  intros Hw H n ts p rest Hn Hdrop _.
  destruct n as [|m]; [lia|]. apply lift_not.
  - apply (H m ts p rest); [lia | exact Hdrop | exact I].
  - destruct (tokens_of_head e Hw) as (t & tl & Ht & Hnot).
    rewrite Ht in Hdrop. simpl in Hdrop.
    rewrite (drop_lookup_head _ _ _ _ Hdrop). exact Hnot.
Qed.

Lemma next_token ts p (l1 rest : list string) :
  drop p ts = l1 ++ rest -> ts !! (p + length l1) = head rest.
Proof. intros H. apply drop_lookup_next, drop_skip, H. Qed.

Lemma parses_and e n0 : parses_at ENot e n0 -> parses_at EAnd e (S n0).
Proof.
  intros H n ts p rest Hn Hdrop Hstop.
  destruct n as [|m]; [lia|]. apply lift_and.
  - apply (H m ts p rest); [lia | exact Hdrop | exact I].
  - rewrite (next_token _ _ _ _ Hdrop). exact Hstop.
Qed.

Lemma parses_or e n0 : parses_at EAnd e n0 -> parses_at EOr e (S n0).
Proof.
  intros H n ts p rest Hn Hdrop [Hand Hor].
  destruct n as [|m]; [lia|]. apply lift_or.
  - apply (H m ts p rest); [lia | exact Hdrop | exact Hand].
  - rewrite (next_token _ _ _ _ Hdrop). exact Hor.
Qed.

Lemma parses_imp e n0 : parses_at EOr e n0 -> parses_at EImp e (S n0).
Proof.
  intros H n ts p rest Hn Hdrop (Hand & Hor & Himp).
  destruct n as [|m]; [lia|]. apply lift_imp.
  - apply (H m ts p rest); [lia | exact Hdrop | split; assumption].
  - rewrite (next_token _ _ _ _ Hdrop). exact Himp.
Qed.

Lemma parses_iff e n0 : parses_at EImp e n0 -> parses_at EIff e (S n0).
Proof.
  intros H n ts p rest Hn Hdrop (Hand & Hor & Himp & Hiff).
  destruct n as [|m]; [lia|]. apply lift_iff.
  - apply (H m ts p rest); [lia | exact Hdrop | repeat split; assumption].
  - rewrite (next_token _ _ _ _ Hdrop). exact Hiff.
Qed.

End ReprRoundTrip.

Section ReprAtom.

Implicit Types (e l r : Expr) (ts rest : list string) (n p : nat).

(** The positions of the tokens around the two operands of a rendered
    binary node. *)
Lemma binary_layout ts p (op : string) (tl tr rest : list string) :
  drop p ts = "(" :: tl ++ op :: tr ++ ")" :: rest ->
  ts !! p = Some "("
  /\ drop (p + 1) ts = tl ++ op :: tr ++ ")" :: rest
  /\ ts !! (p + 1 + length tl) = Some op
  /\ drop (p + 1 + length tl + 1) ts = tr ++ ")" :: rest
  /\ ts !! (p + 1 + length tl + 1 + length tr) = Some ")".
Proof.
  intros H.
  pose proof (drop_tail _ _ _ _ H) as H1.
  pose proof (drop_skip _ _ _ _ H1) as H2.
  pose proof (drop_tail _ _ _ _ H2) as H3.
  pose proof (drop_skip _ _ _ _ H3) as H4.
  split; [exact (drop_lookup_head _ _ _ _ H)|].
  split; [exact H1|].
  split; [exact (drop_lookup_head _ _ _ _ H2)|].
  split; [exact H3|].
  exact (drop_lookup_head _ _ _ _ H4).
Qed.

Lemma binary_length (op : string) (tl tr : list string) :
  length (["("] ++ tl ++ [op] ++ tr ++ [")"])
  = 1 + length tl + 1 + length tr + 1.
Proof. simpl. rewrite !length_app. simpl. rewrite length_app. simpl. lia. Qed.

Lemma binary_drop ts p (op : string) (tl tr rest : list string) :
  drop p ts = (["("] ++ tl ++ [op] ++ tr ++ [")"]) ++ rest ->
  drop p ts = "(" :: tl ++ op :: tr ++ ")" :: rest.
Proof.
  intros ->. simpl. rewrite <- !app_assoc. simpl.
  rewrite <- !app_assoc. reflexivity.
Qed.

(** The atom rule reads the rendering of any expression back. *)
Lemma parses_atom e : well_named e = true -> exists n0, parses_at EAtom e n0.
Proof.
  induction e as [name|c IH|l IHl r IHr|l IHl r IHr|l IHl r IHr|l IHl r IHr];
    cbn [well_named]; intros Hw.
  - exists 1. intros n ts p rest Hn Hdrop _.
    destruct n as [|m]; [lia|]. simpl in Hdrop.
    rewrite (run_atom_identifier m ts p name
               (drop_lookup_head _ _ _ _ Hdrop) Hw).
    reflexivity.
  - destruct (IH Hw) as [nc Hc]. exists (nc + 7).
    intros n ts p rest Hn Hdrop _.
    assert (Hd : drop p ts = "(" :: "~" :: tokens_of c ++ ")" :: rest).
    { rewrite Hdrop. simpl. rewrite <- app_assoc. reflexivity. }
    pose proof (drop_lookup_head _ _ _ _ Hd) as H0.
    pose proof (drop_tail _ _ _ _ Hd) as D1.
    pose proof (drop_lookup_head _ _ _ _ D1) as H1.
    pose proof (drop_tail _ _ _ _ D1) as D2.
    pose proof (next_token _ _ _ _ D2) as H3. simpl in H3.
    assert (Hnot : run ENot (nc + 1) (mkParser ts (p + 1 + 1))
                   = Done (c, mkParser ts
                                 (p + 1 + 1 + length (tokens_of c)))).
    { apply (parses_not c nc Hw Hc _ ts _ (")" :: rest));
        [lia | exact D2 | exact I]. }
    pose proof (prefix_not _ _ _ _ _ H1 Hnot) as Hneg.
    pose proof (lift_and _ _ _ _ _ Hneg
                  ltac:(rewrite H3; reflexivity)) as Hand.
    pose proof (wrap_from_and _ _ _ _ _ H0 Hand H3) as Hatom.
    apply (run_fuel_le _ n) in Hatom; [|lia|discriminate].
    rewrite Hatom. do 3 f_equal. cbn [tokens_of].
    simpl. rewrite length_app. simpl. lia.
  - apply andb_prop in Hw as [Hwl Hwr].
    destruct (IHl Hwl) as [nl Hl]. destruct (IHr Hwr) as [nr Hr].
    exists (Nat.max nl nr + 7). intros n ts p rest Hn Hdrop _.
    cbn [tokens_of] in Hdrop.
    destruct (binary_layout _ _ _ _ _ _ (binary_drop _ _ _ _ _ _ Hdrop))
      as (H0 & D1 & H2 & D3 & H4).
    assert (Hleft : run ENot (Nat.max nl nr + 1) (mkParser ts (p + 1))
              = Done (l, mkParser ts (p + 1 + length (tokens_of l)))).
    { eapply (parses_not l nl Hwl Hl); [lia | exact D1 | exact I]. }
    assert (Hright :
              run ENot (Nat.max nl nr + 1)
                (mkParser ts (p + 1 + length (tokens_of l) + 1))
              = Done (r, mkParser ts (p + 1 + length (tokens_of l) + 1
                                      + length (tokens_of r)))).
    { eapply (parses_not r nr Hwr Hr); [lia | exact D3 | exact I]. }
    pose proof (pair_and _ _ _ _ _ _ _ Hleft H2 Hright
                  ltac:(rewrite H4; reflexivity)) as Hnode.
    pose proof (wrap_from_and _ _ _ _ _ H0 Hnode H4) as Hatom.
    apply (run_fuel_le _ n) in Hatom; [|lia|discriminate].
    rewrite Hatom. do 3 f_equal. cbn [tokens_of].
    rewrite binary_length. lia.
  - apply andb_prop in Hw as [Hwl Hwr].
    destruct (IHl Hwl) as [nl Hl]. destruct (IHr Hwr) as [nr Hr].
    exists (Nat.max nl nr + 7). intros n ts p rest Hn Hdrop _.
    cbn [tokens_of] in Hdrop.
    destruct (binary_layout _ _ _ _ _ _ (binary_drop _ _ _ _ _ _ Hdrop))
      as (H0 & D1 & H2 & D3 & H4).
    assert (Hleft : run EAnd (Nat.max nl nr + 2) (mkParser ts (p + 1))
              = Done (l, mkParser ts (p + 1 + length (tokens_of l)))).
    { eapply (parses_and l _ (parses_not l nl Hwl Hl));
        [lia | exact D1 | reflexivity]. }
    assert (Hright :
              run EAnd (Nat.max nl nr + 2)
                (mkParser ts (p + 1 + length (tokens_of l) + 1))
              = Done (r, mkParser ts (p + 1 + length (tokens_of l) + 1
                                      + length (tokens_of r)))).
    { eapply (parses_and r _ (parses_not r nr Hwr Hr));
        [lia | exact D3 | reflexivity]. }
    pose proof (pair_or _ _ _ _ _ _ _ Hleft H2 Hright
                  ltac:(rewrite H4; reflexivity)) as Hnode.
    pose proof (wrap_from_or _ _ _ _ _ H0 Hnode H4) as Hatom.
    apply (run_fuel_le _ n) in Hatom; [|lia|discriminate].
    rewrite Hatom. do 3 f_equal. cbn [tokens_of].
    rewrite binary_length. lia.
  - apply andb_prop in Hw as [Hwl Hwr].
    destruct (IHl Hwl) as [nl Hl]. destruct (IHr Hwr) as [nr Hr].
    exists (Nat.max nl nr + 7). intros n ts p rest Hn Hdrop _.
    cbn [tokens_of] in Hdrop.
    destruct (binary_layout _ _ _ _ _ _ (binary_drop _ _ _ _ _ _ Hdrop))
      as (H0 & D1 & H2 & D3 & H4).
    assert (Hleft : run EOr (Nat.max nl nr + 4) (mkParser ts (p + 1))
              = Done (l, mkParser ts (p + 1 + length (tokens_of l)))).
    { eapply (parses_or l _ (parses_and l _ (parses_not l nl Hwl Hl)));
        [lia | exact D1 | split; reflexivity]. }
    assert (Hright :
              run EImp (Nat.max nl nr + 4)
                (mkParser ts (p + 1 + length (tokens_of l) + 1))
              = Done (r, mkParser ts (p + 1 + length (tokens_of l) + 1
                                      + length (tokens_of r)))).
    { eapply (parses_imp r _
                (parses_or r _ (parses_and r _ (parses_not r nr Hwr Hr))));
        [lia | exact D3 | repeat split; reflexivity]. }
    pose proof (pair_imp _ _ _ _ _ _ _ Hleft H2 Hright) as Hnode.
    pose proof (wrap_from_imp _ _ _ _ _ H0 Hnode H4) as Hatom.
    apply (run_fuel_le _ n) in Hatom; [|lia|discriminate].
    rewrite Hatom. do 3 f_equal. cbn [tokens_of].
    rewrite binary_length. lia.
  - apply andb_prop in Hw as [Hwl Hwr].
    destruct (IHl Hwl) as [nl Hl]. destruct (IHr Hwr) as [nr Hr].
    exists (Nat.max nl nr + 7). intros n ts p rest Hn Hdrop _.
    cbn [tokens_of] in Hdrop.
    destruct (binary_layout _ _ _ _ _ _ (binary_drop _ _ _ _ _ _ Hdrop))
      as (H0 & D1 & H2 & D3 & H4).
    assert (Hleft : run EImp (Nat.max nl nr + 4) (mkParser ts (p + 1))
              = Done (l, mkParser ts (p + 1 + length (tokens_of l)))).
    { eapply (parses_imp l _
                (parses_or l _ (parses_and l _ (parses_not l nl Hwl Hl))));
        [lia | exact D1 | repeat split; reflexivity]. }
    assert (Hright :
              run EImp (Nat.max nl nr + 4)
                (mkParser ts (p + 1 + length (tokens_of l) + 1))
              = Done (r, mkParser ts (p + 1 + length (tokens_of l) + 1
                                      + length (tokens_of r)))).
    { eapply (parses_imp r _
                (parses_or r _ (parses_and r _ (parses_not r nr Hwr Hr))));
        [lia | exact D3 | repeat split; reflexivity]. }
    pose proof (pair_iff _ _ _ _ _ _ _ Hleft H2 Hright
                  ltac:(rewrite H4; reflexivity)) as Hnode.
    pose proof (paren_atom _ _ _ _ _ H0 Hnode H4) as Hatom.
    apply (run_fuel_le _ n) in Hatom; [|lia|discriminate].
    rewrite Hatom. do 3 f_equal. cbn [tokens_of].
    rewrite binary_length. lia.
Qed.

End ReprAtom.

(** Rendering then parsing gives a well-named expression back. *)
Lemma parse_repr_well_named (e : Expr) :
  well_named e = true -> parse (repr e) = Done e.
Proof.
  intros Hw. unfold parse. rewrite (tokenize_repr e Hw).
  destruct (parses_atom e Hw) as [n0 Hatom].
  pose proof (parses_iff e _
                (parses_imp e _
                   (parses_or e _
                      (parses_and e _ (parses_not e n0 Hw Hatom)))))
    as Hiff.
  specialize (Hiff (S (S (S (S (S n0))))) (tokens_of e) 0 []
                (le_n _)).
  rewrite app_nil_r in Hiff.
  specialize (Hiff eq_refl ltac:(repeat split; reflexivity)).
  destruct (tokens_of_head e Hw) as (t & tl & Ht & _).
  destruct (tokens_of e) as [|t' tl'] eqn:Hts; [discriminate|].
  unfold Parser_parse, and_then.
  change (parse_iff ?n) with (run EIff n). cbn [tokens].
  rewrite (run_fuel_agree _ _ _ _ _ Hiff); [|discriminate|].
  - unfold peek, ret, raise. cbn [tokens pos].
    rewrite (proj2 (lookup_ge_None _ _)) by (simpl; lia). reflexivity.
  - apply run_not_exhausted. simpl. lia.
Qed.

(** ** Names in a parsed expression *)

Section ParsedNames.

Implicit Types (k : entry) (self : Parser) (e : Expr) (s rest : string).

Lemma ident_run_all s : all_ident_chars (ident_run s).1 = true.
Proof.
  induction s as [|c r IH]; simpl; [reflexivity|].
  destruct (is_ident_char c) eqn:Hc; [|reflexivity].
  destruct (ident_run r) as [run rest]. simpl in *. rewrite Hc. exact IH.
Qed.

Lemma match_token_identifier s (t : string) rest :
  match_token s = Some (t, rest) -> ident_match t = true ->
  is_identifier t = true.
Proof.
  unfold match_token.
  destruct (starts_with "<->" s); [intros [= <- <-]; discriminate|].
  destruct (starts_with "->" s); [intros [= <- <-]; discriminate|].
  destruct s as [|c r]; [discriminate|].
  destruct (is_punct c) eqn:Hp.
  { intros [= <- <-]. simpl. intros Hc.
    rewrite (ident_start_not_punct c Hc) in Hp. discriminate. }
  destruct (is_ident_start c) eqn:Hc.
  - pose proof (ident_run_all r) as Hrun.
    destruct (ident_run r) as [run rest']. intros [= <- <-] _.
    simpl in *. rewrite Hc. exact Hrun.
  - destruct (negb (is_space c)); [|discriminate].
    intros [= <- <-]. simpl. congruence.
Qed.

Lemma findall_identifier_tokens (n : nat) s :
  identifier_tokens (findall n s).
Proof.
  revert s. induction n as [|n IH]; intros s t Ht; simpl in Ht.
  - inversion Ht.
  - destruct (match_token (skip_space s)) as [[t' rest]|] eqn:Hm;
      [|inversion Ht].
    apply elem_of_cons in Ht as [->|Ht].
    + eapply match_token_identifier, Hm.
    + eapply IH, Ht.
Qed.

Lemma tokenize_identifier_tokens s : identifier_tokens (tokenize s).
Proof.
  unfold tokenize. pose proof (findall_identifier_tokens
                                 (S (String.length s)) s) as H.
  destruct (findall _ s); [intros t Ht; inversion Ht | exact H].
Qed.

(** A method only builds [Var] nodes from identifier tokens. *)
Lemma run_well_named (n : nat) k self e self' :
  run k n self = Done (e, self') ->
  identifier_tokens (tokens self) -> entry_named k ->
  well_named e = true.
Proof.
  revert k self e self'. induction n as [|n IH];
    intros k self e self' H Htok Hk.
  - rewrite run_O in H. discriminate.
  - rewrite run_S in H.
    destruct k; unfold and_then, peek, pop, ret, raise in H; simpl in H;
      parser_cases; try discriminate;
      repeat match goal with
             | H : Done _ = Done _ |- _ => injection H as <- <-
             | E : Some _ = Some _ |- _ => injection E as E; subst
             end;
      repeat match goal with
             | E : run _ n _ = Done (_, ?s') |- _ =>
                 lazymatch goal with
                 | P : tokens s' = _ |- _ => fail
                 | _ =>
                     let P := fresh "Hprog" in
                     pose proof (run_progress _ _ _ _ _ E) as [P _];
                     simpl in P
                 end
             end;
      simpl in Hk;
      repeat match goal with
             | E : run ?k' n ?s = Done (?e', ?s') |- _ =>
                 let W := fresh "Hnamed" in
                 assert (W : well_named e' = true)
                   by (apply (IH k' s e' s' E);
                       [ simpl;
                         repeat match goal with
                                | P : tokens ?x = _ |- context [tokens ?x] =>
                                    rewrite P
                                end; exact Htok
                       | simpl; rewrite ?andb_true_iff; auto ]);
                 clear E
             end;
      simpl; rewrite ?andb_true_iff; auto.
    apply Htok; [|assumption].
    eapply list_elem_of_lookup_2; eassumption.
Qed.

Lemma parse_well_named s e : parse s = Done e -> well_named e = true.
Proof.
  unfold parse. pose proof (tokenize_identifier_tokens s) as Htok.
  destruct (tokenize s) as [|t ts]; [discriminate|].
  unfold Parser_parse, and_then, peek, ret, raise.
  change (parse_iff ?n) with (run EIff n).
  destruct (run EIff _ (mkParser (t :: ts) 0)) as [[e' self']| |] eqn:Hrun;
    try discriminate.
  destruct (tokens self' !! pos self'); [discriminate|].
  intros [= <-]. exact (run_well_named _ _ _ _ _ Hrun Htok I).
Qed.

End ParsedNames.

Lemma well_named_vars (e : Expr) :
  well_named e = true <-> forall x, x ∈ vars e -> is_identifier x = true.
Proof.
  induction e as [name|c IH|l IHl r IHr|l IHl r IHr|l IHl r IHr|l IHl r IHr];
    simpl; rewrite ?andb_true_iff, ?IH, ?IHl, ?IHr.
  - split; [intros H x Hx; apply elem_of_singleton in Hx as ->; exact H|].
    intros H. apply H. set_solver.
  - reflexivity.
  - split; [intros [H1 H2] x Hx; apply elem_of_union in Hx as [?|?]; auto|].
    intros H. split; intros x Hx; apply H; set_solver.
  - split; [intros [H1 H2] x Hx; apply elem_of_union in Hx as [?|?]; auto|].
    intros H. split; intros x Hx; apply H; set_solver.
  - split; [intros [H1 H2] x Hx; apply elem_of_union in Hx as [?|?]; auto|].
    intros H. split; intros x Hx; apply H; set_solver.
  - split; [intros [H1 H2] x Hx; apply elem_of_union in Hx as [?|?]; auto|].
    intros H. split; intros x Hx; apply H; set_solver.
Qed.

(** X13: rendering then parsing gives the expression back: for every
    expression whose variable names are identifiers, [parse(repr(e))]
    returns [e]. *)
Theorem parse_repr (e : Expr) :
  (forall x, x ∈ vars e -> is_identifier x = true) ->
  parse (repr e) = Done e.
Proof. intros H. apply parse_repr_well_named, well_named_vars, H. Qed.

Lemma parse_repr_witness :
  let e := Implies (And (Var "p") (Not (Var "q_1")))
             (Iff (Var "R") (Or (Var "p") (Var "_s"))) in
  (forall x, x ∈ vars e -> is_identifier x = true)
  /\ repr e = "((p & (~q_1)) -> (R <-> (p | _s)))"
  /\ parse (repr e) = Done e.
Proof.
  intros e.
  assert (H : forall x, x ∈ vars e -> is_identifier x = true)
    by (apply well_named_vars; reflexivity).
  split; [exact H|]. split; [reflexivity|].
  exact (parse_repr e H).
Defined.

(** X14: every variable name of an expression returned by [parse] is an
    identifier: it matches [[A-Za-z_][A-Za-z0-9_]*] as a whole. *)
Theorem parse_names_are_identifiers (s : string) (e : Expr) :
  parse s = Done e -> forall x, x ∈ vars e -> is_identifier x = true.
Proof. intros H. apply well_named_vars, (parse_well_named s e H). Qed.

Lemma parse_names_are_identifiers_witness :
  parse "x1 -> (_y | Zz)"
  = Done (Implies (Var "x1") (Or (Var "_y") (Var "Zz")))
  /\ forall x, x ∈ vars (Implies (Var "x1") (Or (Var "_y") (Var "Zz"))) ->
               is_identifier x = true.
Proof.
  assert (H : parse "x1 -> (_y | Zz)"
              = Done (Implies (Var "x1") (Or (Var "_y") (Var "Zz"))))
    by reflexivity.
  split; [exact H|].
  exact (parse_names_are_identifiers _ _ H).
Defined.

(** X15: the rendering of a parsed expression parses to the same
    expression: when [parse(s)] returns [e], [parse(repr(e))] returns [e]
    too. *)
Theorem parse_repr_parse (s : string) (e : Expr) :
  parse s = Done e -> parse (repr e) = Done e.
Proof.
  intros H. apply parse_repr_well_named, (parse_well_named s e H).
Qed.

Lemma parse_repr_parse_witness :
  parse "~a&b   ->c"
  = Done (Implies (And (Not (Var "a")) (Var "b")) (Var "c"))
  /\ repr (Implies (And (Not (Var "a")) (Var "b")) (Var "c"))
     = "(((~a) & b) -> c)"
  /\ parse (repr (Implies (And (Not (Var "a")) (Var "b")) (Var "c")))
     = Done (Implies (And (Not (Var "a")) (Var "b")) (Var "c")).
Proof.
  assert (H : parse "~a&b   ->c"
              = Done (Implies (And (Not (Var "a")) (Var "b")) (Var "c")))
    by reflexivity.
  split; [exact H|]. split; [reflexivity|].
  exact (parse_repr_parse _ _ H).
Defined.

(** ** What the lexer keeps *)

Section LexerContent.

Implicit Types (s t rest : string) (c : ascii).

Lemma starts_with_split (p s : string) :
  starts_with p s = true -> s = p +:+ string_drop (String.length p) s.
Proof.
  revert s. induction p as [|a p IH]; intros s; [reflexivity|].
  destruct s as [|b s]; [discriminate|]. rewrite starts_with_cons.
  intros H. apply andb_prop in H as [Hab Hp].
  apply Ascii.eqb_eq in Hab as ->.
  change (String b s = String b (p +:+ string_drop (String.length p) s)).
  rewrite <- (IH s Hp). reflexivity.
Qed.

Lemma ident_run_split s :
  s = (ident_run s).1 +:+ (ident_run s).2.
Proof.
  induction s as [|c r IH]; simpl; [reflexivity|].
  destruct (is_ident_char c); [|reflexivity].
  destruct (ident_run r) as [run rest]. simpl in *.
  change (String c r = String c (run +:+ rest)). rewrite <- IH. reflexivity.
Qed.

Lemma ident_char_not_space c : is_ident_char c = true -> is_space c = false.
Proof.
  unfold is_ident_char, is_ident_start, is_space.
  generalize (N_of_ascii c) as n. intros n H.
  apply not_true_is_false. intros Hs.
  repeat (rewrite orb_true_iff in H, Hs || rewrite orb_true_iff in H
          || rewrite orb_true_iff in Hs || rewrite andb_true_iff in H
          || rewrite andb_true_iff in Hs || rewrite N.leb_le in H
          || rewrite N.leb_le in Hs || rewrite N.eqb_eq in H
          || rewrite N.eqb_eq in Hs).
  lia.
Qed.

Lemma punct_not_space c : is_punct c = true -> is_space c = false.
Proof.
  unfold is_punct. intros H.
  repeat (rewrite orb_true_iff in H || rewrite Ascii.eqb_eq in H).
  destruct H as [[[[->| ->]| ->]| ->]| ->]; reflexivity.
Qed.

Lemma remove_space_ident_chars s :
  all_ident_chars s = true -> remove_space s = s.
Proof.
  induction s as [|c r IH]; simpl; [reflexivity|].
  intros H. apply andb_prop in H as [Hc Hr].
  rewrite (ident_char_not_space c Hc), (IH Hr). reflexivity.
Qed.

Lemma remove_space_app (a b : string) :
  remove_space (a +:+ b) = remove_space a +:+ remove_space b.
Proof.
  induction a as [|c a IH]; [reflexivity|].
  change (remove_space (String c (a +:+ b))
          = remove_space (String c a) +:+ remove_space b).
  simpl. destruct (is_space c); [exact IH|].
  change (String c (remove_space (a +:+ b))
          = String c (remove_space a +:+ remove_space b)).
  rewrite IH. reflexivity.
Qed.

Lemma remove_space_skip s : remove_space (skip_space s) = remove_space s.
Proof.
  induction s as [|c r IH]; simpl; [reflexivity|].
  destruct (is_space c) eqn:Hc; [exact IH|]. simpl. rewrite Hc. reflexivity.
Qed.

Lemma skip_space_head s c rest :
  skip_space s = String c rest -> is_space c = false.
Proof.
  induction s as [|a r IH]; simpl; [discriminate|].
  destruct (is_space a) eqn:Ha; [exact IH|]. intros [= <- <-]. exact Ha.
Qed.

(** A token is a non-empty piece of text without white space, and the text
    is the token followed by the rest. *)
Lemma match_token_split s t rest :
  match_token s = Some (t, rest) ->
  s = t +:+ rest /\ remove_space t = t /\ t <> EmptyString.
Proof.
  unfold match_token.
  destruct (starts_with "<->" s) eqn:H3.
  { intros [= <- <-]. split; [exact (starts_with_split _ _ H3)|].
    split; [reflexivity | discriminate]. }
  destruct (starts_with "->" s) eqn:H2.
  { intros [= <- <-]. split; [exact (starts_with_split _ _ H2)|].
    split; [reflexivity | discriminate]. }
  destruct s as [|c r]; [discriminate|].
  destruct (is_punct c) eqn:Hp.
  { intros [= <- <-]. split; [reflexivity|]. split; [|discriminate].
    simpl. rewrite (punct_not_space c Hp). reflexivity. }
  destruct (is_ident_start c) eqn:Hc.
  - pose proof (ident_run_split r) as Hsplit.
    pose proof (ident_run_all r) as Hall.
    destruct (ident_run r) as [run rest']. intros [= <- <-].
    simpl in *. split; [|split; [|discriminate]].
    + change (String c r = String c (run +:+ rest')). rewrite <- Hsplit.
      reflexivity.
    + rewrite (ident_start_not_space c Hc).
      rewrite (remove_space_ident_chars run Hall). reflexivity.
  - destruct (is_space c) eqn:Hs; [discriminate|].
    intros [= <- <-]. split; [reflexivity|]. split; [|discriminate].
    simpl. rewrite Hs. reflexivity.
Qed.

(** The pattern fails only when nothing but white space is left. *)
Lemma match_token_None s :
  match_token (skip_space s) = None -> skip_space s = EmptyString.
Proof.
  destruct (skip_space s) as [|c r] eqn:Hs; [reflexivity|].
  pose proof (skip_space_head s c r Hs) as Hc.
  unfold match_token.
  destruct (starts_with "<->" (String c r)); [discriminate|].
  destruct (starts_with "->" (String c r)); [discriminate|].
  destruct (is_punct c); [discriminate|].
  destruct (is_ident_start c); [destruct (ident_run r); discriminate|].
  rewrite Hc. discriminate.
Qed.

Lemma tokenize_content (n : nat) s :
  String.length s < n ->
  join (tokenize s) = remove_space s
  /\ Forall (fun t => remove_space t = t /\ t <> EmptyString) (tokenize s).
Proof.
  revert s. induction n as [|n IH]; intros s Hn; [lia|].
  rewrite tokenize_unfold.
  destruct (match_token (skip_space s)) as [[t rest]|] eqn:Hm.
  - pose proof (match_token_shorter _ _ _ Hm) as Hshort.
    pose proof (length_skip_space s) as Hskip.
    destruct (match_token_split _ _ _ Hm) as (Hsplit & Hclean & Hne).
    destruct (IH rest ltac:(lia)) as [Hjoin Hall].
    split.
    + simpl. rewrite Hjoin, <- (remove_space_skip s), Hsplit.
      rewrite remove_space_app, Hclean. reflexivity.
    + constructor; [split; assumption | exact Hall].
  - apply match_token_None in Hm.
    split; [|constructor].
    simpl. rewrite <- (remove_space_skip s), Hm. reflexivity.
Qed.

End LexerContent.

(** X16: the lexer drops white space and nothing else: the tokens joined
    together are the input without its white-space characters, and every
    token is non-empty and free of white space. *)
Theorem tokenize_keeps_text (s : string) :
  join (tokenize s) = remove_space s
  /\ Forall (fun t => remove_space t = t /\ t <> EmptyString) (tokenize s).
Proof. apply (tokenize_content (S (String.length s))). lia. Qed.

(** ** Parsing several strings *)

Section ParseAll.

Implicit Types (strs : list string) (es : list Expr).

Lemma parse_all_Done strs es :
  parse_all strs = Done es
  <-> Forall2 (fun s e => parse s = Done e) strs es.
Proof.
  revert es. induction strs as [|s rest IH]; intros es; simpl.
  - split.
    + intros [= <-]. constructor.
    + intros H. inversion H. reflexivity.
  - destruct (parse s) as [e|x|] eqn:Hs.
    + destruct (parse_all rest) as [es'|x|] eqn:Hrest.
      * split.
        -- intros [= <-]. constructor; [exact Hs | apply IH; reflexivity].
        -- intros H. inversion H as [|? e' ? es'' He Hes]; subst.
           apply IH in Hes. congruence.
      * split; [discriminate|]. intros H.
        inversion H as [|? e' ? es'' He Hes]; subst.
        apply IH in Hes. discriminate.
      * split; [discriminate|]. intros H.
        inversion H as [|? e' ? es'' He Hes]; subst.
        apply IH in Hes. discriminate.
    + split; [discriminate|]. intros H.
      inversion H as [|? e' ? es'' He Hes]; subst. congruence.
    + split; [discriminate|]. intros H.
      inversion H as [|? e' ? es'' He Hes]; subst. congruence.
Qed.

Lemma parse_all_Fail_first strs (x : Exception) :
  parse_all strs = Fail x ->
  exists before s after,
    strs = before ++ s :: after
    /\ Forall (fun s' => exists e, parse s' = Done e) before
    /\ parse s = Fail x.
Proof.
  induction strs as [|s rest IH]; simpl; [discriminate|].
  destruct (parse s) as [e|y|] eqn:Hs.
  - destruct (parse_all rest) as [es'|y|]; try discriminate.
    intros [= ->]. destruct (IH eq_refl) as (b & s0 & a & -> & Hb & Hf).
    exists (s :: b), s0, a. split; [reflexivity|].
    split; [constructor; eauto | exact Hf].
  - intros [= ->]. exists [], s, rest. split; [reflexivity|].
    split; [constructor | exact Hs].
  - discriminate.
Qed.

Lemma parse_all_Fail_at (before : list string) (s : string)
    (after : list string) (x : Exception) :
  Forall (fun s' => exists e, parse s' = Done e) before ->
  parse s = Fail x ->
  parse_all (before ++ s :: after) = Fail x.
Proof.
  intros Hb Hs. induction Hb as [|s' b [e He] Hb IH]; simpl.
  - rewrite Hs. reflexivity.
  - rewrite He, IH. reflexivity.
Qed.

Lemma parse_all_Fail strs (x : Exception) :
  parse_all strs = Fail x
  <-> exists before s after,
        strs = before ++ s :: after
        /\ Forall (fun s' => exists e, parse s' = Done e) before
        /\ parse s = Fail x.
Proof.
  split; [apply parse_all_Fail_first|].
  intros (b & s & a & -> & Hb & Hs). apply parse_all_Fail_at; assumption.
Qed.

End ParseAll.

(** X17: [parse_all] returns the list of the parsed expressions, in order,
    exactly when every string parses; otherwise it raises what [parse]
    raises on the first string that does not parse, and always one of the
    two. *)
Theorem parse_all_first_failure (strs : list string) :
  (forall es, parse_all strs = Done es
              <-> Forall2 (fun s e => parse s = Done e) strs es)
  /\ (forall x, parse_all strs = Fail x
                <-> exists before s after,
                      strs = before ++ s :: after
                      /\ Forall (fun s' => exists e, parse s' = Done e) before
                      /\ parse s = Fail x)
  /\ parse_all strs <> Exhausted.
Proof.
  split; [intros es; apply parse_all_Done|].
  split; [intros x; apply parse_all_Fail|].
  induction strs as [|s rest IH]; simpl; [discriminate|].
  pose proof (parse_not_exhausted s) as Hs.
  destruct (parse s); [|discriminate|congruence].
  destruct (parse_all rest); [discriminate|discriminate|congruence].
Qed.

(** ** Parentheses of an accepted input, both ways *)

Section StrictBalance.

Implicit Types (k : entry) (self : Parser) (e : Expr) (ts : list string).

Lemma same_balance_refl ts (p : nat) : same_balance ts p p.
Proof. intros d. reflexivity. Qed.

Lemma same_balance_trans ts (p q r : nat) :
  same_balance ts p q -> same_balance ts q r -> same_balance ts p r.
Proof. intros H1 H2 d. rewrite H1. apply H2. Qed.

Lemma same_balance_token ts (p : nat) (t : string) :
  ts !! p = Some t -> String.eqb t "(" = false -> String.eqb t ")" = false ->
  same_balance ts p (p + 1).
Proof.
  intros Hp Ho Hc d. rewrite (drop_S ts t p Hp), Nat.add_1_r. simpl.
  rewrite Ho, Hc. reflexivity.
Qed.

Lemma same_balance_operator ts (p : nat) (t op : string) :
  ts !! p = Some t -> is_tok (Some t) op = true ->
  String.eqb op "(" = false -> String.eqb op ")" = false ->
  same_balance ts p (p + 1).
Proof.
  unfold is_tok. intros Hp Hop Ho Hc. apply String.eqb_eq in Hop as ->.
  eapply same_balance_token; eassumption.
Qed.

Lemma same_balance_identifier ts (p : nat) (t : string) :
  ts !! p = Some t -> ident_match t = true -> same_balance ts p (p + 1).
Proof.
  intros Hp Ht. eapply same_balance_token; [exact Hp | |];
    destruct (String.eqb_spec t "(") as [->|]; try discriminate;
    destruct (String.eqb_spec t ")") as [->|]; try discriminate;
    reflexivity.
Qed.

Lemma same_balance_parentheses ts (p q : nat) (t t' : string) :
  ts !! p = Some t -> String.eqb t "(" = true ->
  same_balance ts (p + 1) q ->
  ts !! q = Some t' -> is_tok (Some t') ")" = true ->
  same_balance ts p (q + 1).
Proof.
  unfold is_tok. intros Hp Ho Hin Hq Hc d.
  rewrite (drop_S ts t p Hp). simpl. rewrite Ho.
  pose proof (Hin (S d)) as Hin'. rewrite Nat.add_1_r in Hin'.
  rewrite Hin'.
  rewrite (drop_S ts t' q Hq), Nat.add_1_r. simpl. rewrite Hc.
  destruct (String.eqb t' "(") eqn:E; [|reflexivity].
  apply String.eqb_eq in E. apply String.eqb_eq in Hc. congruence.
Qed.

Ltac balance_chain :=
  solve
    [ apply same_balance_refl
    | eassumption
    | eapply same_balance_parentheses; eassumption
    | eapply same_balance_trans; [eassumption | balance_chain]
    | eapply same_balance_trans;
        [ eapply same_balance_operator;
            [eassumption | eassumption | reflexivity | reflexivity]
        | balance_chain ]
    | eapply same_balance_trans;
        [ eapply same_balance_identifier; eassumption | balance_chain ] ].

Lemma run_same_balance (n : nat) k self e self' :
  run k n self = Done (e, self') ->
  same_balance (tokens self) (pos self) (pos self').
Proof.
  revert k self e self'. induction n as [|n IH]; intros k self e self' H.
  - rewrite run_O in H. discriminate.
  - rewrite run_S in H.
    destruct k; unfold and_then, peek, pop, ret, raise in H; simpl in H;
      parser_cases; try discriminate;
      repeat match goal with
             | H : Done _ = Done _ |- _ => injection H as <- <-
             | E : run _ n _ = Done _ |- _ =>
                 let P := fresh "Hprog" in
                 pose proof (run_progress _ _ _ _ _ E) as [P _];
                 apply IH in E; simpl in E, P
             end;
      repeat match goal with
             | P : tokens _ = tokens _ |- _ => rewrite P in *; clear P
             | E : Some _ = Some _ |- _ => injection E as E; subst
             end;
      simpl;
      try match goal with
          | E : negb (is_tok _ _) = false |- _ =>
              apply negb_false_iff in E
          end;
      try match goal with
          | E : is_tok None _ = true |- _ => cbv in E; discriminate E
          end;
      balance_chain.
Qed.

End StrictBalance.

(** X18: the parentheses of every input that [parse] accepts are balanced:
    each [)] token closes an earlier [(] token and no [(] is left open. *)
Theorem parse_accepts_balanced (s : string) (e : Expr) :
  parse s = Done e -> balanced_from 0 (tokenize s) = true.
Proof.
  unfold parse. destruct (tokenize s) as [|t ts]; [discriminate|].
  unfold Parser_parse, and_then, peek, ret, raise.
  change (parse_iff ?n) with (run EIff n). cbn [tokens].
  destruct (run EIff _ (mkParser (t :: ts) 0)) as [[e' self']| |] eqn:Hrun;
    try discriminate.
  destruct (tokens self' !! pos self') eqn:Hend; [discriminate|]. intros _.
  pose proof (run_progress _ _ _ _ _ Hrun) as [Htok _].
  pose proof (run_same_balance _ _ _ _ _ Hrun 0) as Hd.
  simpl tokens in *. simpl pos in *. rewrite Htok in Hend.
  apply lookup_ge_None in Hend.
  rewrite drop_0, (drop_ge _ _ Hend) in Hd. exact Hd.
Qed.

Lemma parse_accepts_balanced_witness :
  parse "(a | (b)) & ~(c)"
  = Done (And (Or (Var "a") (Var "b")) (Not (Var "c")))
  /\ balanced_from 0 (tokenize "(a | (b)) & ~(c)") = true.
Proof.
  assert (H : parse "(a | (b)) & ~(c)"
              = Done (And (Or (Var "a") (Var "b")) (Not (Var "c"))))
    by reflexivity.
  split; [exact H|]. exact (parse_accepts_balanced _ _ H).
Defined.

(** ** A token that cannot start an expression *)

Section BadStart.

Lemma run_atom_bad_start (n : nat) (t : string) (ts : list string) :
  String.eqb t "(" = false -> ident_match t = false ->
  run EAtom (S n) (mkParser (t :: ts) 0)
  = Fail (ParserError ("Unexpected token " +:+ t)).
Proof.
  intros Hopen Hid. rewrite run_S. unfold and_then, peek, raise. simpl.
  rewrite Hopen, Hid. reflexivity.
Qed.

Lemma run_iff_bad_start (n : nat) (t : string) (ts : list string) :
  String.eqb t "(" = false -> String.eqb t "~" = false ->
  ident_match t = false ->
  run EIff (6 + n) (mkParser (t :: ts) 0)
  = Fail (ParserError ("Unexpected token " +:+ t)).
Proof.
  intros Hopen Htilde Hid.
  pose proof (run_atom_bad_start n t ts Hopen Hid) as Hatom.
  assert (Hnot : run ENot (2 + n) (mkParser (t :: ts) 0)
                 = Fail (ParserError ("Unexpected token " +:+ t))).
  { simpl plus. rewrite run_S. unfold and_then at 1. unfold peek. simpl.
    unfold is_tok. rewrite Htilde. exact Hatom. }
  assert (Hand : run EAnd (3 + n) (mkParser (t :: ts) 0)
                 = Fail (ParserError ("Unexpected token " +:+ t))).
  { simpl plus. rewrite run_S. apply and_then_Fail, Hnot. }
  assert (Hor : run EOr (4 + n) (mkParser (t :: ts) 0)
                = Fail (ParserError ("Unexpected token " +:+ t))).
  { simpl plus. rewrite run_S. apply and_then_Fail, Hand. }
  assert (Himp : run EImp (5 + n) (mkParser (t :: ts) 0)
                 = Fail (ParserError ("Unexpected token " +:+ t))).
  { simpl plus. rewrite run_S. apply and_then_Fail, Hor. }
  simpl plus. rewrite run_S. apply and_then_Fail, Himp.
Qed.

End BadStart.

(** X19: when the first token of the input is neither [(], nor [~], nor
    starts like an identifier, [parse] raises
    [ParserError("Unexpected token " + token)] for this first token. *)
Theorem parse_bad_first_token (s t : string) (ts : list string) :
  tokenize s = t :: ts ->
  t <> "(" -> t <> "~" -> ident_match t = false ->
  parse s = Fail (ParserError ("Unexpected token " +:+ t)).
Proof.
  intros Hts Hopen Htilde Hid. unfold parse. rewrite Hts.
  unfold Parser_parse, and_then.
  change (parse_iff ?n) with (run EIff n). cbn [tokens].
  replace (8 * length (t :: ts) + 7)
    with (6 + (8 * length ts + 9)) by (simpl; lia).
  rewrite run_iff_bad_start; [reflexivity | | | exact Hid].
  - apply String.eqb_neq, Hopen.
  - apply String.eqb_neq, Htilde.
Qed.

Lemma parse_bad_first_token_witness :
  tokenize "& A $" = ["&"; "A"; "$"]
  /\ parse "& A $" = Fail (ParserError "Unexpected token &").
Proof.
  split; [reflexivity|].
  apply (parse_bad_first_token "& A $" "&" ["A"; "$"]);
    [reflexivity | discriminate | discriminate | reflexivity].
Defined.

(** ** Tokens after a complete expression *)

Section Trailing.

Implicit Types (k : entry) (self : Parser) (e : Expr) (suf : list string).

Lemma lookup_extend_None (l suf : list string) (i : nat) :
  l !! i = None -> i <= length l -> (l ++ suf) !! i = head suf.
Proof.
  intros Hnone Hle. apply lookup_ge_None in Hnone.
  rewrite lookup_app_r by lia.
  replace (i - length l) with 0 by lia. destruct suf; reflexivity.
Qed.

Lemma run_atom_end (n : nat) self (x : Expr * Parser) :
  tokens self !! pos self = None -> run EAtom n self = Done x -> False.
Proof.
  intros Hnone. destruct n as [|n]; [rewrite run_O; discriminate|].
  rewrite run_S. unfold and_then, peek, raise. simpl. rewrite Hnone.
  discriminate.
Qed.

(** A method that returns does the same when further tokens follow the
    input, provided the first of them is not a binary operator. *)
Lemma run_extend (n : nat) k self e self' suf :
  run k n self = Done (e, self') ->
  pos self <= length (tokens self) -> stopper (head suf) ->
  run k n (extend_tokens suf self) = Done (e, extend_tokens suf self')
  /\ pos self' <= length (tokens self').
Proof.
  revert k self e self'. induction n as [|n IH];
    intros k self e self' H Hpos Hstop.
  - rewrite run_O in H. discriminate.
  - rewrite run_S in H. rewrite (run_S k n).
    destruct Hstop as (Sand & Sor & Simp & Siff).
    destruct k; unfold and_then, peek, pop, ret, raise, extend_tokens in *;
      simpl in *; parser_cases; try discriminate;
      repeat match goal with
             | H : Done _ = Done _ |- _ => injection H as <- <-
             | E : Some _ = Some _ |- _ => injection E as E; subst
             | E : is_tok (?l !! ?i) _ = _ |- _ =>
                 let L := fresh "Elook" in destruct (l !! i) eqn:L
             end;
      try match goal with
          | E : is_tok None _ = true |- _ => cbv in E; discriminate E
          end;
      try match goal with
          | E : run EAtom n ?s = Done _, L : tokens ?s !! pos ?s = None
            |- _ => exfalso; exact (run_atom_end n s _ L E)
          end;
      repeat match goal with
             | E : ?l !! ?i = Some _ |- _ =>
                 lazymatch goal with
                 | _ : i < length l |- _ => fail
                 | _ => pose proof (lookup_lt_Some _ _ _ E)
                 end
             end;
      repeat match goal with
             | E : run ?k' n ?s = Done (?x, ?s') |- _ =>
                 let R := fresh "R" in
                 let L := fresh "L" in
                 destruct (IH k' s x s' E) as [R L];
                 [ simpl; lia | repeat split; assumption | ];
                 clear E; simpl in R, L
             end;
      repeat match goal with
             | E : ?l !! ?i = Some _ |- context [(?l ++ suf) !! ?i] =>
                 rewrite (lookup_app_l_Some _ suf _ _ E); simpl
             | E : ?l !! ?i = None |- context [(?l ++ suf) !! ?i] =>
                 rewrite (lookup_extend_None l suf i E) by (simpl; lia);
                 simpl
             | R : run ?k' n ?s = Done _ |- context [run ?k' n ?s] =>
                 rewrite R; simpl
             | E : is_tok ?t ?op = _ |- context [is_tok ?t ?op] =>
                 rewrite E; simpl
             | E : String.eqb _ _ = _ |- _ => rewrite E; simpl
             | E : ident_match _ = _ |- _ => rewrite E; simpl
             | E : negb _ = _ |- _ => rewrite E; simpl
             end;
      try (split; [reflexivity | simpl; lia]).
Qed.

End Trailing.

(** ** White space between two texts *)

Section LexerSeparation.

Implicit Types (s u r t rest X : string) (c : ascii).

Lemma starts_with_app_true (p u X : string) :
  starts_with p u = true ->
  starts_with p (u +:+ X) = true
  /\ string_drop (String.length p) (u +:+ X)
     = string_drop (String.length p) u +:+ X.
Proof.
  revert u. induction p as [|a p IH]; intros u; [split; reflexivity|].
  destruct u as [|b u]; [discriminate|].
  change (String b u +:+ X) with (String b (u +:+ X)).
  rewrite !starts_with_cons. intros H. apply andb_prop in H as [Hab Hp].
  destruct (IH u Hp) as [H1 H2]. rewrite Hab, H1. split; [reflexivity|].
  simpl. exact H2.
Qed.

Lemma starts_with_app_false (p u X : string) c :
  no_space p = true -> is_space c = true ->
  starts_with p u = false -> starts_with p (u +:+ String c X) = false.
Proof.
  revert u. induction p as [|a p IH]; intros u Hp Hc; [discriminate|].
  simpl in Hp. apply andb_prop in Hp as [Ha Hp].
  destruct u as [|b u].
  - intros _. change (EmptyString +:+ String c X) with (String c X).
    rewrite starts_with_cons.
    destruct (Ascii.eqb_spec a c) as [->|_]; [|reflexivity].
    rewrite Hc in Ha. discriminate.
  - change (String b u +:+ String c X) with (String b (u +:+ String c X)).
    rewrite !starts_with_cons.
    destruct (Ascii.eqb a b); simpl; [|reflexivity].
    apply IH; assumption.
Qed.

Lemma space_not_ident_char c : is_space c = true -> is_ident_char c = false.
Proof.
  intros Hc. destruct (is_ident_char c) eqn:Hi; [|reflexivity].
  rewrite (ident_char_not_space c Hi) in Hc. discriminate.
Qed.

Lemma ident_run_app_space r c X :
  is_space c = true ->
  ident_run (r +:+ String c X)
  = ((ident_run r).1, (ident_run r).2 +:+ String c X).
Proof.
  intros Hc. induction r as [|a r IH].
  - change (EmptyString +:+ String c X) with (String c X). simpl.
    rewrite (space_not_ident_char c Hc). reflexivity.
  - change (String a r +:+ String c X) with (String a (r +:+ String c X)).
    simpl. destruct (is_ident_char a); [|reflexivity].
    rewrite IH. destruct (ident_run r) as [run rest]. reflexivity.
Qed.

Lemma match_token_app_space u c X t rest :
  is_space c = true -> match_token u = Some (t, rest) ->
  match_token (u +:+ String c X) = Some (t, rest +:+ String c X).
Proof.
  intros Hc. unfold match_token.
  destruct (starts_with "<->" u) eqn:H3.
  { intros [= <- <-].
    destruct (starts_with_app_true "<->" u (String c X) H3) as [H H'].
    change (String.length "<->") with 3 in H'. rewrite H, H'.
    reflexivity. }
  rewrite (starts_with_app_false "<->" u X c eq_refl Hc H3).
  destruct (starts_with "->" u) eqn:H2.
  { intros [= <- <-].
    destruct (starts_with_app_true "->" u (String c X) H2) as [H H'].
    change (String.length "->") with 2 in H'. rewrite H, H'.
    reflexivity. }
  rewrite (starts_with_app_false "->" u X c eq_refl Hc H2).
  destruct u as [|a r]; [discriminate|].
  change (String a r +:+ String c X) with (String a (r +:+ String c X)).
  cbv beta iota.
  destruct (is_punct a); [intros [= <- <-]; reflexivity|].
  destruct (is_ident_start a).
  - rewrite (ident_run_app_space r c X Hc).
    destruct (ident_run r) as [run rest']. intros [= <- <-]. reflexivity.
  - destruct (negb (is_space a)); [|discriminate].
    intros [= <- <-]. reflexivity.
Qed.

Lemma skip_space_app s Y :
  skip_space (s +:+ Y)
  = match skip_space s with
    | EmptyString => skip_space Y
    | String a r => String a r +:+ Y
    end.
Proof.
  induction s as [|a s IH]; [reflexivity|].
  change (String a s +:+ Y) with (String a (s +:+ Y)). simpl.
  destruct (is_space a); [exact IH | reflexivity].
Qed.

Lemma tokenize_app_space (n : nat) s c X :
  is_space c = true -> String.length s < n ->
  tokenize (s +:+ String c X) = tokenize s ++ tokenize X.
Proof.
  intros Hc. revert s. induction n as [|n IH]; intros s Hn; [lia|].
  rewrite (tokenize_unfold (s +:+ String c X)), (tokenize_unfold s).
  rewrite skip_space_app.
  destruct (skip_space s) as [|a r] eqn:Hs.
  - simpl. rewrite Hc. rewrite <- tokenize_unfold. reflexivity.
  - destruct (match_token (String a r)) as [[t rest]|] eqn:Hm.
    + rewrite (match_token_app_space _ c X t rest Hc Hm).
      pose proof (match_token_shorter _ _ _ Hm) as Hshort.
      pose proof (length_skip_space s) as Hskip. rewrite Hs in Hskip.
      rewrite IH by lia. reflexivity.
    + rewrite <- Hs in Hm. apply match_token_None in Hm. congruence.
Qed.

End LexerSeparation.

(** X20: white space separates tokens: the tokens of two texts with a
    white-space character between them are the tokens of the first followed
    by the tokens of the second. *)
Theorem tokenize_separated (s1 s2 : string) (c : ascii) :
  is_space c = true ->
  tokenize (s1 +:+ String c s2) = tokenize s1 ++ tokenize s2.
Proof.
  intros Hc. apply (tokenize_app_space (S (String.length s1))); [exact Hc|].
  lia.
Qed.

Lemma tokenize_separated_witness :
  is_space " " = true
  /\ tokenize ("A <-" +:+ String " " ">B") = tokenize "A <-" ++ tokenize ">B".
Proof.
  split; [reflexivity|].
  apply (tokenize_separated "A <-" ">B" " "). reflexivity.
Defined.

Section TrailingParse.

Lemma Parser_parse_trailing (ts : list string) (e : Expr) (self' : Parser)
    (t : string) (ts2 : list string) :
  Parser_parse (mkParser ts 0) = Done (e, self') ->
  stopper (Some t) ->
  Parser_parse (mkParser (ts ++ t :: ts2) 0)
  = Fail (ParserError ("Unexpected token " +:+ t)).
Proof.
  unfold Parser_parse, and_then.
  change (parse_iff ?n) with (run EIff n). cbn [tokens].
  destruct (run EIff (8 * length ts + 7) (mkParser ts 0))
    as [[e' end_]| |] eqn:Hrun; try discriminate.
  unfold peek, ret, raise.
  destruct (tokens end_ !! pos end_) eqn:Hend; [discriminate|].
  intros _ Hstop.
  pose proof (run_progress _ _ _ _ _ Hrun) as [Htok _]. simpl in Htok.
  destruct (run_extend _ _ _ _ _ (t :: ts2) Hrun) as [Hext Hle];
    [simpl; lia | exact Hstop |].
  unfold extend_tokens in Hext. simpl in Hext.
  assert (Hfuel : 8 * length ts + 7 <= 8 * length (ts ++ t :: ts2) + 7)
    by (rewrite length_app; lia).
  assert (Hdone : Done (e', mkParser (tokens end_ ++ t :: ts2) (pos end_))
                  <> Exhausted) by discriminate.
  rewrite Htok in Hext, Hdone.
  rewrite (run_fuel_le _ _ _ _ _ Hfuel Hext Hdone).
  cbn [tokens pos]. rewrite Htok in Hend, Hle.
  rewrite (lookup_extend_None _ (t :: ts2) _ Hend Hle). reflexivity.
Qed.

End TrailingParse.

(** X21: tokens left after a complete expression are rejected: when
    [parse(s1)] returns and the first token of [s2] is not one of [&], [|],
    [->], [<->], [parse(s1 + " " + s2)] raises
    [ParserError("Unexpected token " + t)] for this first token [t]. *)
Theorem parse_trailing_token (s1 s2 : string) (e : Expr) (t : string)
    (ts2 : list string) :
  parse s1 = Done e ->
  tokenize s2 = t :: ts2 ->
  t <> "&" -> t <> "|" -> t <> "->" -> t <> "<->" ->
  parse (s1 +:+ " " +:+ s2)
  = Fail (ParserError ("Unexpected token " +:+ t)).
Proof.
  intros Hparse Hts2 Hand Hor Himp Hiff. unfold parse in *.
  change (s1 +:+ " " +:+ s2) with (s1 +:+ String " " s2).
  rewrite (tokenize_app_space (S (String.length s1)) s1 " " s2 eq_refl)
    by lia.
  rewrite Hts2.
  destruct (tokenize s1) as [|t1 ts1]; [discriminate|].
  destruct (Parser_parse (mkParser (t1 :: ts1) 0)) as [[e' self']| |] eqn:Hp;
    try discriminate.
  rewrite (Parser_parse_trailing (t1 :: ts1) e' self' t ts2 Hp).
  - reflexivity.
  - unfold stopper, is_tok. repeat split; apply String.eqb_neq; assumption.
Qed.

Lemma parse_trailing_token_witness :
  parse "A & B" = Done (And (Var "A") (Var "B"))
  /\ tokenize "(C)" = ["("; "C"; ")"]
  /\ parse ("A & B" +:+ " " +:+ "(C)")
     = Fail (ParserError ("Unexpected token " +:+ "(")).
Proof.
  split; [reflexivity|]. split; [reflexivity|].
  apply (parse_trailing_token "A & B" "(C)" (And (Var "A") (Var "B"))
           "(" ["C"; ")"]);
    [reflexivity | reflexivity | discriminate ..].
Defined.

(** ** Entailment by refutation *)

Lemma satisfies_app (axioms1 axioms2 : list Expr) (v : Valuation) :
  satisfies (axioms1 ++ axioms2) v
  <-> satisfies axioms1 v /\ satisfies axioms2 v.
Proof.
  unfold satisfies. rewrite !all_eval_true. split.
  - intros H. split; intros a Ha; apply H, elem_of_app; auto.
  - intros [H1 H2] a Ha. apply elem_of_app in Ha as [Ha|Ha]; auto.
Qed.

(** X22: entailment is unsatisfiability of the axioms together with the
    negated proposition: [entails(axioms, p)] is the negation of the
    boolean of [is_satisfiable(axioms + [Not(p)], max_models)], for every
    bound. *)
Theorem entails_by_refutation (axioms : list Expr) (p : Expr)
    (max_models : Z) :
  exists sat models,
    is_satisfiable (axioms ++ [Not p]) max_models = Ok (sat, models)
    /\ entails axioms p = Ok (negb sat).
Proof.
  destruct (is_satisfiable_sat (axioms ++ [Not p]) max_models)
    as (sat & models & Hs & Hsat).
  exists sat, models. split; [exact Hs|].
  assert (HX : vars_union (axioms ++ [Not p]) = vars_union (axioms ++ [p])).
  { rewrite !vars_union_app, !vars_union_singleton. reflexivity. }
  rewrite HX in Hsat.
  assert (Hcex : forall v,
            satisfies (axioms ++ [Not p]) v <-> counterexample axioms p v).
  { intros v. rewrite satisfies_app, satisfies_cons. unfold counterexample.
    simpl. rewrite lift_Ok. split.
    - intros (Ha & (b & Hb & Hn) & _). destruct b; [discriminate|auto].
    - intros [Ha Hp]. split; [exact Ha|]. split; [|reflexivity].
      exists false. auto. }
  destruct (entails_Ok axioms p) as [b Hb]. rewrite Hb. f_equal.
  assert (Hiff : entails axioms p = Ok true
    <-> forall v, v ∈ all_valuations (sorted (vars_union (axioms ++ [p])))
                  -> ~ counterexample axioms p v).
  { rewrite entails_find_counterexample, <- find_counterexample_None.
    rewrite lift_Ok. split.
    - intros ([w|] & H & Hw); [discriminate | exact H].
    - intros H. exists None. auto. }
  destruct b, sat; try reflexivity; exfalso.
  - destruct (proj1 Hsat eq_refl) as (v & Hv & Hsv).
    apply (proj1 Hiff Hb v Hv), Hcex, Hsv.
  - assert (Htrue : entails axioms p = Ok true).
    { apply Hiff. intros v Hv Hc.
      assert (false = true); [|discriminate].
      apply Hsat. exists v. split; [exact Hv | apply Hcex, Hc]. }
    congruence.
Qed.

(** ** Inputs that lack only closing parentheses *)

Section LexerClose.

Implicit Types (s u r X : string) (c : ascii).

Lemma starts_with_app_other (p u X : string) c :
  (forall a, In a (list_ascii_of_string p) -> a <> c) ->
  starts_with p u = false -> starts_with p (u +:+ String c X) = false.
Proof.
  revert u. induction p as [|a p IH]; intros u Hp; [discriminate|].
  destruct u as [|b u].
  - intros _. change (EmptyString +:+ String c X) with (String c X).
    rewrite starts_with_cons.
    destruct (Ascii.eqb_spec a c) as [->|_]; [|reflexivity].
    exfalso. apply (Hp c); [left; reflexivity | reflexivity].
  - change (String b u +:+ String c X) with (String b (u +:+ String c X)).
    rewrite !starts_with_cons.
    destruct (Ascii.eqb a b); simpl; [|reflexivity].
    apply IH. intros a' Ha'. apply Hp. right. exact Ha'.
Qed.

Lemma ident_run_app_other r c X :
  is_ident_char c = false ->
  ident_run (r +:+ String c X)
  = ((ident_run r).1, (ident_run r).2 +:+ String c X).
Proof.
  intros Hc. induction r as [|a r IH].
  - change (EmptyString +:+ String c X) with (String c X). simpl.
    rewrite Hc. reflexivity.
  - change (String a r +:+ String c X) with (String a (r +:+ String c X)).
    simpl. destruct (is_ident_char a); [|reflexivity].
    rewrite IH. destruct (ident_run r) as [run rest]. reflexivity.
Qed.

(** A [)] after the text does not change the token matched at its
    start. *)
Lemma match_token_app_close u X (t rest : string) :
  match_token u = Some (t, rest) ->
  match_token (u +:+ String ")" X) = Some (t, rest +:+ String ")" X).
Proof.
  unfold match_token.
  destruct (starts_with "<->" u) eqn:H3.
  { intros [= <- <-].
    destruct (starts_with_app_true "<->" u (String ")" X) H3) as [H H'].
    change (String.length "<->") with 3 in H'. rewrite H, H'.
    reflexivity. }
  rewrite (starts_with_app_other "<->" u X ")");
    [| intros a [<-|[<-|[<-|[]]]]; discriminate | exact H3].
  destruct (starts_with "->" u) eqn:H2.
  { intros [= <- <-].
    destruct (starts_with_app_true "->" u (String ")" X) H2) as [H H'].
    change (String.length "->") with 2 in H'. rewrite H, H'.
    reflexivity. }
  rewrite (starts_with_app_other "->" u X ")");
    [| intros a [<-|[<-|[]]]; discriminate | exact H2].
  destruct u as [|a r]; [discriminate|].
  change (String a r +:+ String ")" X)
    with (String a (r +:+ String ")" X)).
  cbv beta iota.
  destruct (is_punct a); [intros [= <- <-]; reflexivity|].
  destruct (is_ident_start a).
  - rewrite (ident_run_app_other r ")" X eq_refl).
    destruct (ident_run r) as [run rest']. intros [= <- <-]. reflexivity.
  - destruct (negb (is_space a)); [|discriminate].
    intros [= <- <-]. reflexivity.
Qed.

Lemma tokenize_app_close (n : nat) s X :
  String.length s < n ->
  tokenize (s +:+ String ")" X) = tokenize s ++ ")" :: tokenize X.
Proof.
  revert s. induction n as [|n IH]; intros s Hn; [lia|].
  rewrite (tokenize_unfold (s +:+ String ")" X)), (tokenize_unfold s).
  rewrite skip_space_app.
  destruct (skip_space s) as [|a r] eqn:Hs.
  - reflexivity.
  - destruct (match_token (String a r)) as [[t rest]|] eqn:Hm.
    + rewrite (match_token_app_close _ X t rest Hm).
      pose proof (match_token_shorter _ _ _ Hm) as Hshort.
      pose proof (length_skip_space s) as Hskip. rewrite Hs in Hskip.
      rewrite IH by lia. reflexivity.
    + rewrite <- Hs in Hm. apply match_token_None in Hm. congruence.
Qed.

Lemma tokenize_closers (k : nat) : tokenize (closers k) = replicate k ")".
Proof.
  induction k as [|k IH]; [reflexivity|].
  simpl. rewrite tokenize_unfold. simpl. rewrite IH. reflexivity.
Qed.

(** The lexer reads the closing parentheses appended to a text as so many
    [)] tokens after the tokens of the text. *)
Lemma tokenize_unclosed s (k : nat) :
  tokenize (s +:+ closers (S k)) = tokenize s ++ ")" :: replicate k ")".
Proof.
  simpl. rewrite (tokenize_app_close (S (String.length s))) by lia.
  rewrite tokenize_closers. reflexivity.
Qed.

End LexerClose.

(** Case analysis along one level of a method, in one hypothesis only. *)
Ltac parser_cases_in H :=
  repeat match type of H with
  | context [match run ?k ?n ?s with _ => _ end] =>
      let E := fresh "Erun" in
      destruct (run k n s) as [[? ?]| ? |] eqn:E; simpl in H
  | context [match ?l !! ?i with _ => _ end] =>
      let E := fresh "Elook" in destruct (l !! i) eqn:E; simpl in H
  | context [if ?b then _ else _] =>
      let E := fresh "Etest" in destruct b eqn:E; simpl in H
  end.

Section Unclosed.

Implicit Types (k : entry) (self : Parser) (e : Expr) (rest : list string).

Lemma stopper_close rest : stopper (head (")" :: rest)).
Proof. repeat split. Qed.

(** What a method raises on an input that it accepts once a [)] (and
    whatever else) is added at the end is the missing-[)] error. *)
Lemma run_Fail_unclosed (n : nat) k self (x : Exception)
    (y : Expr * Parser) rest :
  run k n self = Fail x ->
  pos self <= length (tokens self) ->
  run k n (extend_tokens (")" :: rest) self) = Done y ->
  x = ParserError "Expected ')'".
Proof.
  revert k self x y. induction n as [|n IH]; intros k self x y H Hpos H2.
  - rewrite run_O in H. discriminate.
  - rewrite run_S in H. rewrite run_S in H2.
    pose proof (stopper_close rest) as Hstop.
    destruct k; unfold and_then, peek, pop, ret, raise, extend_tokens in *;
      simpl in H, H2; parser_cases_in H; try discriminate H;
      try (injection H as <-).
    all: repeat match goal with
             | E : Some _ = Some _ |- _ => injection E as E; subst
             | E : is_tok (?l !! ?i) _ = _ |- _ =>
                 let L := fresh "Elook" in destruct (l !! i) eqn:L
             end.
    all: try match goal with
          | E : is_tok None _ = true |- _ => cbv in E; discriminate E
          end.
    all: repeat match goal with
             | E : ?l !! ?i = Some _ |- _ =>
                 lazymatch goal with
                 | _ : i < length l |- _ => fail
                 | _ => pose proof (lookup_lt_Some _ _ _ E)
                 end
             end.
    all: repeat match goal with
             | E : run ?k' ?m ?s = Done (?x, ?s') |- _ =>
                 let R := fresh "R" in
                 let L := fresh "L" in
                 destruct (run_extend m k' s x s' (")" :: rest) E) as [R L];
                 [ simpl; lia | exact Hstop | ];
                 clear E; unfold extend_tokens in R; simpl in R, L
             end.
    all: try reflexivity.
    all: repeat match goal with
         | R : run ?k' ?m ?s = Done _ |- _ =>
             tryif constr_eq R H2 then fail else
             match type of H2 with
             | context [run k' m s] => rewrite R in H2; simpl in H2
             end
         | E : ?l !! ?i = Some _ |- _ =>
             match type of H2 with
             | context [(l ++ ?suf) !! i] =>
                 rewrite (lookup_app_l_Some _ suf _ _ E) in H2; simpl in H2
             end
         | E : ?l !! ?i = None |- _ =>
             match type of H2 with
             | context [(l ++ ?suf) !! i] =>
                 rewrite (lookup_extend_None l suf i E) in H2
                   by (simpl; lia);
                 simpl in H2
             end
         | E : is_tok ?t ?op = _ |- _ =>
             match type of H2 with
             | context [is_tok t op] => rewrite E in H2; simpl in H2
             end
         | E : String.eqb ?a ?b = _ |- _ =>
             match type of H2 with
             | context [String.eqb a b] => rewrite E in H2; simpl in H2
             end
         | E : ident_match ?a = _ |- _ =>
             match type of H2 with
             | context [ident_match a] => rewrite E in H2; simpl in H2
             end
         end.
    all: try discriminate H2.
    all: match goal with
         | E : run ?k' ?m ?s = Fail ?x0 |- ?x0 = _ =>
             first
               [ apply (IH k' s x0 y E); [simpl; lia | exact H2]
               | match type of H2 with
                 | context [run k' m ?s2] =>
                     destruct (run k' m s2) as [y0| |] eqn:E2;
                     try discriminate H2;
                     apply (IH k' s x0 y0 E); [simpl; lia | exact E2]
                 end ]
         end.
Qed.

(** [Parser.parse] on tokens that it accepts once a [)] and further tokens
    follow them: read as they stand, it raises the missing-[)] error. *)
Lemma Parser_parse_unclosed (ts rest : list string) (y : Expr * Parser) :
  Parser_parse (mkParser (ts ++ ")" :: rest) 0) = Done y ->
  Parser_parse (mkParser ts 0) = Fail (ParserError "Expected ')'").
Proof.
  unfold Parser_parse, and_then.
  change (parse_iff ?n) with (run EIff n). cbn [tokens].
  destruct (run EIff (8 * length (ts ++ ")" :: rest) + 7)
              (mkParser (ts ++ ")" :: rest) 0))
    as [[e end_]| |] eqn:Hext; try discriminate.
  unfold peek, ret, raise.
  destruct (tokens end_ !! pos end_) eqn:Hend; [discriminate|]. intros _.
  pose proof (run_progress _ _ _ _ _ Hext) as [Htok _]. simpl in Htok.
  rewrite Htok in Hend. apply lookup_ge_None in Hend.
  rewrite length_app in Hend. simpl in Hend.
  assert (Hfuel : 8 * length ts + 7 <= 8 * length (ts ++ ")" :: rest) + 7)
    by (rewrite length_app; lia).
  destruct (run EIff (8 * length ts + 7) (mkParser ts 0))
    as [[e' self']|x|] eqn:Hrun.
  - exfalso.
    pose proof (run_progress _ _ _ _ _ Hrun) as [Htok' _]. simpl in Htok'.
    destruct (run_extend _ _ _ _ _ (")" :: rest) Hrun) as [Hx Hle];
      [simpl; lia | apply stopper_close |].
    unfold extend_tokens in Hx. simpl in Hx.
    rewrite (run_fuel_le _ _ _ _ _ Hfuel Hx) in Hext by discriminate.
    injection Hext as _ <-. simpl in Hend. rewrite Htok' in Hle. lia.
  - f_equal.
    apply (run_Fail_unclosed (8 * length (ts ++ ")" :: rest) + 7) EIff
             (mkParser ts 0) x (e, end_) rest).
    + eapply run_fuel_le; [exact Hfuel | exact Hrun | discriminate].
    + simpl. lia.
    + exact Hext.
  - exfalso. revert Hrun. apply run_not_exhausted. simpl. lia.
Qed.

Lemma Parser_parse_balanced (ts : list string) (y : Expr * Parser) :
  Parser_parse (mkParser ts 0) = Done y -> balanced_from 0 ts = true.
Proof.
  unfold Parser_parse, and_then, peek, ret, raise.
  change (parse_iff ?n) with (run EIff n). cbn [tokens].
  destruct (run EIff _ (mkParser ts 0)) as [[e' self']| |] eqn:Hrun;
    try discriminate.
  destruct (tokens self' !! pos self') eqn:Hend; [discriminate|]. intros _.
  pose proof (run_progress _ _ _ _ _ Hrun) as [Htok _].
  pose proof (run_same_balance _ _ _ _ _ Hrun 0) as Hd.
  simpl tokens in *. simpl pos in *. rewrite Htok in Hend.
  apply lookup_ge_None in Hend.
  rewrite drop_0, (drop_ge _ _ Hend) in Hd. exact Hd.
Qed.

(** Tokens that become balanced with [k] closing parentheses after them
    leave [k] parentheses open. *)
Lemma balanced_closers (ts : list string) (d k : nat) :
  balanced_from d (ts ++ replicate k ")") = true -> open_depth d ts = k.
Proof.
  revert d. induction ts as [|t ts IH]; intros d; simpl.
  - revert d. induction k as [|k IHk]; intros d; simpl.
    + intros H. apply Nat.eqb_eq in H. exact H.
    + destruct d as [|d]; [discriminate|]. intros H. f_equal.
      apply IHk, H.
  - destruct (String.eqb t "("); [apply IH|].
    destruct (String.eqb t ")"); [|apply IH].
    destruct d as [|d]; [discriminate|]. apply IH.
Qed.

End Unclosed.

(** C9, amended: parsing an input that contains a [(] with no matching [)]
    fails with a [ParserError]; the error is [ParserError("Expected ')'")]
    whenever closing parentheses are all that the input lacks, that is,
    whenever the input followed by one or more [)] parses (such an input
    does contain a [(] with no matching [)]); and so [parse("(A")] fails
    with it. *)
Theorem parse_unmatched_parenthesis :
  (forall s : string,
     unmatched_open (tokenize s) = true ->
     exists msg, parse s = Fail (ParserError msg))
  /\ (forall (s : string) (k : nat) (e : Expr),
        parse (s +:+ closers (S k)) = Done e ->
        unmatched_open (tokenize s) = true
        /\ parse s = Fail (ParserError "Expected ')'"))
  /\ parse "(A" = Fail (ParserError "Expected ')'").
Proof.
  split; [|split].
  - intros s Hs. destruct (parse s) as [e|x|] eqn:Hp.
    + apply parse_Done_balanced in Hp. congruence.
    + destruct (parse_Fail_ParserError s x Hp) as [msg ->]. eauto.
    + exfalso. exact (parse_not_exhausted s Hp).
  - intros s k e. unfold parse. rewrite tokenize_unclosed.
    destruct (tokenize s) as [|t ts].
    + simpl app. unfold Parser_parse, and_then.
      change (parse_iff ?n) with (run EIff n). cbn [tokens].
      replace (8 * length (")" :: replicate k ")") + 7)
        with (6 + (8 * length (replicate k ")") + 9)) by (simpl; lia).
      rewrite run_iff_bad_start by reflexivity. discriminate.
    + change ((t :: ts) ++ ")" :: replicate k ")")
        with (t :: (ts ++ ")" :: replicate k ")")).
      cbv iota.
      destruct (Parser_parse (mkParser (t :: ts ++ ")" :: replicate k ")") 0))
        as [y| |] eqn:Hp; try discriminate.
      intros _. split.
      * apply (Parser_parse_balanced ((t :: ts) ++ replicate (S k) ")"))
          in Hp.
        apply balanced_closers in Hp. unfold unmatched_open. rewrite Hp.
        reflexivity.
      * rewrite (Parser_parse_unclosed (t :: ts) (replicate k ")") y Hp).
        reflexivity.
  - apply (parse_open_then_expression "A" (Var "A")). reflexivity.
Qed.

Lemma parse_unmatched_parenthesis_witness :
  unmatched_open (tokenize "(A & (B | C)") = true
  /\ parse ("A & (B | ~(C" +:+ closers 2)
     = Done (And (Var "A") (Or (Var "B") (Not (Var "C"))))
  /\ (exists msg, parse "(A & (B | C)" = Fail (ParserError msg))
  /\ unmatched_open (tokenize "A & (B | ~(C") = true
  /\ parse "A & (B | ~(C" = Fail (ParserError "Expected ')'")
  /\ parse "(A" = Fail (ParserError "Expected ')'").
Proof.
  destruct parse_unmatched_parenthesis as (Hfail & Hclose & Hex).
  split; [reflexivity|]. split; [reflexivity|].
  split; [apply Hfail; reflexivity|].
  split; [|split; [|exact Hex]];
    apply (Hclose "A & (B | ~(C" 1
             (And (Var "A") (Or (Var "B") (Not (Var "C")))));
    reflexivity.
Defined.

(** C9 as stated fails on the input [(]: it has a [(] with no matching [)],
    and [parse] raises [ParserError("Unexpected end of input")]. *)
Lemma parse_unmatched_open_counterexample :
  ~ (forall s : string,
       unmatched_open (tokenize s) = true ->
       parse s = Fail (ParserError "Expected ')'")).
Proof.
  intros H. specialize (H "(" eq_refl). vm_compute in H. discriminate.
Qed.
